(** * chatgpt-docker-puppeteer: task store, scheduler, locks, completion
      protocol and connection orchestrator

    A shallow embedding of [src/infra/io.js], [src/core/schemas.js],
    [index.js] (task acquisition), [src/driver/targets/ChatGPTDriver.js],
    [src/driver/modules/triage.js], [src/logic/adaptive.js] and
    [src/infra/connection_orchestrator.js], with the properties of the
    reliability layer stated over it.

    Conventions.  Stateful code is written in explicit state-passing style
    over a [World] (the files, the OS process table, the clock and the
    outcomes of the next guarded system calls).  Code that can throw returns
    a [result].  Loops that the source writes as [while (true)] take a fuel
    argument, and a run that is still looping when the fuel is spent
    answers so ([Polling], [Looping]).  What the code takes from the
    JavaScript engine for lower-casing and collation is a parameter
    ([Runtime]); properties stated without it are about runs that do not
    depend on it. *)

From stdpp Require Import base gmap strings list pretty.
From Stdlib Require Import ZArith Lia QArith Qminmax.

Open Scope string_scope.
Open Scope list_scope.
Open Scope Z_scope.

(** ** Results of code that may throw *)

Inductive result (A : Type) :=
  | Ok (a : A)
  | Throw (message : string).
Arguments Ok {A} a.
Arguments Throw {A} message.

(** ** Strings, up to the library functions the code applies to them *)

(** A timestamp string.  [Iso ms] is the text [new Date(ms).toISOString()];
    [NotDate s] is a string on which [Date.parse] answers NaN. *)
Inductive datestr :=
  | Iso (ms : Z)
  | NotDate (s : string).

Definition Date_parse (d : datestr) : option Z :=
  match d with
  | Iso ms => Some ms
  | NotDate _ => None
  end.

Definition toISOString (ms : Z) : datestr := Iso ms.

(** zod's [z.string().datetime()] accepts exactly the ISO form. *)
Definition is_datetime (d : datestr) : bool :=
  match d with
  | Iso _ => true
  | NotDate _ => false
  end.

(** ** The string functions of the JavaScript engine

    [String.prototype.toLowerCase] follows the Unicode case mappings and
    [String.prototype.localeCompare] the collation of the host's locale.
    Neither is code of this repository, so the program is embedded over
    any engine that does what is fixed for the two:

    - on a string of ASCII characters [toLowerCase] lowers the letters
      [A-Z] and leaves the rest;
    - [localeCompare] is a total preorder, answered as a number whose
      sign counts;
    - two ISO renderings [YYYY-MM-DDTHH:mm:ss.sssZ] of instants with a
      four-digit year collate as their instants do, since they differ
      first at a digit.

    Nothing is fixed for [toLowerCase] on other strings, nor for the
    collation of strings that are not such renderings. *)

Definition lower_ascii (c : Ascii.ascii) : Ascii.ascii :=
  let n := Ascii.N_of_ascii c in
  if ((65 <=? n)%N && (n <=? 90)%N)%bool then Ascii.ascii_of_N (n + 32)%N else c.

Fixpoint ascii_lower (s : string) : string :=
  match s with
  | EmptyString => EmptyString
  | String c r => String (lower_ascii c) (ascii_lower r)
  end.

Fixpoint is_ascii (s : string) : bool :=
  match s with
  | EmptyString => true
  | String c r => (Ascii.N_of_ascii c <? 128)%N && is_ascii r
  end.

(** The instants from 0000-01-01T00:00:00.000Z to 9999-12-31T23:59:59.999Z. *)
Definition four_digit_year (ms : Z) : Prop :=
  -62167219200000 ≤ ms ≤ 253402300799999.

Class Runtime := {
  toLowerCase : string → string;
  localeCompare : datestr → datestr → Z;
  toLowerCase_ascii s :
    is_ascii s = true → toLowerCase s = ascii_lower s;
  localeCompare_refl a : localeCompare a a = 0;
  localeCompare_antisym a b :
    Z.sgn (localeCompare b a) = - Z.sgn (localeCompare a b);
  localeCompare_trans a b c :
    localeCompare a b ≤ 0 → localeCompare b c ≤ 0 → localeCompare a c ≤ 0;
  localeCompare_iso x y :
    four_digit_year x → four_digit_year y →
    Z.sgn (localeCompare (Iso x) (Iso y)) = Z.sgn (x - y)
}.

(** One such engine, on which the examples are evaluated: their strings
    are ASCII and their timestamps are ISO renderings with a four-digit
    year.  It lowers the ASCII letters and, of the collations left open,
    takes the one that puts the empty string first, then the ISO
    renderings by their instants, then the other strings in code-unit
    order. *)
Definition plain_collation (a b : datestr) : Z :=
  match a, b with
  | Iso x, Iso y => Z.sgn (x - y)
  | Iso _, NotDate r => if String.eqb r "" then 1 else -1
  | NotDate s, Iso _ => if String.eqb s "" then -1 else 1
  | NotDate s, NotDate r =>
      match String.compare s r with Lt => -1 | Eq => 0 | Gt => 1 end
  end.

#[global] Instance plain_runtime : Runtime.
Proof.
  refine {| toLowerCase := ascii_lower; localeCompare := plain_collation |}.
  - reflexivity.
  - intros [x|s]; cbn.
    + by rewrite Z.sub_diag.
    + pose proof (String.compare_antisym s s) as H.
      by destruct (String.compare s s).
  - intros [x|s] [y|r]; cbn.
    + rewrite <- Z.sgn_opp. do 2 f_equal. lia.
    + by destruct (String.eqb r "").
    + by destruct (String.eqb s "").
    + rewrite (String.compare_antisym s r). by destruct (String.compare r s).
  - assert (∀ s, String.compare s "" ≠ Gt → s = "") as Hmin
      by (by intros [|c s]).
    assert (∀ s r, String.compare s r ≠ Gt → String.le s r) as Hle
      by (intros s r H; unfold String.le, String.leb;
          by destruct (String.compare s r)).
    intros [x|s] [y|r] [z|q]; cbn; try lia.
    + destruct (String.eqb r ""); lia.
    + destruct (String.eqb_spec r "") as [->|Hr]; [lia|]. intros _ H.
      destruct (String.eqb_spec q "") as [->|Hq]; [|lia].
      destruct Hr. apply Hmin. by destruct (String.compare r "").
    + destruct (String.eqb_spec s "") as [->|Hs]; [|lia]. intros _ _.
      by destruct q.
    + destruct (String.eqb_spec r "") as [->|Hr]; [|lia]. intros H _.
      assert (s = "") as -> by (apply Hmin; by destruct (String.compare s "")).
      done.
    + intros H1 H2.
      assert (String.le s q) as L.
      { etrans; apply Hle.
        - intros E. by rewrite E in H1.
        - intros E. by rewrite E in H2. }
      unfold String.le, String.leb in L. by destruct (String.compare s q).
  - intros x y _ _. cbn. by rewrite Z.sgn_sgn.
Defined.

(** ** The task record (src/core/schemas.js)

    The record has the fields that the modelled code reads or writes;
    the other fields of the schema ([project_id], [tags], [model],
    [parameters], [validation], [config], [timeout_ms], [metrics],
    [result], ...) are taken to be valid and are left out.  Every field
    carries the base JSON type the schema declares for it; the refinements
    of the schema (pattern, enum, minimum) are checked by [parseTask]
    below, so a record of this type may still violate them.  A field is an
    [option] where the code itself can produce a record that lacks it. *)

Record HistoryEvent := {
  ev_ts : datestr;
  ev_event : string;
  ev_msg : option string
}.

Record Meta := {
  meta_id : string;
  meta_created_at : datestr;
  meta_priority : Z;
  meta_source : string
}.

Record Spec := {
  spec_target : string;
  payload_user_message : string
}.

Record Policy := {
  policy_max_attempts : Z;
  policy_dependencies : list string;
  policy_execute_after : option datestr
}.

Record State := {
  state_status : string;
  state_attempts : option Z;
  state_started_at : option datestr;
  state_last_error : option string;
  state_history : option (list HistoryEvent)
}.

Record Task := {
  meta : Meta;
  spec : Spec;
  policy : Policy;
  state : State
}.

Definition with_state (t : Task) (s : State) : Task :=
  {| meta := meta t; spec := spec t; policy := policy t; state := s |}.

(** [t.state.status = v; t.state.last_error = e] *)
Definition mark (v : string) (e : string) (s : State) : State :=
  {| state_status := v;
     state_attempts := state_attempts s;
     state_started_at := state_started_at s;
     state_last_error := Some e;
     state_history := state_history s |}.

Definition with_history (h : list HistoryEvent) (s : State) : State :=
  {| state_status := state_status s;
     state_attempts := state_attempts s;
     state_started_at := state_started_at s;
     state_last_error := state_last_error s;
     state_history := Some h |}.

(** ** Lock records and documents *)

Record LockData := {
  lock_taskId : string;
  lock_pid : Z;
  lock_ts : datestr
}.

(** A JSON value that is neither a task record nor a lock record: it has
    none of the properties the code reads ([meta], [spec], [policy],
    [state], [pid]).  [JArray] is an array, whatever its elements;
    [JObject] is an object without those properties, such as [{}] or a
    record in the legacy layout. *)
Inductive json :=
  | JNull
  | JBool (b : bool)
  | JNumber (n : Z)
  | JString (s : string)
  | JArray
  | JObject.

(** What [JSON.parse] gives for a file of the queue or a lock file. *)
Inductive doc :=
  | DTask (t : Task)
  | DLock (l : LockData)
  | DOther (v : json).

(** [Boolean(d)]: objects and arrays are truthy; [null], [false], [0] and
    the empty string are not. *)
Definition Boolean (d : doc) : bool :=
  match d with
  | DTask _ | DLock _ => true
  | DOther JNull => false
  | DOther (JBool b) => b
  | DOther (JNumber n) => negb (n =? 0)
  | DOther (JString s) => negb (String.eqb s "")
  | DOther JArray | DOther JObject => true
  end.

(** The text of a file, up to [JSON.parse].  [Text d] is a JSON text:
    [JSON.parse] gives [d] for it.  The other two are texts for which
    [JSON.parse] gives nothing.  [Torn d n] is what is left of the text of
    [d] when a write is cut short after [n] characters, fewer than all of
    them, and what is left is not a JSON text: so it is for the records
    the store writes, whose text starts with a brace that nothing short
    of the whole text closes.  [NotJSON k] is any other text that is
    blank or on which [JSON.parse] throws a SyntaxError; [k] tells such
    texts apart. *)
Inductive content :=
  | Text (d : doc)
  | Torn (d : doc) (n : nat)
  | NotJSON (k : nat).

(** ** The world *)

Inductive errno := EBUSY | EPERM | EACCES.

Inductive dir := QUEUE_DIR | CORRUPT_DIR | ROOT.
Definition path : Type := dir * string.

Record World := {
  queue : gmap string content;      (* fila/ *)
  corrupted : gmap string content;  (* fila/corrupted/ *)
  root : gmap string content;       (* the project root *)
  procs : gset Z;                   (* pids that answer signal 0 *)
  clock : Z;                        (* Date.now() *)
  faults : list (option errno);     (* outcome of the next guarded calls *)
  entropy : list string             (* crypto.randomBytes(4).toString('hex') *)
}.

Definition files (w : World) (d : dir) : gmap string content :=
  match d with
  | QUEUE_DIR => queue w
  | CORRUPT_DIR => corrupted w
  | ROOT => root w
  end.

Definition with_files (w : World) (d : dir) (m : gmap string content) : World :=
  {| queue := match d with QUEUE_DIR => m | _ => queue w end;
     corrupted := match d with CORRUPT_DIR => m | _ => corrupted w end;
     root := match d with ROOT => m | _ => root w end;
     procs := procs w; clock := clock w; faults := faults w;
     entropy := entropy w |}.

Definition read_file (w : World) (p : path) : option content :=
  files w p.1 !! p.2.

Definition write_file (w : World) (p : path) (c : content) : World :=
  with_files w p.1 (<[p.2 := c]> (files w p.1)).

Definition remove_file (w : World) (p : path) : World :=
  with_files w p.1 (delete p.2 (files w p.1)).

(** [fs.renameSync(a, b)] when it succeeds. *)
Definition rename_file (w : World) (a b : path) : World :=
  match read_file w a with
  | Some c => write_file (remove_file w a) b c
  | None => w
  end.

(** [await sleep(ms)] *)
Definition sleep (ms : Z) (w : World) : World :=
  {| queue := queue w; corrupted := corrupted w; root := root w;
     procs := procs w; clock := clock w + ms; faults := faults w;
     entropy := entropy w |}.

(** The outcome the operating system gives to the next guarded call. *)
Definition pop_fault (w : World) : option errno * World :=
  match faults w with
  | [] => (None, w)
  | f :: rest =>
      (f, {| queue := queue w; corrupted := corrupted w; root := root w;
             procs := procs w; clock := clock w; faults := rest;
             entropy := entropy w |})
  end.

Definition pop_entropy (w : World) : string * World :=
  match entropy w with
  | [] => ("00000000", w)
  | u :: rest =>
      (u, {| queue := queue w; corrupted := corrupted w; root := root w;
             procs := procs w; clock := clock w; faults := faults w;
             entropy := rest |})
  end.

Definition transient (e : errno) : bool :=
  match e with
  | EBUSY | EPERM => true
  | EACCES => false
  end.

(** ** src/infra/io.js *)

Definition RUN_LOCK_PREFIX : string := "RUNNING_".
Definition CACHE_HEARTBEAT_MS : Z := 15000.

(** [isProcessAlive(pid)]; [None] is a missing pid. *)
Definition isProcessAlive (pid : option Z) (w : World) : bool :=
  match pid with
  | None => false
  | Some p => if decide (p = 0) then false else bool_decide (p ∈ procs w)
  end.

(** Where a file that does not parse is moved to. *)
Definition badFile (name : string) (now : Z) : path :=
  (CORRUPT_DIR, name +:+ "." +:+ pretty now +:+ ".bad").

Definition quarantine (p : path) (w : World) : World :=
  rename_file w p (badFile p.2 (clock w)).

(** The [while (attempts < 5)] of [safeReadJSON].  A text that parses is
    answered as [JSON.parse] gives it, whatever the value ([Some (DOther
    JNull)] is the value [null]); a blank text and a SyntaxError send the
    file to quarantine; [None] is the [null] of the other exits. *)
Fixpoint safeReadJSON_loop (budget : nat) (p : path) (w : World)
  : option doc * World :=
  match budget with
  | O => (None, w)
  | S b =>
      let '(f, w1) := pop_fault w in
      match f with
      | Some e =>
          if transient e then safeReadJSON_loop b p (sleep 200 w1)
          else (None, w1)
      | None =>
          match read_file w1 p with
          | None => (None, w1)
          | Some (Text d) => (Some d, w1)
          | Some (Torn _ _) | Some (NotJSON _) => (None, quarantine p w1)
          end
      end
  end.

Definition safeReadJSON (p : path) (w : World) : option doc * World :=
  match read_file w p with
  | None => (None, w)
  | Some _ => safeReadJSON_loop 5 p w
  end.

(** ** src/core/schemas.js *)

(** [/^[a-zA-Z0-9._-]+$/] *)
Definition id_char (c : Ascii.ascii) : bool :=
  let n := Ascii.N_of_ascii c in
  (((97 <=? n) && (n <=? 122)) || ((65 <=? n) && (n <=? 90))
   || ((48 <=? n) && (n <=? 57)) || (n =? 46) || (n =? 95) || (n =? 45))%N%bool.

Fixpoint all_chars (f : Ascii.ascii → bool) (s : string) : bool :=
  match s with
  | EmptyString => true
  | String c r => f c && all_chars f r
  end.

Fixpoint filter_chars (f : Ascii.ascii → bool) (s : string) : string :=
  match s with
  | EmptyString => EmptyString
  | String c r => if f c then String c (filter_chars f r) else filter_chars f r
  end.

Definition id_ok (s : string) : bool :=
  all_chars id_char s && bool_decide (1 ≤ String.length s)%nat.

(** The white space [String.prototype.trim] removes, within ASCII. *)
Definition is_space (c : Ascii.ascii) : bool :=
  let n := Ascii.N_of_ascii c in
  (((9 <=? n) && (n <=? 13)) || (n =? 32))%N%bool.

Fixpoint trimStart (s : string) : string :=
  match s with
  | EmptyString => EmptyString
  | String c r => if is_space c then trimStart r else s
  end.

Definition trim (s : string) : string :=
  String.rev (trimStart (String.rev (trimStart s))).

(** [/[\x00-\x08\x0B\x0C\x0E-\x1F\x7F]/] *)
Definition is_control (c : Ascii.ascii) : bool :=
  let n := Ascii.N_of_ascii c in
  ((n <=? 8) || (n =? 11) || (n =? 12) || ((14 <=? n) && (n <=? 31))
   || (n =? 127))%N%bool.

Definition SOURCES : list string :=
  ["manual"; "api"; "orchestrator"; "bulk"; "gui"; "flow_manager";
   "self_generated"].

Definition STATUSES : list string :=
  ["PENDING"; "RUNNING"; "DONE"; "FAILED"; "PAUSED"; "SKIPPED"; "STALLED"].

Definition in_enum (l : list string) (s : string) : bool :=
  bool_decide (s ∈ l).

(** One zod issue is the path of the value that was refused. *)
Definition issue (ok : bool) (where_ : string) : list string :=
  if ok then [] else [where_].

Definition MetaSchema_issues (m : Meta) : list string :=
  issue (id_ok (meta_id m)) "meta.id"
  ++ issue (in_enum SOURCES (meta_source m)) "meta.source".

Definition SpecSchema_issues (s : Spec) : list string :=
  issue (bool_decide (1 ≤ String.length (payload_user_message s))%nat)
        "spec.payload.user_message".

Definition PolicySchema_issues (p : Policy) : list string :=
  issue (bool_decide (1 ≤ policy_max_attempts p)) "policy.max_attempts"
  ++ issue (match policy_execute_after p with
            | Some d => is_datetime d
            | None => true
            end) "policy.execute_after".

Definition StateSchema_issues (s : State) : list string :=
  issue (in_enum STATUSES (state_status s)) "state.status".

Definition TaskSchema_issues (t : Task) : list string :=
  MetaSchema_issues (meta t) ++ SpecSchema_issues (spec t)
  ++ PolicySchema_issues (policy t) ++ StateSchema_issues (state t).

(** [z.string().datetime().or(z.string().transform(() => new Date().toISOString()))] *)
Definition datetime_or_now (now : Z) (d : datestr) : datestr :=
  if is_datetime d then d else toISOString now.

Definition MetaSchema_out (now : Z) (m : Meta) : Meta :=
  {| meta_id := meta_id m;
     meta_created_at := datetime_or_now now (meta_created_at m);
     meta_priority := Z.max 0 (Z.min 100 (meta_priority m));
     meta_source := meta_source m |}.

Definition SpecSchema_out (s : Spec) : Spec :=
  {| spec_target := spec_target s;
     payload_user_message :=
       filter_chars (λ c, negb (is_control c)) (trim (payload_user_message s)) |}.

Definition HistorySchema_out (now : Z) (e : HistoryEvent) : HistoryEvent :=
  {| ev_ts := datetime_or_now now (ev_ts e);
     ev_event := ev_event e;
     ev_msg := ev_msg e |}.

Definition StateSchema_out (now : Z) (s : State) : State :=
  {| state_status := state_status s;
     state_attempts := Some (default 0 (state_attempts s));
     state_started_at := state_started_at s;
     state_last_error := state_last_error s;
     state_history :=
       Some (HistorySchema_out now <$> default [] (state_history s)) |}.

Definition TaskSchema_out (now : Z) (t : Task) : Task :=
  {| meta := MetaSchema_out now (meta t);
     spec := SpecSchema_out (spec t);
     policy := policy t;
     state := StateSchema_out now (state t) |}.

Definition ZodError (issues : list string) : string :=
  "ZodError: " +:+ String.concat ", " issues.

(** [parseTask(raw)].  It works on a deep copy, so [raw] is not changed.
    The record has its four blocks and none of the legacy top-level keys
    ([prompt], [prioridade], [id], [status], [erro], [dependsOn]), so the
    legacy adapter and the block guarantee leave it as it is and
    [TaskSchema.parse] decides. *)
Definition parseTask (now : Z) (raw : Task) : result Task :=
  match TaskSchema_issues raw with
  | [] => Ok (TaskSchema_out now raw)
  | issues => Throw (ZodError issues)
  end.

(** ** src/core/config.js *)

Record Config := {
  IDLE_SLEEP : Z;
  RUNNING_RECOVERY_MS : Z;
  MAX_CONTINUATIONS : Z;
  STABLE_CYCLES : option Z;
  STABILITY_INTERVAL : option Z
}.

(** [DEFAULTS]; it has no [STABLE_CYCLES] and no [STABILITY_INTERVAL]. *)
Definition DEFAULTS : Config :=
  {| IDLE_SLEEP := 3000;
     RUNNING_RECOVERY_MS := 40 * 60 * 1000;
     MAX_CONTINUATIONS := 25;
     STABLE_CYCLES := None;
     STABILITY_INTERVAL := None |}.

(** ** src/infra/io.js, continued: the state of one process *)

Record Proc := {
  pid : Z;                                (* process.pid *)
  globalQueueCache : option (list doc);
  isCacheDirty : bool;
  lastFullScan : Z
}.

Definition fresh_proc (p : Z) : Proc :=
  {| pid := p; globalQueueCache := None; isCacheDirty := true;
     lastFullScan := 0 |}.

Definition setCacheDirty (pr : Proc) : Proc :=
  {| pid := pid pr; globalQueueCache := globalQueueCache pr;
     isCacheDirty := true; lastFullScan := lastFullScan pr |}.

Definition with_cache (pr : Proc) (c : list doc) : Proc :=
  {| pid := pid pr; globalQueueCache := Some c;
     isCacheDirty := isCacheDirty pr; lastFullScan := lastFullScan pr |}.

(** *** atomicWrite *)

Definition tmp_of (self : Z) (uuid : string) (p : path) : path :=
  (p.1, p.2 +:+ ".tmp." +:+ pretty self +:+ "." +:+ uuid).

Definition errno_message (e : errno) : string :=
  match e with
  | EBUSY => "EBUSY: resource busy or locked"
  | EPERM => "EPERM: operation not permitted"
  | EACCES => "EACCES: permission denied"
  end.

(** The [while (attempts < 10)] loop around [fs.renameSync(tmp, filepath)],
    with the worlds it goes through.  [budget] is [10 - attempts]. *)
Fixpoint rename_loop (budget : nat) (attempts : Z) (tmp p : path) (w : World)
  : result unit * list World :=
  match budget with
  | O => (Ok tt, [])
  | S b =>
      let '(f, w1) := pop_fault w in
      match f with
      | None => (Ok tt, [rename_file w1 tmp p])
      | Some e =>
          if transient e then
            let w2 := sleep (100 * (attempts + 1)) w1 in
            let '(r, ws) := rename_loop b (attempts + 1) tmp p w2 in
            (r, w2 :: ws)
          else (Throw (errno_message e), [remove_file w1 tmp])
      end
  end.

(** [atomicWrite(filepath, content)] with every world it goes through:
    the temporary file while [fs.writeFileSync] has put only part of the
    text on the disk ([chunks] such states), the temporary file complete,
    then the rename loop. *)
Definition atomicWrite_steps (self : Z) (chunks : nat) (p : path) (d : doc)
    (w : World) : result unit * list World :=
  let '(uuid, w0) := pop_entropy w in
  let tmp := tmp_of self uuid p in
  let torn := (λ n, write_file w0 tmp (Torn d n)) <$> seq 0 chunks in
  let w1 := write_file w0 tmp (Text d) in
  let '(r, ws) := rename_loop 10 0 tmp p w1 in
  (r, torn ++ w1 :: ws).

Definition atomicWrite (self : Z) (p : path) (d : doc) (w : World)
  : result unit * World :=
  let '(r, ws) := atomicWrite_steps self 0 p d w in
  (r, default w (last ws)).

(** *** saveTask *)

Definition task_file (t : Task) : path :=
  (QUEUE_DIR, meta_id (meta t) +:+ ".json").

Definition saveTask_steps (self : Z) (chunks : nat) (t : Task) (w : World)
  : result unit * list World :=
  match parseTask (clock w) t with
  | Throw m => (Throw m, [])
  | Ok validated =>
      atomicWrite_steps self chunks (task_file validated) (DTask validated) w
  end.

Definition saveTask (pr : Proc) (t : Task) (w : World)
  : result unit * Proc * World :=
  match parseTask (clock w) t with
  | Throw m => (Throw m, pr, w)
  | Ok validated =>
      match atomicWrite (pid pr) (task_file validated) (DTask validated) w with
      | (Ok _, w') => (Ok tt, setCacheDirty pr, w')
      | (Throw m, w') => (Throw m, pr, w')
      end
  end.

(** *** getQueue *)

Definition endsWith (s suffix : string) : bool :=
  String.prefix (String.rev suffix) (String.rev s).

Definition readdirSync (w : World) (d : dir) : list string :=
  (map_to_list (files w d)).*1.

Fixpoint read_all (names : list string) (w : World)
  : list (option doc) * World :=
  match names with
  | [] => ([], w)
  | f :: more =>
      let '(r, w1) := safeReadJSON (QUEUE_DIR, f) w in
      let '(rs, w2) := read_all more w1 in
      (r :: rs, w2)
  end.

(** The callback of [results.filter(Boolean)]. *)
Definition kept (r : option doc) : option doc :=
  match r with
  | Some d => if Boolean d then Some d else None
  | None => None
  end.

Definition scanQueue (pr : Proc) (w : World) : list doc * Proc * World :=
  let now := clock w in
  let names := filter (λ f, endsWith f ".json" = true) (readdirSync w QUEUE_DIR) in
  let '(results, w') := read_all names w in
  let tasks := omap kept results in
  (tasks,
   {| pid := pid pr; globalQueueCache := Some tasks; isCacheDirty := false;
      lastFullScan := now |},
   w').

Definition getQueue (forceRefresh : bool) (pr : Proc) (w : World)
  : list doc * Proc * World :=
  let needsHeartbeat := bool_decide (clock w - lastFullScan pr > CACHE_HEARTBEAT_MS) in
  match globalQueueCache pr with
  | Some c =>
      if negb forceRefresh && negb (isCacheDirty pr) && negb needsHeartbeat
      then (c, pr, w)
      else scanQueue pr w
  | None => scanQueue pr w
  end.

(** *** loadNextTask *)

(** A timestamp string in a boolean position: the empty string is falsy. *)
Definition truthy (d : datestr) : bool :=
  match d with
  | Iso _ => true
  | NotDate s => negb (String.eqb s "")
  end.

Definition TypeError (prop : string) : string :=
  "TypeError: Cannot read properties of undefined (reading '" +:+ prop +:+ "')".

Definition SYSTEM_RECOVERY (now : Z) : HistoryEvent :=
  {| ev_ts := toISOString now;
     ev_event := "SYSTEM_RECOVERY";
     ev_msg := Some "Ressuscitado por inatividade" |}.

(** [t.state.status === 'RUNNING' && t.state.started_at] and
    [now - Date.parse(t.state.started_at) > CONFIG.RUNNING_RECOVERY_MS] *)
Definition is_zombie (cfg : Config) (now : Z) (t : Task) : bool :=
  String.eqb (state_status (state t)) "RUNNING"
  && match state_started_at (state t) with
     | Some d =>
         truthy d
         && match Date_parse d with
            | Some ms => bool_decide (now - ms > RUNNING_RECOVERY_MS cfg)
            | None => false
            end
     | None => false
     end.

(** The body of the first loop for one element of [allTasks]: the element
    as the loop leaves it, and whether the loop goes on. *)
Definition sweep_one (cfg : Config) (now : Z) (pr : Proc) (d : doc) (w : World)
  : result unit * doc * Proc * World :=
  match d with
  | DLock _ | DOther _ => (Throw (TypeError "status"), d, pr, w)
  | DTask t =>
      if is_zombie cfg now t then
        let s1 := mark "FAILED" "Timeout de Recuperação (Zumbi)" (state t) in
        match state_history s1 with
        | None => (Throw (TypeError "push"), DTask (with_state t s1), pr, w)
        | Some h =>
            let t' := with_state t (with_history (h ++ [SYSTEM_RECOVERY (clock w)]) s1) in
            let '(r, pr', w') := saveTask pr t' w in
            (r, DTask t', pr', w')
        end
      else (Ok tt, d, pr, w)
  end.

Fixpoint sweep (cfg : Config) (now : Z) (pr : Proc) (l : list doc) (w : World)
  : result unit * list doc * Proc * World :=
  match l with
  | [] => (Ok tt, [], pr, w)
  | d :: rest =>
      match sweep_one cfg now pr d w with
      | (Ok _, d', pr', w') =>
          let '(r, rest', pr'', w'') := sweep cfg now pr' rest w' in
          (r, d' :: rest', pr'', w'')
      | (Throw m, d', pr', w') => (Throw m, d' :: rest, pr', w')
      end
  end.

(** [allTasks.find(x => x.meta.id === depId)] *)
Fixpoint find_task (allTasks : list doc) (depId : string)
  : result (option Task) :=
  match allTasks with
  | [] => Ok None
  | DTask x :: rest =>
      if String.eqb (meta_id (meta x)) depId then Ok (Some x)
      else find_task rest depId
  | (DLock _ | DOther _) :: _ => Throw (TypeError "id")
  end.

Inductive verdict := Clear | Blocked | ParentFailed.

(** The loop over [deps], entered with the current [isBlocked]. *)
Fixpoint check_deps (allTasks : list doc) (deps : list string) (isBlocked : bool)
  : result verdict :=
  match deps with
  | [] => Ok (if isBlocked then Blocked else Clear)
  | depId :: more =>
      match find_task allTasks depId with
      | Throw m => Throw m
      | Ok None => Ok Blocked
      | Ok (Some parent) =>
          let pStatus := state_status (state parent) in
          if String.eqb pStatus "FAILED" || String.eqb pStatus "SKIPPED"
          then Ok ParentFailed
          else check_deps allTasks more
                 (isBlocked || negb (String.eqb pStatus "DONE"))
      end
  end.

(** [t.policy.execute_after && new Date(t.policy.execute_after) > new Date()] *)
Definition time_locked (now : Z) (t : Task) : bool :=
  match policy_execute_after (policy t) with
  | Some d =>
      truthy d
      && match Date_parse d with
         | Some ms => bool_decide (ms > now)
         | None => false
         end
  | None => false
  end.

Definition skip (t : Task) : Task :=
  with_state t (mark "SKIPPED" "Dependência falhou ou foi pulada." (state t)).

(** The callback of [allTasks.filter] for the element [d], which stands
    between [pre] (already visited) and [rest] in [allTasks]: the element as
    the callback leaves it, and the callback's answer. *)
Definition eligible_one (pr : Proc) (pre : list doc) (d : doc) (rest : list doc)
    (w : World) : result bool * doc * Proc * World :=
  match d with
  | DLock _ | DOther _ => (Throw (TypeError "status"), d, pr, w)
  | DTask t =>
      if negb (String.eqb (state_status (state t)) "PENDING") then (Ok false, d, pr, w)
      else if time_locked (clock w) t then (Ok false, d, pr, w)
      else
        match policy_dependencies (policy t) with
        | [] => (Ok true, d, pr, w)
        | deps =>
            match check_deps (pre ++ d :: rest) deps false with
            | Throw m => (Throw m, d, pr, w)
            | Ok ParentFailed =>
                (* [saveTask(t)] is not awaited: its outcome is dropped *)
                let '(_, pr', w') := saveTask pr (skip t) w in
                (Ok false, DTask (skip t), pr', w')
            | Ok Blocked => (Ok false, d, pr, w)
            | Ok Clear => (Ok true, d, pr, w)
            end
        end
  end.

(** [allTasks.filter(...)]: the elements kept, each with its index in
    [allTasks], and [allTasks] as the callbacks leave it. *)
Fixpoint eligibility (pr : Proc) (pre rest : list doc) (w : World)
  : result (list (nat * Task)) * list doc * Proc * World :=
  match rest with
  | [] => (Ok [], pre, pr, w)
  | d :: more =>
      match eligible_one pr pre d more w with
      | (Throw m, d', pr', w') => (Throw m, pre ++ d' :: more, pr', w')
      | (Ok keep, d', pr', w') =>
          match eligibility pr' (pre ++ [d']) more w' with
          | (Ok kept, all, pr'', w'') =>
              (Ok (match keep, d' with
                   | true, DTask t => (length pre, t) :: kept
                   | _, _ => kept
                   end), all, pr'', w'')
          | other => other
          end
      end
  end.

Section Scheduler.
Context {runtime : Runtime}.

(** The comparator of the final [sort]. *)
Definition by_priority (a b : Task) : Z :=
  if negb (meta_priority (meta b) =? meta_priority (meta a))
  then meta_priority (meta b) - meta_priority (meta a)
  else localeCompare (meta_created_at (meta a)) (meta_created_at (meta b)).

(** [Array.prototype.sort] is stable: an element is put after the elements
    that do not compare greater than it. *)
Fixpoint insert_sorted (x : nat * Task) (l : list (nat * Task)) : list (nat * Task) :=
  match l with
  | [] => [x]
  | y :: r => if by_priority x.2 y.2 <=? 0 then x :: l else y :: insert_sorted x r
  end.

Definition sort (l : list (nat * Task)) : list (nat * Task) :=
  foldr insert_sorted [] l.

(** [loadNextTask()]: the task selected, with its index in the cached
    queue, whose elements the pass has changed in place. *)
Definition loadNextTask (cfg : Config) (pr : Proc) (w : World)
  : result (option (nat * Task)) * Proc * World :=
  let '(allTasks, pr0, w0) := getQueue false pr w in
  let now := clock w0 in
  match sweep cfg now pr0 allTasks w0 with
  | (Throw m, all1, pr1, w1) => (Throw m, with_cache pr1 all1, w1)
  | (Ok _, all1, pr1, w1) =>
      match eligibility pr1 [] all1 w1 with
      | (Throw m, all2, pr2, w2) => (Throw m, with_cache pr2 all2, w2)
      | (Ok eligible, all2, pr2, w2) =>
          (Ok (head (sort eligible)), with_cache pr2 all2, w2)
      end
  end.

(** *** acquireLock, releaseLock *)

Definition lockFile (target : string) : path :=
  (ROOT, RUN_LOCK_PREFIX +:+ toLowerCase target +:+ ".lock").

(** [s.pid] *)
Definition doc_pid (d : doc) : option Z :=
  match d with
  | DLock l => Some (lock_pid l)
  | DTask _ | DOther _ => None
  end.

Definition lockData (self : Z) (taskId : string) (w : World) : LockData :=
  {| lock_taskId := taskId; lock_pid := self; lock_ts := toISOString (clock w) |}.

(** A call of [acquireLock] up to its first [await]: the exclusive create
    (flag [wx]) and, when the file is there already, the read of it. *)
Inductive attempt := Acquired | Held (s : option doc).

Definition tryLock (self : Z) (taskId target : string) (w : World)
  : attempt * World :=
  match read_file w (lockFile target) with
  | None =>
      (Acquired,
       write_file w (lockFile target) (Text (DLock (lockData self taskId w))))
  | Some _ =>
      let '(s, w1) := safeReadJSON (lockFile target) w in
      (Held s, w1)
  end.

(** [s && !isProcessAlive(s.pid)] *)
Definition orphan (s : option doc) (w : World) : bool :=
  match s with
  | Some d => Boolean d && negb (isProcessAlive (doc_pid d) w)
  | None => false
  end.

(** [acquireLock(taskId, target)] run alone.  [retries] bounds the
    recursive calls; [None] is a run that would need more of them. *)
Fixpoint acquireLock (retries : nat) (self : Z) (taskId target : string)
    (w : World) : option (bool * World) :=
  match tryLock self taskId target w with
  | (Acquired, w1) => Some (true, w1)
  | (Held s, w1) =>
      if orphan s w1 then
        let w2 := remove_file w1 (lockFile target) in
        match retries with
        | O => None
        | S n => acquireLock n self taskId target w2
        end
      else Some (false, w1)
  end.

Definition releaseLock (target : string) (w : World) : World :=
  remove_file w (lockFile target).

(** *** Two calls of acquireLock in flight

    Within one process a call gives way to other code at its [await] and
    nowhere else, so a call is a machine with three places: before the
    call, suspended at [await safeReadJSON(lockFile)] holding what was
    read, and returned.  Calls made by two processes can be interleaved
    more finely than that, and every schedule of two such machines is one
    of their executions as well. *)

Inductive place :=
  | AtCall
  | AtAwait (s : option doc)
  | Returned (b : bool).

Record Call := {
  call_pid : Z;
  call_taskId : string;
  call_target : string;
  call_at : place
}.

Definition at_place (c : Call) (p : place) : Call :=
  {| call_pid := call_pid c; call_taskId := call_taskId c;
     call_target := call_target c; call_at := p |}.

Definition enter (c : Call) (w : World) : Call * World :=
  match tryLock (call_pid c) (call_taskId c) (call_target c) w with
  | (Acquired, w1) => (at_place c (Returned true), w1)
  | (Held s, w1) => (at_place c (AtAwait s), w1)
  end.

(** One turn of a call: from where it stands to its next [await] or to
    its return. *)
Definition turn (c : Call) (w : World) : Call * World :=
  match call_at c with
  | AtCall => enter c w
  | AtAwait s =>
      if orphan s w then enter c (remove_file w (lockFile (call_target c)))
      else (at_place c (Returned false), w)
  | Returned _ => (c, w)
  end.

(** A schedule says whose turn it is: [true] for the first call. *)
Fixpoint interleave (schedule : list bool) (a b : Call) (w : World)
  : Call * Call * World :=
  match schedule with
  | [] => (a, b, w)
  | true :: more => let '(a', w') := turn a w in interleave more a' b w'
  | false :: more => let '(b', w') := turn b w in interleave more a b' w'
  end.

(** ** index.js: the acquisition of the next task

    Step 5 of the main loop, from [io.loadNextTask()] to the [continue] of
    the schema handler.  The steps before it (pause check, back-off,
    heartbeat, [acquireContext]) and after it (lock, execution) are not
    part of this function. *)

Inductive acquisition :=
  | NoTask                      (* nothing to do: sleep IDLE_SLEEP, continue *)
  | SchemaRejected              (* recorded as FAILED, continue *)
  | Parsed (task : Task)        (* goes on to the lock and the execution *)
  | Collapsed (message : string).  (* caught by the outer handler *)

(** [{ status: 'FAILED', last_error: `Schema Violation: ${schemaErr.message}` }] *)
Definition violation_state (message : string) : State :=
  {| state_status := "FAILED";
     state_attempts := None;
     state_started_at := None;
     state_last_error := Some ("Schema Violation: " +:+ message);
     state_history := None |}.

Definition set_cached (pr : Proc) (i : nat) (d : doc) : Proc :=
  {| pid := pid pr;
     globalQueueCache := (λ c, <[i := d]> c) <$> globalQueueCache pr;
     isCacheDirty := isCacheDirty pr;
     lastFullScan := lastFullScan pr |}.

Definition acquireTask (cfg : Config) (pr : Proc) (w : World)
  : acquisition * Proc * World :=
  match loadNextTask cfg pr w with
  | (Throw m, pr1, w1) => (Collapsed m, pr1, sleep 10000 w1)
  | (Ok None, pr1, w1) => (NoTask, pr1, sleep (IDLE_SLEEP cfg) w1)
  | (Ok (Some (i, rawTask)), pr1, w1) =>
      match parseTask (clock w1) rawTask with
      | Ok task => (Parsed task, pr1, w1)
      | Throw m =>
          let rawTask' := with_state rawTask (violation_state m) in
          match saveTask (set_cached pr1 i (DTask rawTask')) rawTask' w1 with
          | (Ok _, pr2, w2) => (SchemaRejected, pr2, w2)
          | (Throw m', pr2, w2) => (Collapsed m', pr2, sleep 10000 w2)
          end
      end
  end.

End Scheduler.

(** ** src/logic/adaptive.js *)

(** A settled promise. *)
Inductive promise (A : Type) :=
  | Resolved (a : A)
  | Rejected (message : string).
Arguments Resolved {A} a.
Arguments Rejected {A} message.

Record Adjusted := {
  adj_timeout : Z;
  adj_phase : string;
  adj_target : string
}.

(** What a caller hands over as the first argument. *)
Inductive arg :=
  | AStr (s : string)
  | ANum (n : Z).

Section Completion.
Context {runtime : Runtime}.

(** [getAdjustedTimeout(target, messageCount, phase)].  The function is
    [async], so its answer is a promise.  [estimate] is the figure
    [base + safetyMargin + contextPenalty] of the statistical estimator,
    which is floating-point arithmetic over the learned profile and is an
    input here. *)
Definition getAdjustedTimeout (estimate : string → Z → string → Z)
    (target : arg) (messageCount : Z) (phase : string) : promise Adjusted :=
  match target with
  | ANum _ => Rejected "TypeError: target.toLowerCase is not a function"
  | AStr t =>
      let tKey := toLowerCase t in
      let total := estimate tKey messageCount phase in
      let minPatience := if String.eqb phase "INITIAL" then 30000 else 10000 in
      let maxPatience := 300000 in
      Resolved {| adj_timeout := Z.min maxPatience (Z.max minPatience total);
                  adj_phase := phase;
                  adj_target := tKey |}
  end.

(** ** The relational operator of JavaScript on the operands met here *)

Inductive operand :=
  | ONum (n : Z)
  | OPromise (p : promise Adjusted).

(** [ToNumber]; [None] is NaN.  A promise has no numeric [valueOf]: its
    primitive is the text "[object Promise]", which is not a number. *)
Definition ToNumber (v : operand) : option Z :=
  match v with
  | ONum n => Some n
  | OPromise _ => None
  end.

(** [a > b]: false as soon as one side is NaN. *)
Definition js_gt (a b : operand) : bool :=
  match ToNumber a, ToNumber b with
  | Some x, Some y => bool_decide (x > y)
  | _, _ => false
  end.

(** ** src/driver/modules/stabilizer.js and triage.js *)

(** What the probes evaluated inside the page find at one poll. *)
Record Snapshot := {
  challenge : bool;          (* #challenge-running, or "cloudflare" in the text *)
  password_visible : bool;   (* a visible input[type=password] *)
  limit_text : bool;         (* one of the limit patterns in the text *)
  error_text : bool;         (* one of the error terms of the dictionary *)
  error_colour : bool;       (* a red or orange leaf element with text *)
  retry_without_stop : bool; (* a visible dismiss button and no Stop button *)
  spinner : bool;            (* a visible loader *)
  network : bool;            (* a resource answered less than 500 ms ago *)
  lag : Z;                   (* the measured event-loop lag, in ms *)
  assistant : list string;   (* innerText of the assistant messages *)
  mutated : option Z;        (* time of the last DOM mutation since the poll before *)
  date_now : Z               (* Date.now() in the driver *)
}.

Definition getPageLoadStatus (s : Snapshot) : string :=
  if spinner s then "BUSY_SPINNER"
  else if network s then "BUSY_NETWORK"
  else "IDLE".

Definition diagnoseStall (s : Snapshot) : string :=
  if challenge s then "CAPTCHA"
  else if password_visible s then "LOGIN_REQUIRED"
  else if limit_text s then "LIMIT_REACHED"
  else if error_text s then "GENERIC_ERROR_TEXT"
  else if error_colour s then "GENERIC_ERROR_VISUAL"
  else if retry_without_stop s then "FINISHED_ABRUPTLY"
  else if String.eqb (getPageLoadStatus s) "BUSY_NETWORK" then "THINKING"
  else if String.eqb (getPageLoadStatus s) "BUSY_SPINNER" then "LOADING"
  else if bool_decide (lag s > 1000) then "BROWSER_FROZEN"
  else "UNKNOWN".

(** ** src/driver/targets/ChatGPTDriver.js *)

Definition includes (s part : string) : bool :=
  match String.index 0 part s with
  | Some _ => true
  | None => false
  end.

Definition blank_line : string :=
  String (Ascii.ascii_of_N 10) (String (Ascii.ascii_of_N 10) EmptyString).

Inductive completion :=
  | Completed (text : string)
  | Failed (message : string)
  | Polling.

(** The driver object, [this] in the methods: its configuration, and the
    method [_detectLanguage] when the object has one (the language it
    answers at each poll). *)
Record Driver := {
  driver_config : Config;
  _detectLanguage : option (nat → string)
}.

(** [new ChatGPTDriver(page, config)].  Neither [ChatGPTDriver] nor
    [BaseDriver] nor [TargetDriver] nor [EventEmitter] defines
    [_detectLanguage], so the object has no such method. *)
Definition ChatGPTDriver (config : Config) : Driver :=
  {| driver_config := config; _detectLanguage := None |}.

(** What [this._detectLanguage()] throws on an object without the
    method. *)
Definition not_a_function : string :=
  "TypeError: this._detectLanguage is not a function".

(** The [while (true)] of [waitForCompletion].  [page k] is what the k-th
    poll finds, [wd] is [window.__wd_last_change].  The language goes to
    the probes of [diagnoseStall], whose findings the snapshot holds. *)
Fixpoint waitForCompletion_loop (fuel : nat) (self : Driver)
    (estimate : string → Z → string → Z) (page : nat → Snapshot) (k : nat)
    (startMsgCount : nat) (wd : Z) (lastText : string) (stableCycles : Z)
  : completion :=
  match fuel with
  | O => Polling
  | S fuel' =>
      match _detectLanguage self with
      | None => Failed not_a_function
      | Some _ =>
          let snap := page k in
          let wd := default wd (mutated snap) in
          let status := diagnoseStall snap in
          if String.eqb status "LIMIT_REACHED" then Failed "LIMIT_REACHED"
          else if String.eqb status "CAPTCHA" then Failed "CAPTCHA_DETECTED"
          else if String.eqb status "LOGIN_REQUIRED" then Failed "LOGIN_REQUIRED"
          else
            let msgs := assistant snap in
            let currentText :=
              trim (String.concat blank_line (drop startMsgCount msgs)) in
            let stable :=
              negb (String.eqb currentText "") && String.eqb currentText lastText in
            let stableCycles := if stable then stableCycles + 1 else 0 in
            let lastText := if stable then lastText else currentText in
            if match STABLE_CYCLES (driver_config self) with
               | Some n => bool_decide (stableCycles >= n)
               | None => false
               end
            then Completed currentText
            else
              let lastChange := wd in
              let gap := date_now snap - lastChange in
              let dynamicTimeout :=
                getAdjustedTimeout estimate (ANum (Z.of_nat (length msgs))) 0 "STREAM" in
              if js_gt (ONum gap) (OPromise dynamicTimeout) then
                if includes status "THINKING" || String.eqb status "LOADING" then
                  waitForCompletion_loop fuel' self estimate page (S k) startMsgCount
                    (date_now snap) lastText stableCycles
                else Failed ("STALL_DETECTED: " +:+ status)
              else
                waitForCompletion_loop fuel' self estimate page (S k) startMsgCount
                  wd lastText stableCycles
      end
  end.

(** [waitForCompletion(startSnapshot)]; [wd0] is the watchdog timestamp the
    page holds already, if the observer was injected before. *)
Definition waitForCompletion (fuel : nat) (self : Driver)
    (estimate : string → Z → string → Z) (page : nat → Snapshot)
    (startSnapshot : nat) (wd0 : option Z) : completion :=
  waitForCompletion_loop fuel self estimate page 0 startSnapshot
    (default (date_now (page 0%nat)) wd0) "" 0.

End Completion.

(** ** src/infra/connection_orchestrator.js

    The orchestrator is run against an outside that answers its calls and
    that may raise the browser's [disconnected] and [targetdestroyed]
    events while a call is pending.  The handlers run between the moment
    an awaited call goes out and the moment the caller resumes. *)

Module Orchestrator.

Inductive STATES :=
  | INIT | DETECTING_ENV | WAITING_FOR_BROWSER | CONNECTING_BROWSER
  | RETRY_BROWSER | BROWSER_READY | BROWSER_LOST | WAITING_FOR_PAGE
  | PAGE_SELECTED | VALIDATING_PAGE | PAGE_VALIDATED | PAGE_INVALID | READY.

Global Instance STATES_eq_dec : EqDecision STATES.
Proof. solve_decision. Defined.

Definition Browser : Type := nat.

(** A tab, by its identity.  What [page.url()] answers is not a property
    of the tab: it changes when the tab navigates. *)
Definition Page : Type := nat.

(** The events of the browser the orchestrator listens to. *)
Inductive Event :=
  | Disconnected
  | TargetDestroyed (type target_url : string).

(** What the outside answers at one instant, and the events it raises
    while the call that goes out at that instant is pending. *)
Record Chrome := {
  browserURL : Z → option Browser;            (* connect({browserURL}) on a port *)
  webSocketDebuggerUrl : Z → option Browser;  (* /json/version, then connect *)
  isConnected : Browser → bool;
  pages : Browser → result (list Page);
  isClosed : Page → bool;
  url : Page → string;                        (* page.url() *)
  events : list Event
}.

Record Options := {
  ports : list Z;
  retryDelayMs : Z;
  maxRetryDelayMs : Z;
  pageScanIntervalMs : Z;
  stateHistorySize : nat;
  allowedDomains : list string;
  pageSelectionPolicy : string;
  connectionStrategies : list string
}.

Definition DEFAULTS : Options :=
  {| ports := [9222];
     retryDelayMs := 3000;
     maxRetryDelayMs := 15000;
     pageScanIntervalMs := 4000;
     stateHistorySize := 50;
     allowedDomains := ["chatgpt.com"; "gemini.google.com"];
     pageSelectionPolicy := "FIRST";
     connectionStrategies := ["BROWSER_URL"; "WS_ENDPOINT"] |}.

(** Where a timed wait happens. *)
Inductive pause :=
  | BrowserRetry    (* ensureBrowser, after a failed connection *)
  | PageScan        (* ensurePage, no target tab yet *)
  | PageScanError   (* ensurePage, the scan threw *)
  | RecoveryCycle.  (* acquireContext, a phase threw *)

Record Nap := {
  nap_pause : pause;
  nap_retry : Z;    (* this.retryCount when the wait starts *)
  nap_ms : Q
}.

Record Orch := {
  config : Options;
  state : STATES;
  browser : option Browser;
  page : option Page;
  retryCount : Z;
  lastIssue : option (string * string);
  stateHistory : list STATES;
  tick : nat;               (* how many awaited calls went out so far *)
  slept : list Nap          (* the timed waits so far, oldest first *)
}.

Definition create (options : Options) : Orch :=
  {| config := options; state := INIT; browser := None; page := None;
     retryCount := 0; lastIssue := None; stateHistory := []; tick := 0;
     slept := [] |}.

Definition _pushStateHistory (next : STATES) (h : list STATES) (size : nat)
  : list STATES :=
  let h' := h ++ [next] in
  if bool_decide (size < length h')%nat then tail h' else h'.

Definition setState (next : STATES) (o : Orch) : Orch :=
  if decide (state o = next) then o
  else {| config := config o; state := next; browser := browser o;
          page := page o; retryCount := retryCount o;
          lastIssue := lastIssue o;
          stateHistory :=
            _pushStateHistory next (stateHistory o) (stateHistorySize (config o));
          tick := tick o; slept := slept o |}.

Definition classifyIssue (type message : string) (o : Orch) : Orch :=
  {| config := config o; state := state o; browser := browser o;
     page := page o; retryCount := retryCount o;
     lastIssue := Some (type, message);
     stateHistory := stateHistory o; tick := tick o; slept := slept o |}.

Definition set_browser (b : option Browser) (o : Orch) : Orch :=
  {| config := config o; state := state o; browser := b; page := page o;
     retryCount := retryCount o; lastIssue := lastIssue o;
     stateHistory := stateHistory o; tick := tick o; slept := slept o |}.

Definition set_page (p : option Page) (o : Orch) : Orch :=
  {| config := config o; state := state o; browser := browser o; page := p;
     retryCount := retryCount o; lastIssue := lastIssue o;
     stateHistory := stateHistory o; tick := tick o; slept := slept o |}.

Definition set_retryCount (n : Z) (o : Orch) : Orch :=
  {| config := config o; state := state o; browser := browser o;
     page := page o; retryCount := n; lastIssue := lastIssue o;
     stateHistory := stateHistory o; tick := tick o; slept := slept o |}.

Definition detectEnvironment (o : Orch) : Orch := setState DETECTING_ENV o.

(** [cleanup] takes the two listeners off the browser it holds and forgets
    the browser and the page.  [ensureBrowser] puts the listeners on the
    browser it has just connected, with no [await] in between, so at every
    [await] the listeners are on [this.browser], if there is one, and on
    no other browser. *)
Definition cleanup (o : Orch) : Orch := set_page None (set_browser None o).

Definition _handleDisconnect (o : Orch) : Orch :=
  setState BROWSER_LOST
    (cleanup (classifyIssue "BROWSER_DISCONNECTED" "Browser disconnected" o)).

Definition _handleTargetDestroyed (c : Chrome) (type target_url : string)
    (o : Orch) : Orch :=
  match page o with
  | Some p =>
      if String.eqb type "page" && String.eqb target_url (url c p) && isClosed c p
      then setState WAITING_FOR_PAGE
             (set_page None
                (classifyIssue "PAGE_CLOSED_BY_USER" "Target page closed" o))
      else o
  | None => o
  end.

(** One event reaches the listeners, if they are on. *)
Definition deliver (c : Chrome) (o : Orch) (e : Event) : Orch :=
  match browser o with
  | None => o
  | Some _ =>
      match e with
      | Disconnected => _handleDisconnect o
      | TargetDestroyed type target_url =>
          _handleTargetDestroyed c type target_url o
      end
  end.

Definition next_tick (o : Orch) : Orch :=
  {| config := config o; state := state o; browser := browser o;
     page := page o; retryCount := retryCount o; lastIssue := lastIssue o;
     stateHistory := stateHistory o; tick := S (tick o); slept := slept o |}.

Definition log_nap (n : Nap) (o : Orch) : Orch :=
  {| config := config o; state := state o; browser := browser o;
     page := page o; retryCount := retryCount o; lastIssue := lastIssue o;
     stateHistory := stateHistory o; tick := tick o;
     slept := slept o ++ [n] |}.

(** An awaited call went out; the events of the instant are handled before
    the caller resumes. *)
Definition awaited (c : Chrome) (o : Orch) : Orch :=
  foldl (deliver c) (next_tick o) (events c).

(** [await new Promise(r => setTimeout(r, ms))] *)
Definition nap (c : Chrome) (k : pause) (ms : Q) (o : Orch) : Orch :=
  awaited c
    (log_nap {| nap_pause := k; nap_retry := retryCount o; nap_ms := ms |} o).

(** [Math.min(retryDelayMs * (1 + retryCount * 0.1), maxRetryDelayMs)], in
    exact arithmetic. *)
Definition retryDelay (opts : Options) (retryCount : Z) : Q :=
  Qmin (inject_Z (retryDelayMs opts) * (1 + inject_Z retryCount * (1 # 10)))%Q
       (inject_Z (maxRetryDelayMs opts)).

Section Run.

(** The outside, by the number of awaited calls that went out. *)
Variable env : nat → Chrome.

Inductive outcome (A : Type) :=
  | Done (a : A) (o : Orch)
  | Raised (message : string) (o : Orch)
  | Looping.
Arguments Done {A} a o.
Arguments Raised {A} message o.
Arguments Looping {A}.

(** The [for (const port of this.config.ports)] of both strategies. *)
Fixpoint tryConnect (probe : Chrome → Z → option Browser) (ps : list Z)
    (o : Orch) : option Browser * Orch :=
  match ps with
  | [] => (None, o)
  | port :: more =>
      match probe (env (tick o)) port with
      | Some b => (Some b, awaited (env (tick o)) o)
      | None => tryConnect probe more (awaited (env (tick o)) o)
      end
  end.

Definition tryConnectBrowserURL (o : Orch) : option Browser * Orch :=
  tryConnect browserURL (ports (config o)) o.

Definition tryConnectWSEndpoint (o : Orch) : option Browser * Orch :=
  tryConnect webSocketDebuggerUrl (ports (config o)) o.

(** [for (const strat of this.config.connectionStrategies)] *)
Fixpoint connect (strategies : list string) (o : Orch) : option Browser * Orch :=
  match strategies with
  | [] => (None, o)
  | strat :: more =>
      let '(b, o') :=
        if String.eqb strat "BROWSER_URL" then tryConnectBrowserURL o
        else if String.eqb strat "WS_ENDPOINT" then tryConnectWSEndpoint o
        else (None, o) in
      match b with
      | Some _ => (b, o')
      | None => connect more o'
      end
  end.

Fixpoint ensureBrowser_loop (fuel : nat) (o : Orch) : outcome Browser :=
  match fuel with
  | O => Looping
  | S fuel' =>
      let o1 := setState CONNECTING_BROWSER o in
      match connect (connectionStrategies (config o1)) o1 with
      | (Some b, o2) =>
          Done b (setState BROWSER_READY (set_retryCount 0 (set_browser (Some b) o2)))
      | (None, o2) =>
          let o3 := set_retryCount (retryCount o2 + 1) o2 in
          let o4 := classifyIssue "BROWSER_NOT_STARTED"
                      "Chrome não encontrado (Porta fechada)" o3 in
          let o5 := setState RETRY_BROWSER o4 in
          let delay := retryDelay (config o5) (retryCount o5) in
          ensureBrowser_loop fuel' (nap (env (tick o5)) BrowserRetry delay o5)
      end
  end.

Definition ensureBrowser (fuel : nat) (o : Orch) : outcome Browser :=
  let o1 := setState WAITING_FOR_BROWSER o in
  match browser o1 with
  | Some b =>
      if isConnected (env (tick o1)) b then Done b (setState BROWSER_READY o1)
      else ensureBrowser_loop fuel (cleanup o1)
  | None => ensureBrowser_loop fuel (cleanup o1)
  end.

(** [url && url !== 'about:blank' && allowedDomains.some(d => url.includes(d))] *)
Definition candidate (opts : Options) (c : Chrome) (p : Page) : bool :=
  negb (String.eqb (url c p) "")
  && negb (String.eqb (url c p) "about:blank")
  && existsb (λ d, includes (url c p) d) (allowedDomains opts).

Definition scanForTargetPage (b : Browser) (o : Orch)
  : result (option Page) * Orch :=
  match pages (env (tick o)) b with
  | Throw m => (Throw m, awaited (env (tick o)) o)
  | Ok ps =>
      let candidates :=
        filter (λ p, candidate (config o) (env (tick o)) p = true) ps in
      (Ok (if String.eqb (pageSelectionPolicy (config o)) "MOST_RECENT"
           then last candidates else head candidates),
       awaited (env (tick o)) o)
  end.

Fixpoint ensurePage_loop (fuel : nat) (o : Orch) : outcome Page :=
  match fuel with
  | O => Looping
  | S fuel' =>
      match browser o with
      | None => Raised "Browser lost during page scan" o
      | Some b =>
          if negb (isConnected (env (tick o)) b)
          then Raised "Browser lost during page scan" o
          else
            match scanForTargetPage b o with
            | (Ok (Some p), o1) =>
                Done p (setState PAGE_SELECTED (set_page (Some p) o1))
            | (Ok None, o1) =>
                let o2 := classifyIssue "PAGE_NOT_FOUND" "Aguardando aba alvo..." o1 in
                ensurePage_loop fuel'
                  (nap (env (tick o2)) PageScan
                     (inject_Z (pageScanIntervalMs (config o2))) o2)
            | (Throw m, o1) =>
                if includes m "Browser lost" then Raised m o1
                else ensurePage_loop fuel'
                       (nap (env (tick o1)) PageScanError 1000%Q o1)
            end
      end
  end.

Definition ensurePage (fuel : nat) (o : Orch) : outcome Page :=
  let o1 := setState WAITING_FOR_PAGE o in
  match page o1 with
  | Some p =>
      if negb (isClosed (env (tick o1)) p) then Done p (setState PAGE_SELECTED o1)
      else ensurePage_loop fuel o1
  | None => ensurePage_loop fuel o1
  end.

Definition validatePage (p : Page) (o : Orch) : bool * Orch :=
  let o1 := setState VALIDATING_PAGE o in
  if isClosed (env (tick o1)) p
  then (false, setState PAGE_INVALID (set_page None o1))
  else (true, setState PAGE_VALIDATED (awaited (env (tick o1)) o1)).

(** The [while (true)] of [acquireContext]. *)
Fixpoint acquireContext_loop (fuel : nat) (o : Orch)
  : outcome (option Browser * option Page) :=
  match fuel with
  | O => Looping
  | S fuel' =>
      match ensureBrowser fuel' o with
      | Looping => Looping
      | Raised m o1 =>
          acquireContext_loop fuel' (nap (env (tick o1)) RecoveryCycle 1000%Q o1)
      | Done _ o1 =>
          match ensurePage fuel' o1 with
          | Looping => Looping
          | Raised m o2 =>
              acquireContext_loop fuel'
                (nap (env (tick o2)) RecoveryCycle 1000%Q o2)
          | Done p o2 =>
              match validatePage p o2 with
              | (true, o3) =>
                  let o4 := setState READY o3 in
                  Done (browser o4, page o4) o4
              | (false, o3) => acquireContext_loop fuel' o3
              end
          end
      end
  end.

Definition acquireContext (fuel : nat) (o : Orch)
  : outcome (option Browser * option Page) :=
  acquireContext_loop fuel (detectEnvironment o).

End Run.

Arguments Done {A} a o.
Arguments Raised {A} message o.
Arguments Looping {A}.

End Orchestrator.

(** * Vocabulary of the properties *)

(** ** Locks *)

(** The lock is held: its file is a complete lock record. *)
Definition held (w : World) (lf : path) : Prop :=
  ∃ d, read_file w lf = Some (Text d).

(** No complete lock record names a process that is gone. *)
Definition not_stale (w : World) (lf : path) : Prop :=
  ∀ d, read_file w lf = Some (Text d) → isProcessAlive (doc_pid d) w = true.

(** A suspended call that will not break the lock when it resumes. *)
Definition harmless (c : Call) (w : World) : Prop :=
  ∀ s, call_at c = AtAwait s → orphan s w = false.

Definition won (c : Call) : Prop := call_at c = Returned true.

(** ** The queue scan *)

(** What a read of the scan gives for the file [g] of the queue. *)
Definition parsed (w : World) (g : string) : option doc :=
  match queue w !! g with
  | Some (Text d) => Some d
  | _ => None
  end.

(** ** Concrete inputs *)

(** Two engine processes, 101 and 102, are running; nothing is on disk. *)
Definition idle_world : World :=
  {| queue := ∅; corrupted := ∅; root := ∅;
     procs := {[ 101; 102 ]};
     clock := 1700000000000;
     faults := []; entropy := [] |}.

(** The lock that process 77 left behind when it was killed. *)
Definition orphan_lock : LockData :=
  {| lock_taskId := "T0"; lock_pid := 77; lock_ts := Iso 1699990000000 |}.

Definition crashed_world : World :=
  write_file idle_world (lockFile "chatgpt") (Text (DLock orphan_lock)).

Definition engine_A : Call :=
  {| call_pid := 101; call_taskId := "T1"; call_target := "chatgpt";
     call_at := AtCall |}.

Definition engine_B : Call :=
  {| call_pid := 102; call_taskId := "T2"; call_target := "ChatGPT";
     call_at := AtCall |}.

(** Task T1 as the store wrote it earlier, and the record a caller now
    wants to save over it. *)
Definition T1_meta : Meta :=
  {| meta_id := "T1"; meta_created_at := Iso 1699999000000;
     meta_priority := 5; meta_source := "manual" |}.

Definition T1_spec : Spec :=
  {| spec_target := "chatgpt"; payload_user_message := "Summarise the report" |}.

Definition no_policy : Policy :=
  {| policy_max_attempts := 3; policy_dependencies := [];
     policy_execute_after := None |}.

Definition pending : State :=
  {| state_status := "PENDING"; state_attempts := Some 0;
     state_started_at := None; state_last_error := None;
     state_history := Some [] |}.

Definition T1 : Task :=
  {| meta := T1_meta; spec := T1_spec; policy := no_policy; state := pending |}.

Definition T1_running : Task :=
  with_state T1
    {| state_status := "RUNNING"; state_attempts := Some 1;
       state_started_at := Some (Iso 1700000000000);
       state_last_error := None; state_history := Some [] |}.

Definition world_with_T1 : World :=
  write_file idle_world (task_file T1) (Text (DTask T1)).

(** The same world when another program keeps the task file open: the
    next ten renames over it fail with EPERM or EBUSY. *)
Definition world_with_T1_locked : World :=
  {| queue := queue world_with_T1; corrupted := ∅; root := ∅;
     procs := procs world_with_T1; clock := clock world_with_T1;
     faults := [Some EPERM; Some EPERM; Some EBUSY; Some EPERM; Some EPERM;
                Some EBUSY; Some EPERM; Some EPERM; Some EPERM; Some EPERM];
     entropy := ["9f3a01bc"] |}.

(** A queue with one good task file and one file cut short in the middle. *)
Definition T9 : Task :=
  {| meta := {| meta_id := "T9"; meta_created_at := Iso 1699999500000;
                meta_priority := 5; meta_source := "manual" |};
     spec := T1_spec; policy := no_policy; state := pending |}.

Definition world_with_truncated_file : World :=
  write_file world_with_T1 (QUEUE_DIR, "T9.json") (Torn (DTask T9) 28).

(** A queue with one good task file, a file that holds [null] and a file
    that holds [{}]. *)
Definition world_with_null_file : World :=
  write_file
    (write_file world_with_T1 (QUEUE_DIR, "T7.json") (Text (DOther JNull)))
    (QUEUE_DIR, "T8.json") (Text (DOther JObject)).

(** ** Scheduler *)

(** The task as the zombie sweep leaves it in memory, when the sweep reads
    the clock at [now]. *)
Definition recovered (now : Z) (t : Task) : Task :=
  with_state t
    (with_history (default [] (state_history (state t)) ++ [SYSTEM_RECOVERY now])
       (mark "FAILED" "Timeout de Recuperação (Zumbi)" (state t))).

(** What the schema refuses outside the [state] block. *)
Definition outer_issues (t : Task) : list string :=
  MetaSchema_issues (meta t) ++ SpecSchema_issues (spec t)
  ++ PolicySchema_issues (policy t).

(** The record written by [tests/helpers.js] ([writeTask]) for
    [tests/test_running_recovery.js]: RUNNING since two hours. *)
Definition zombie_fixture : Task :=
  {| meta := {| meta_id := "test-zombie-v3";
                meta_created_at := Iso 1699999990000;
                meta_priority := 5;
                meta_source := "test_suite" |};
     spec := {| spec_target := "chatgpt"; payload_user_message := "Zombie task" |};
     policy := {| policy_max_attempts := 3; policy_dependencies := [];
                  policy_execute_after := None |};
     state := {| state_status := "RUNNING"; state_attempts := Some 0;
                 state_started_at := Some (Iso (1700000000000 - 7200000));
                 state_last_error := None; state_history := Some [] |} |}.

Definition world_with_zombie : World :=
  write_file idle_world (task_file zombie_fixture) (Text (DTask zombie_fixture)).

(** The record written by [scripts/gerador_tarefa.js] ([createTask]). *)
Definition cli_task : Task :=
  {| meta := {| meta_id := "TASK-CLI-1699999990000-a1b2c3";
                meta_created_at := Iso 1699999990000;
                meta_priority := 5;
                meta_source := "cli" |};
     spec := {| spec_target := "chatgpt";
                payload_user_message := "Explain the release notes" |};
     policy := {| policy_max_attempts := 3; policy_dependencies := [];
                  policy_execute_after := None |};
     state := {| state_status := "PENDING"; state_attempts := Some 0;
                 state_started_at := None; state_last_error := None;
                 state_history := Some [] |} |}.

Definition world_with_cli_task : World :=
  write_file idle_world (task_file cli_task) (Text (DTask cli_task)).

(** The state of a dependency id, looked up in the queue the way the
    filter does (the first task with that id). *)
Definition dep_missing (allTasks : list doc) (depId : string) : Prop :=
  find_task allTasks depId = Ok None.

Definition dep_status (allTasks : list doc) (depId status : string) : Prop :=
  ∃ parent, find_task allTasks depId = Ok (Some parent)
            ∧ state_status (state parent) = status.

Definition dep_failed (allTasks : list doc) (depId : string) : Prop :=
  dep_status allTasks depId "FAILED" ∨ dep_status allTasks depId "SKIPPED".

Definition dep_done (allTasks : list doc) (depId : string) : Prop :=
  dep_status allTasks depId "DONE".

(** There is a task, and it has not failed: it is DONE or may become so. *)
Definition dep_alive (allTasks : list doc) (depId : string) : Prop :=
  ∃ parent, find_task allTasks depId = Ok (Some parent)
            ∧ state_status (state parent) ≠ "FAILED"
            ∧ state_status (state parent) ≠ "SKIPPED".

(** There is a task, and it is neither DONE nor FAILED nor SKIPPED. *)
Definition dep_unfinished (allTasks : list doc) (depId : string) : Prop :=
  ∃ parent, find_task allTasks depId = Ok (Some parent)
            ∧ state_status (state parent) ≠ "FAILED"
            ∧ state_status (state parent) ≠ "SKIPPED"
            ∧ state_status (state parent) ≠ "DONE".

(** The claim as the specification words it, for the callback of the
    filter on a PENDING task with dependencies: each clause is read for
    "some dependency", whatever the other dependencies are.  It is read
    here in the most favourable setting: a record the schema accepts, no
    fault pending, the not-before time passed. *)
Definition dependency_rule_as_stated : Prop :=
  ∀ (pr : Proc) (pre rest : list doc) (t : Task) (w : World),
    let allTasks := pre ++ DTask t :: rest in
    let deps := policy_dependencies (policy t) in
    faults w = [] →
    TaskSchema_issues t = [] →
    state_status (state t) = "PENDING" →
    time_locked (clock w) t = false →
    deps ≠ [] →
    ∀ r d' pr' w',
      eligible_one pr pre (DTask t) rest w = (r, d', pr', w') →
      ((∃ dep, dep ∈ deps ∧ dep_missing allTasks dep) →
       r = Ok false ∧ d' = DTask t)
      ∧ ((∃ dep, dep ∈ deps ∧ dep_failed allTasks dep) →
         r = Ok false ∧ d' = DTask (skip t)
         ∧ ∃ v, read_file w' (task_file t) = Some (Text (DTask v))
                ∧ state_status (state v) = "SKIPPED")
      ∧ ((∃ dep, dep ∈ deps ∧ dep_unfinished allTasks dep) → r = Ok false)
      ∧ (r = Ok true → Forall (dep_done allTasks) deps).

(** What the filter may do to an element of the queue: nothing, or mark a
    PENDING task SKIPPED. *)
Definition skipped_or_same (d d' : doc) : Prop :=
  d' = d ∨ ∃ t, d = DTask t ∧ state_status (state t) = "PENDING"
                ∧ d' = DTask (skip t).

(** T0 has failed; T2 waits for a task that is not in the queue and for T0. *)
Definition T0_failed : Task :=
  {| meta := {| meta_id := "T0"; meta_created_at := Iso 1699999000000;
                meta_priority := 5; meta_source := "manual" |};
     spec := T1_spec; policy := no_policy;
     state := {| state_status := "FAILED"; state_attempts := Some 1;
                 state_started_at := Some (Iso 1699999100000);
                 state_last_error := Some "STALL_DETECTED: UNKNOWN";
                 state_history := Some [] |} |}.

Definition T2_waiting : Task :=
  {| meta := {| meta_id := "T2"; meta_created_at := Iso 1699999200000;
                meta_priority := 5; meta_source := "manual" |};
     spec := T1_spec;
     policy := {| policy_max_attempts := 3;
                  policy_dependencies := ["T-not-created-yet"; "T0"];
                  policy_execute_after := None |};
     state := pending |}.

(** T3 depends on T0 only. *)
Definition T3_dependent : Task :=
  {| meta := {| meta_id := "T3"; meta_created_at := Iso 1699999300000;
                meta_priority := 5; meta_source := "manual" |};
     spec := T1_spec;
     policy := {| policy_max_attempts := 3;
                  policy_dependencies := ["T0"];
                  policy_execute_after := None |};
     state := pending |}.

(** ** Completion protocol *)

(** A page on which nothing happens: no blocker, no spinner, no network,
    a responsive event loop, no assistant message, no DOM mutation; the
    driver's clock moves on by a second per poll. *)
Definition frozen_page (k : nat) : Snapshot :=
  {| challenge := false; password_visible := false; limit_text := false;
     error_text := false; error_colour := false; retry_without_stop := false;
     spinner := false; network := false; lag := 3;
     assistant := []; mutated := None;
     date_now := 1700000000000 + 1000 * Z.of_nat k |}.

(** The watchdog timestamp as [tests/test_stall_mitigation.js] sets it:
    five minutes before the first poll. *)
Definition frozen_since : option Z := Some (1700000000000 - 300000).

(** A configuration that sets what [DEFAULTS] leaves out. *)
Definition configured : Config :=
  {| IDLE_SLEEP := 3000; RUNNING_RECOVERY_MS := 40 * 60 * 1000;
     MAX_CONTINUATIONS := 25; STABLE_CYCLES := Some 3;
     STABILITY_INTERVAL := Some 2000 |}.

(** A driver object to which a [_detectLanguage] method has been added
    from outside, as a test harness can do. *)
Definition patched_driver (config : Config) : Driver :=
  {| driver_config := config; _detectLanguage := Some (λ _, "en") |}.

(** ** Connection orchestrator *)

Module OrchestratorSpec.
Import Orchestrator.

(** The timed waits as the code takes them, by the place of the wait. *)
Definition nap_as_coded (opts : Options) (n : Nap) : Prop :=
  match nap_pause n with
  | BrowserRetry => nap_ms n = retryDelay opts (nap_retry n)
  | PageScan => nap_ms n = inject_Z (pageScanIntervalMs opts)
  | PageScanError | RecoveryCycle => nap_ms n = 1000%Q
  end.

(** [o'] comes after [o]: the options are the same, and the waits taken in
    between are as coded. *)
Definition follows (o o' : Orch) : Prop :=
  config o' = config o
  ∧ ∃ new, slept o' = slept o ++ new ∧ Forall (nap_as_coded (config o)) new.

(** Steps that take no timed wait. *)
Definition quiet (o o' : Orch) : Prop :=
  config o' = config o ∧ slept o' = slept o.




(** Chrome listens on port 9222 and stays connected; the ChatGPT tab is
    opened only after the orchestrator has scanned twice. *)
Definition chatgpt_tab : Page := 7%nat.


(** Chrome is up from the third connection attempt on. *)
Definition chrome_started_late (k : nat) : Chrome :=
  {| browserURL := λ port,
       if bool_decide (6 ≤ k)%nat && (port =? 9222) then Some 1%nat else None;
     webSocketDebuggerUrl := λ _, None;
     isConnected := λ _, true;
     pages := λ _, Ok [chatgpt_tab];
     isClosed := λ _, false;
     url := λ _, "https://chatgpt.com/";
     events := [] |}.

(** No browser event is raised during the run. *)
Definition uneventful (env : nat → Chrome) : Prop :=
  ∀ k, events (env k) = [].

(** Chrome is up with the ChatGPT tab open, and quits while the tab is
    being brought to the front (the third awaited call: connection, scan,
    [bringToFront]). *)
Definition chrome_quits_late (k : nat) : Chrome :=
  {| browserURL := λ port, if port =? 9222 then Some 1%nat else None;
     webSocketDebuggerUrl := λ _, None;
     isConnected := λ _, bool_decide (k < 3)%nat;
     pages := λ _, Ok [chatgpt_tab];
     isClosed := λ _, false;
     url := λ _, "https://chatgpt.com/";
     events := if bool_decide (k = 2)%nat then [Disconnected] else [] |}.

End OrchestratorSpec.


(** * More of the code *)

(** ** src/infra/io.js: sanitizeFilename, deleteTask *)

Definition underscore : Ascii.ascii := Ascii.ascii_of_N 95.

Fixpoint map_chars (f : Ascii.ascii → Ascii.ascii) (s : string) : string :=
  match s with
  | EmptyString => EmptyString
  | String c r => String (f c) (map_chars f r)
  end.

(** [name.replace(/[^a-zA-Z0-9._-]/g, '_').slice(0, 50)]; a missing name
    is the empty one. *)
Definition sanitizeFilename (name : string) : string :=
  if String.eqb name "" then "unknown"
  else String.substring 0 50
         (map_chars (λ c, if id_char c then c else underscore) name).

(** [deleteTask(id)].  The [unlinkSync] is a guarded call; when it fails
    the error is logged and the cache is not invalidated. *)
Definition deleteTask (pr : Proc) (id : string) (w : World) : Proc * World :=
  let filepath := (QUEUE_DIR, id +:+ ".json") in
  match read_file w filepath with
  | None => (pr, w)
  | Some _ =>
      let '(f, w1) := pop_fault w in
      match f with
      | None => (setCacheDirty pr, remove_file w1 filepath)
      | Some _ => (pr, w1)
      end
  end.

(** ** index.js: sanitizePrompt and the start of an execution *)

(** [/[\x00-\x08\x0B\x0C\x0E-\x1F]/] *)
Definition is_control_index (c : Ascii.ascii) : bool :=
  let n := Ascii.N_of_ascii c in
  ((n <=? 8) || (n =? 11) || (n =? 12) || ((14 <=? n) && (n <=? 31)))%N%bool.

(** [sanitizePrompt(text)]; [None] is a value that is not a string. *)
Definition sanitizePrompt (text : option string) : string :=
  match text with
  | None => ""
  | Some t =>
      if String.eqb t "" then ""
      else trim (filter_chars (λ c, negb (is_control_index c)) t)
  end.

(** [task.state.status = 'RUNNING'; task.state.started_at = new
    Date().toISOString(); task.state.attempts++] *)
Definition running (now : Z) (s : State) : State :=
  {| state_status := "RUNNING";
     state_attempts := (λ n, n + 1) <$> state_attempts s;
     state_started_at := Some (toISOString now);
     state_last_error := state_last_error s;
     state_history := state_history s |}.

Inductive start :=
  | LockBusy                       (* sleep 2000, continue *)
  | Started (task : Task)          (* goes on to the driver *)
  | StartCollapsed (message : string)   (* caught by the outer handler *)
  | StartUnsettled.                (* [acquireLock] needs more retries *)

(** Step 6 of the main loop and the lines up to the [try] of the
    execution: the lock, then the record saved as RUNNING.  When the lock
    is refused, [io.acquireLock.lockData] is read; [acquireLock] is a
    function with no such property, so [currentLock] is undefined and the
    branch that releases the lock is never taken. *)
Definition startTask {runtime : Runtime}
    (retries : nat) (pr : Proc) (task : Task) (w : World)
  : start * Proc * World :=
  match acquireLock retries (pid pr) (meta_id (meta task))
          (spec_target (spec task)) w with
  | None => (StartUnsettled, pr, w)
  | Some (false, w1) =>
      let '(_, pr1, w2) := getQueue false pr w1 in
      (LockBusy, pr1, sleep 2000 w2)
  | Some (true, w1) =>
      let task' := with_state task (running (clock w1) (state task)) in
      match saveTask pr task' w1 with
      | (Ok _, pr1, w2) => (Started task', pr1, w2)
      | (Throw m, pr1, w2) => (StartCollapsed m, pr1, sleep 10000 w2)
      end
  end.

(** ** Vocabulary of the further properties *)

(** The text has no white space at its start. *)
Definition starts_clean (s : string) : Prop :=
  match s with
  | EmptyString => True
  | String c _ => is_space c = false
  end.

(** What the schema does to the prompt of a record it accepts. *)
Definition sanitized (m : string) : string :=
  filter_chars (λ c, negb (is_control c)) (trim m).

(** A task whose prompt is one blank. *)
Definition blank_prompt_task : Task :=
  {| meta := T1_meta;
     spec := {| spec_target := "chatgpt"; payload_user_message := " " |};
     policy := no_policy; state := pending |}.

(** A task whose prompt is a blank, the control character U+0001, a
    blank and the letter a. *)
Definition control_prompt_task : Task :=
  {| meta := T1_meta;
     spec := {| spec_target := "chatgpt";
                payload_user_message :=
                  " " +:+ String (Ascii.ascii_of_N 1) " a" |};
     policy := no_policy; state := pending |}.

(** The world [w] when the next guarded calls have the outcomes [fs]. *)
Definition with_faults (fs : list (option errno)) (w : World) : World :=
  {| queue := queue w; corrupted := corrupted w; root := root w;
     procs := procs w; clock := clock w; faults := fs;
     entropy := entropy w |}.

(** The next guarded call succeeds. *)
Definition succeeds_next (fs : list (option errno)) : Prop :=
  fs = [] ∨ ∃ rest, fs = None :: rest.

(** The waits of [k] renames refused in a row: 100, 200, ..., 100 k. *)
Definition rename_backoff (k : nat) : Z := 50 * Z.of_nat k * (Z.of_nat k + 1).

(** ** Scheduler vocabulary *)

(** The task could run now: it is PENDING, its not-before time is unset or
    has passed, and each of its dependencies is in the queue with status
    DONE. *)
Definition eligible_now (allTasks : list doc) (now : Z) (u : Task) : Prop :=
  state_status (state u) = "PENDING"
  ∧ time_locked now u = false
  ∧ Forall (dep_done allTasks) (policy_dependencies (policy u)).

(** T9 has the priority of T1 and was created after it; its file comes
    before the file of T1 in the scan. *)
Definition world_with_two_tasks : World :=
  write_file world_with_T1 (task_file T9) (Text (DTask T9)).

(** ** Completion protocol vocabulary *)

(** One of the three diagnoses on which [waitForCompletion] throws at
    once. *)
Definition blocker (s : Snapshot) : bool :=
  String.eqb (diagnoseStall s) "LIMIT_REACHED"
  || String.eqb (diagnoseStall s) "CAPTCHA"
  || String.eqb (diagnoseStall s) "LOGIN_REQUIRED".

(** The text of the answer on a snapshot: the assistant messages after the
    first [start] ones. *)
Definition answer (start : nat) (s : Snapshot) : string :=
  trim (String.concat blank_line (drop start (assistant s))).

(** A page that shows one finished answer and does not change. *)
Definition answered_page (k : nat) : Snapshot :=
  {| challenge := false; password_visible := false; limit_text := false;
     error_text := false; error_colour := false; retry_without_stop := false;
     spinner := false; network := false; lag := 3;
     assistant := ["The report has three parts."]; mutated := None;
     date_now := 1700000000000 + 2000 * Z.of_nat k |}.

(** ** Orchestrator vocabulary *)

Module OrchestratorInv.
Import Orchestrator OrchestratorSpec.

(** The page held, if any, went through the filter of the scan at an
    instant that has passed. *)
Definition page_admitted (env : nat → Chrome) (o : Orch) : Prop :=
  ∀ p, page o = Some p →
    ∃ k, (k < tick o)%nat ∧ candidate (config o) (env k) p = true.

Definition history_bounded (o : Orch) : Prop :=
  (length (stateHistory o) ≤ stateHistorySize (config o))%nat.

Definition sound (env : nat → Chrome) (o : Orch) : Prop :=
  page_admitted env o ∧ history_bounded o.

(** Chrome is up with one tab, which is on ChatGPT during the first three
    awaited calls and on another site from then on. *)
Definition tab_navigates (k : nat) : Chrome :=
  {| browserURL := λ port, if port =? 9222 then Some 1%nat else None;
     webSocketDebuggerUrl := λ _, None;
     isConnected := λ _, true;
     pages := λ _, Ok [chatgpt_tab];
     isClosed := λ _, false;
     url := λ _, if bool_decide (k < 3)%nat then "https://chatgpt.com/"
                 else "https://example.org/";
     events := [] |}.

(** The orchestrator after a first and after a second [acquireContext]
    against that browser. *)
Definition after_first_call : Orch :=
  match acquireContext tab_navigates 10 (create DEFAULTS) with
  | Done _ o => o
  | _ => create DEFAULTS
  end.

Definition after_second_call : Orch :=
  match acquireContext tab_navigates 10 after_first_call with
  | Done _ o => o
  | _ => after_first_call
  end.

End OrchestratorInv.

(** ** src/core/memory.js: extractJsonByStack *)

Module Memory.

Definition open_brace : Ascii.ascii := Ascii.ascii_of_N 123.
Definition close_brace : Ascii.ascii := Ascii.ascii_of_N 125.

(** The [for] of [extractJsonByStack] from the index [i] on; [rest] is
    what is left of [content] there.  [depth] is a number and can go
    below zero; [start] is -1 until a brace opens at depth zero. *)
Fixpoint extract_loop (content rest : string) (i : nat) (depth start : Z)
  : string :=
  match rest with
  | EmptyString => "{}"
  | String c rest' =>
      if Ascii.eqb c open_brace then
        extract_loop content rest' (S i) (depth + 1)
          (if depth =? 0 then Z.of_nat i else start)
      else if Ascii.eqb c close_brace then
        let depth' := depth - 1 in
        if (depth' =? 0) && negb (start =? -1)
        then (* content.slice(start, i + 1) *)
          String.substring (Z.to_nat start) (S i - Z.to_nat start) content
        else extract_loop content rest' (S i) depth' start
      else extract_loop content rest' (S i) depth start
  end.

Definition extractJsonByStack (content : string) : string :=
  extract_loop content content 0 0 (-1).

(** Read with [d] braces open, the text closes the last of them with its
    last character, and not before. *)
Fixpoint closes (d : nat) (s : string) : bool :=
  match s with
  | EmptyString => false
  | String c r =>
      if Ascii.eqb c open_brace then closes (S d) r
      else if Ascii.eqb c close_brace then
        match d with
        | O => false
        | S O => String.eqb r ""
        | S d' => closes d' r
        end
      else closes d r
  end.

(** A block: an opening brace and the text up to the brace that closes
    it. *)
Definition block (s : string) : bool :=
  match s with
  | EmptyString => false
  | String c r => Ascii.eqb c open_brace && closes 1 r
  end.

Definition no_brace (s : string) : bool :=
  all_chars (λ c, negb (Ascii.eqb c open_brace) && negb (Ascii.eqb c close_brace)) s.

(** The text is the default answer or a part of the content. *)
Definition part_of (content r : string) : Prop :=
  r = "{}" ∨ ∃ pre post, content = pre +:+ r +:+ post.

End Memory.

(** ** src/logic/validator.js *)

Module Validator.

(** [task.spec.validation]; a rule the record does not have is [None]. *)
Record Rules := {
  min_length : option Z;
  forbidden_terms : option (list string);
  required_pattern : option string
}.

Record Verdict := {
  ok : bool;
  reason : option string
}.

(** A value met by the spread of an array literal. *)
Inductive spreadable :=
  | Arr (l : list string)
  | Prom (p : promise (list string)).

(** [[...v]]: an array gives its elements; a promise is not iterable and
    the spread throws a TypeError. *)
Definition spread (name : string) (v : spreadable) : result (list string) :=
  match v with
  | Arr l => Ok l
  | Prom _ => Throw (name +:+ " is not iterable")
  end.

(** [[...new Set(l)]]: the first occurrences, in order. *)
Fixpoint unique (seen l : list string) : list string :=
  match l with
  | [] => []
  | x :: r =>
      if existsb (String.eqb x) seen then unique seen r
      else x :: unique (x :: seen) r
  end.

Definition dquote : string := String (Ascii.ascii_of_N 34) "".

Definition reject (r : string) : Verdict := {| ok := false; reason := Some r |}.

(** The outer [catch]. *)
Definition crash (message : string) : Verdict :=
  reject ("VALIDATOR_CRASH: " +:+ message).

Section Checks.
Context {runtime : Runtime}.

(** The inner [for]: it stops at the first term the line contains. *)
Definition hit (allForbidden : list string) (line : string) : option string :=
  List.find (λ term, includes (toLowerCase line) (toLowerCase term)) allForbidden.

(** The [for await] over the lines.  [if (foundTerm) break] tests the
    term for truthiness, so a hit on the empty term does not stop the
    scan. *)
Fixpoint scan (accumulate : bool) (allForbidden : list string)
    (lines : list string) (fullContentForJson : string)
  : option string * string :=
  match lines with
  | [] => (None, fullContentForJson)
  | line :: more =>
      let go_on :=
        scan accumulate allForbidden more
          (if accumulate then fullContentForJson +:+ line
           else fullContentForJson) in
      match hit allForbidden line with
      | Some term =>
          if String.eqb term "" then go_on else (Some term, fullContentForJson)
      | None => go_on
      end
  end.

(** The file system and the library functions, as the function meets
    them. *)
Variable existsSync : string → bool.
Variable statSync : string → result Z.          (* [stats.size] *)
Variable getTerms : string → string → promise (list string).
                                                (* [i18n.getTerms], [async] *)
Variable readLines : string → result (list string).
                                                (* the lines of the stream *)
Variable readFileSync : string → result string.
Variable json_match : string → option string.   (* [.match(/\{[\s\S]*\}/)] *)
Variable JSON_parse : string → result unit.
Variable regex_test : string → string → result bool.
                              (* [new RegExp(pattern, 'i').test(content)] *)

(** Step 4; [None] when the format is accepted. *)
Definition check_format (json : bool) (size : Z) (fullContentForJson : string)
  : option Verdict :=
  if json then
    if size >? 2 * 1024 * 1024
    then Some (reject "FORMAT_ERROR: JSON excede limite de segurança de 2MB.")
    else
      match json_match fullContentForJson with
      | None =>
          Some (reject ("FORMAT_ERROR: Integridade JSON violada. "
                        +:+ "Estrutura JSON não localizada."))
      | Some jsonMatch =>
          match JSON_parse jsonMatch with
          | Throw m =>
              Some (reject ("FORMAT_ERROR: Integridade JSON violada. " +:+ m))
          | Ok _ => None
          end
      end
  else None.

(** Step 5 and the final answer. *)
Definition check_pattern (rules : Rules) (size : Z) (filePath : string)
  : Verdict :=
  match required_pattern rules with
  | Some pattern =>
      if negb (String.eqb pattern "") && (size <? 1024 * 1024) then
        match readFileSync filePath with
        | Throw m => crash m
        | Ok content =>
            match regex_test pattern content with
            | Throw m => crash m
            | Ok true => {| ok := true; reason := None |}
            | Ok false =>
                reject "PATTERN_MISMATCH: O conteúdo não atende ao padrão exigido."
            end
        end
      else {| ok := true; reason := None |}
  | None => {| ok := true; reason := None |}
  end.

(** [validateTaskResult(task, filePath)]; of the task the function reads
    [spec.validation] and [spec.config.output_format]. *)
Definition validateTaskResult (rules : Rules) (output_format : option string)
    (filePath : string) : Verdict :=
  if negb (existsSync filePath)
  then reject "FILE_NOT_FOUND: O arquivo de resposta não foi gerado."
  else
    match statSync filePath with
    | Throw m => crash m
    | Ok size =>
        let minLen :=
          match min_length rules with
          | Some n => if n =? 0 then 10 else n
          | None => 10
          end in
        if size <? minLen
        then reject ("TOO_SHORT: Conteúdo insuficiente (" +:+ pretty size
                     +:+ " bytes).")
        else
          let systemErrorTerms := Prom (getTerms "error_indicators" "pt") in
          let userForbiddenTerms := default [] (forbidden_terms rules) in
          match spread "systemErrorTerms" systemErrorTerms with
          | Throw m => crash m
          | Ok terms =>
              let allForbidden := unique [] (terms ++ userForbiddenTerms) in
              match readLines filePath with
              | Throw m => crash m
              | Ok lines =>
                  let json := bool_decide (output_format = Some "json") in
                  let '(foundTerm, fullContentForJson) :=
                    scan (json && (size <? 2 * 1024 * 1024)) allForbidden
                      lines "" in
                  match foundTerm with
                  | Some term =>
                      reject ("FORBIDDEN_CONTENT: Detectada recusa ou erro da IA: "
                              +:+ dquote +:+ term +:+ dquote)
                  | None =>
                      match check_format json size fullContentForJson with
                      | Some v => v
                      | None => check_pattern rules size filePath
                      end
                  end
              end
          end
    end.

End Checks.

End Validator.
(** * Properties *)

#[local] Set Warnings "-clear-no-such-hyp".

(** ** Strings *)

Lemma String_app_cons (x : Ascii.ascii) (a b : string) :
  String x a +:+ b = String x (a +:+ b).
Proof. reflexivity. Qed.

Lemma String_length_app (a b : string) :
  String.length (a +:+ b) = (String.length a + String.length b)%nat.
Proof. induction a as [|c a IH]; simpl; [done|]. by rewrite IH. Qed.

Lemma lower_ascii_idem (c : Ascii.ascii) :
  lower_ascii (lower_ascii c) = lower_ascii c.
Proof. destruct c as [[] [] [] [] [] [] [] []]; reflexivity. Qed.

Lemma ascii_lower_idem (s : string) :
  ascii_lower (ascii_lower s) = ascii_lower s.
Proof.
  induction s as [|c s IH]; simpl; [reflexivity|].
  by rewrite lower_ascii_idem, IH.
Qed.

Lemma is_ascii_lower (s : string) :
  is_ascii s = true → is_ascii (ascii_lower s) = true.
Proof.
  induction s as [|c s IH]; cbn [is_ascii ascii_lower]; [done|].
  intros [Hc Hs]%andb_true_iff. rewrite (IH Hs), andb_true_r.
  revert Hc. destruct c as [[] [] [] [] [] [] [] []]; by vm_compute.
Qed.

Lemma String_app_inj_r (a b s : string) : a +:+ s = b +:+ s → a = b.
Proof.
  revert b. induction a as [|c a IH]; intros [|c' b] H.
  - done.
  - apply (f_equal String.length) in H.
    rewrite !String_length_app in H. simpl in H. lia.
  - apply (f_equal String.length) in H.
    rewrite !String_length_app in H. simpl in H. lia.
  - inversion H; subst. f_equal. by apply IH.
Qed.

(** ** Files *)

Lemma read_write_eq (w : World) (p : path) (c : content) :
  read_file (write_file w p c) p = Some c.
Proof.
  destruct p as [[] n]; unfold read_file, write_file; simpl;
    apply lookup_insert_eq.
Qed.

Lemma read_write_ne (w : World) (p q : path) (c : content) :
  p ≠ q → read_file (write_file w p c) q = read_file w q.
Proof.
  destruct p as [d n], q as [d' n']; intros Hne.
  unfold read_file, write_file; simpl.
  destruct d, d'; simpl; try reflexivity;
    apply lookup_insert_ne; congruence.
Qed.

Lemma read_remove_eq (w : World) (p : path) :
  read_file (remove_file w p) p = None.
Proof.
  destruct p as [[] n]; unfold read_file, remove_file; simpl;
    apply lookup_delete_eq.
Qed.

Lemma read_remove_ne (w : World) (p q : path) :
  p ≠ q → read_file (remove_file w p) q = read_file w q.
Proof.
  destruct p as [d n], q as [d' n']; intros Hne.
  unfold read_file, remove_file; simpl.
  destruct d, d'; simpl; try reflexivity;
    apply lookup_delete_ne; congruence.
Qed.

Lemma pop_fault_none (w : World) :
  faults w = [] → pop_fault w = (None, w).
Proof. intros H. unfold pop_fault. by rewrite H. Qed.

Lemma write_file_frame (w : World) (p : path) (c : content) :
  procs (write_file w p c) = procs w ∧ clock (write_file w p c) = clock w
  ∧ faults (write_file w p c) = faults w
  ∧ entropy (write_file w p c) = entropy w.
Proof. by destruct p as [[] n]. Qed.

Lemma remove_file_frame (w : World) (p : path) :
  procs (remove_file w p) = procs w ∧ clock (remove_file w p) = clock w
  ∧ faults (remove_file w p) = faults w
  ∧ entropy (remove_file w p) = entropy w.
Proof. by destruct p as [[] n]. Qed.

Lemma rename_file_frame (w : World) (a b : path) :
  procs (rename_file w a b) = procs w ∧ clock (rename_file w a b) = clock w
  ∧ faults (rename_file w a b) = faults w
  ∧ entropy (rename_file w a b) = entropy w.
Proof.
  unfold rename_file. destruct (read_file w a); [|done].
  destruct (write_file_frame (remove_file w a) b c) as (-> & -> & -> & ->).
  apply remove_file_frame.
Qed.

(** Reading a complete file when no fault is pending gives its document
    and changes nothing. *)
Lemma safeReadJSON_text (w : World) (p : path) (d : doc) :
  faults w = [] → read_file w p = Some (Text d) →
  safeReadJSON p w = (Some d, w).
Proof.
  intros Hf Hr. unfold safeReadJSON. rewrite Hr. simpl.
  rewrite (pop_fault_none w Hf). by rewrite Hr.
Qed.

(** Whatever the faults, reading a complete file never moves it, and
    answers its document or nothing. *)
Lemma safeReadJSON_loop_text (n : nat) (w : World) (p : path) (d : doc) :
  read_file w p = Some (Text d) →
  ∃ w', (safeReadJSON_loop n p w = (Some d, w') ∨ safeReadJSON_loop n p w = (None, w'))
        ∧ read_file w' p = Some (Text d) ∧ procs w' = procs w.
Proof.
  revert w. induction n as [|n IH]; intros w Hr; simpl.
  - exists w. auto.
  - unfold pop_fault. destruct (faults w) as [|f rest] eqn:Hf.
    + rewrite Hr. exists w. auto.
    + destruct f as [e|].
      * destruct (transient e).
        -- match goal with |- context [safeReadJSON_loop n p ?w1] =>
             destruct (IH w1) as (w' & Hres & Hr' & Hp') end.
           { destruct p as [[] nm]; exact Hr. }
           exists w'. auto.
        -- eexists. split; [right; reflexivity|]. split; [|done].
           destruct p as [[] nm]; exact Hr.
      * match goal with |- context [read_file ?w1 p] =>
          assert (read_file w1 p = Some (Text d)) as Hr1
            by (destruct p as [[] nm]; exact Hr) end.
        rewrite Hr1. eexists. split; [left; reflexivity|]. split; done.
Qed.

(** ** The lock manager *)

Section Locks.
Context {runtime : Runtime}.

(** The lock file is named by the lower-case form of the target, and by
    nothing else of it. *)
Lemma lockFile_name (t : string) :
  lockFile t = (ROOT, "RUNNING_" +:+ toLowerCase t +:+ ".lock").
Proof. reflexivity. Qed.

Lemma lockFile_same_case (t t' : string) :
  toLowerCase t = toLowerCase t' → lockFile t = lockFile t'.
Proof. unfold lockFile. by intros ->. Qed.

(** [acquireLock] and [tryLock] look at the target through [lockFile] only. *)
Lemma tryLock_same_case (t t' : string) (self : Z) (taskId : string) (w : World) :
  toLowerCase t = toLowerCase t' →
  tryLock self taskId t w = tryLock self taskId t' w.
Proof. intros H. unfold tryLock. by rewrite (lockFile_same_case t t' H). Qed.

Lemma acquireLock_same_case (t t' : string) (retries : nat) (self : Z)
    (taskId : string) (w : World) :
  toLowerCase t = toLowerCase t' →
  acquireLock retries self taskId t w = acquireLock retries self taskId t' w.
Proof.
  intros H. revert w. induction retries as [|n IH]; intros w;
    cbn [acquireLock];
    rewrite (tryLock_same_case t t' self taskId w H);
    destruct (tryLock self taskId t' w) as [[|s] w1]; try reflexivity;
    destruct (orphan s w1); try reflexivity.
  rewrite (lockFile_same_case t t' H). apply IH.
Qed.

(** The lock is free: the exclusive create succeeds. *)
Lemma acquireLock_free (retries : nat) (self : Z) (taskId t : string) (w : World) :
  read_file w (lockFile t) = None →
  acquireLock retries self taskId t w
  = Some (true, write_file w (lockFile t) (Text (DLock (lockData self taskId w)))).
Proof.
  intros H. destruct retries; simpl; unfold tryLock; by rewrite H.
Qed.

(** A live owner holds the lock: the answer is [false] and nothing changes. *)
Lemma acquireLock_live_owner (retries : nat) (self : Z) (taskId t : string)
    (w : World) (d : doc) :
  faults w = [] →
  read_file w (lockFile t) = Some (Text d) →
  isProcessAlive (doc_pid d) w = true →
  acquireLock retries self taskId t w = Some (false, w).
Proof.
  intros Hf Hr Ha.
  destruct retries; simpl; unfold tryLock; rewrite Hr;
    rewrite (safeReadJSON_text w _ d Hf Hr); simpl;
    by rewrite Ha, andb_false_r.
Qed.

(** The recorded owner is gone: the file is removed, and the one retry
    creates the lock for the caller.  Without a retry the call would not
    have answered. *)
Lemma acquireLock_orphan (retries : nat) (self : Z) (taskId t : string)
    (w : World) (d : doc) :
  faults w = [] →
  read_file w (lockFile t) = Some (Text d) →
  Boolean d = true →
  isProcessAlive (doc_pid d) w = false →
  acquireLock (S retries) self taskId t w
  = Some (true, write_file (remove_file w (lockFile t)) (lockFile t)
                  (Text (DLock (lockData self taskId w))))
  ∧ acquireLock 0 self taskId t w = None.
Proof.
  intros Hf Hr Hb Ha. split.
  - simpl. unfold tryLock at 1. rewrite Hr.
    rewrite (safeReadJSON_text w _ d Hf Hr). simpl. rewrite Hb, Ha. simpl.
    rewrite acquireLock_free by apply read_remove_eq.
    reflexivity.
  - simpl. unfold tryLock. rewrite Hr.
    rewrite (safeReadJSON_text w _ d Hf Hr). simpl. by rewrite Hb, Ha.
Qed.

(** What a read leaves behind: the process table is as before, a document
    that is answered is the one in the file, and the file is as before or,
    when it did not parse, gone. *)
Lemma quarantine_removes (p : path) (w : World) (c : content) :
  p.1 ≠ CORRUPT_DIR → read_file w p = Some c →
  read_file (quarantine p w) p = None
  ∧ read_file (quarantine p w) (badFile p.2 (clock w)) = Some c.
Proof.
  intros Hp Hr. unfold quarantine, rename_file. rewrite Hr.
  rewrite read_write_eq. split; [|done].
  rewrite read_write_ne, read_remove_eq; [done|].
  unfold badFile. destruct p as [d nm]. simpl in *. congruence.
Qed.

Lemma safeReadJSON_loop_effect (n : nat) (p : path) (w : World) :
  p.1 ≠ CORRUPT_DIR →
  ∀ s w', safeReadJSON_loop n p w = (s, w') →
    procs w' = procs w
    ∧ (∀ d, s = Some d → read_file w p = Some (Text d))
    ∧ (read_file w' p = read_file w p
       ∨ (read_file w' p = None ∧ s = None
          ∧ ∀ d, read_file w p ≠ Some (Text d))).
Proof.
  intros Hp. revert w. induction n as [|n IH]; intros w s w' H; simpl in H.
  - inversion H; subst. split; [done|]. split; [done|auto].
  - destruct (pop_fault w) as [f w1] eqn:Hpop.
    assert (read_file w1 p = read_file w p ∧ procs w1 = procs w) as [Hr1 Hp1].
    { unfold pop_fault in Hpop. destruct (faults w); inversion Hpop; by subst. }
    destruct f as [e|].
    + destruct (transient e).
      * apply IH in H. destruct H as (H1 & H2 & H3).
        change (read_file (sleep 200 w1) p) with (read_file w1 p) in *.
        change (procs (sleep 200 w1)) with (procs w1) in *.
        rewrite Hr1 in *. rewrite Hp1 in *. auto.
      * inversion H; subst. split; [done|]. split; [done|]. by left.
    + destruct (read_file w1 p) as [[d|d k|j]|] eqn:Hr; inversion H; subst.
      * split; [done|]. split; [intros ? [= ->]; congruence|]. left. congruence.
      * destruct (quarantine_removes p w1 _ Hp Hr) as [Hq _].
        split; [by rewrite <- Hp1; apply rename_file_frame|].
        split; [done|]. right. rewrite Hq. rewrite <- Hr1.
        split; [done|]. split; [done|]. congruence.
      * destruct (quarantine_removes p w1 _ Hp Hr) as [Hq _].
        split; [by rewrite <- Hp1; apply rename_file_frame|].
        split; [done|]. right. rewrite Hq. rewrite <- Hr1.
        split; [done|]. split; [done|]. congruence.
      * split; [done|]. split; [done|]. left. congruence.
Qed.

Lemma isProcessAlive_procs (x : option Z) (w w' : World) :
  procs w' = procs w → isProcessAlive x w' = isProcessAlive x w.
Proof. intros H. unfold isProcessAlive. by rewrite H. Qed.

Lemma orphan_procs (s : option doc) (w w' : World) :
  procs w' = procs w → orphan s w' = orphan s w.
Proof.
  intros H. unfold orphan. destruct s; [|done].
  by rewrite (isProcessAlive_procs _ w w' H).
Qed.

Lemma safeReadJSON_effect (p : path) (w : World) :
  p.1 ≠ CORRUPT_DIR →
  ∀ s w', safeReadJSON p w = (s, w') →
    procs w' = procs w
    ∧ (∀ d, s = Some d → read_file w p = Some (Text d))
    ∧ (read_file w' p = read_file w p
       ∨ (read_file w' p = None ∧ s = None
          ∧ ∀ d, read_file w p ≠ Some (Text d))).
Proof.
  intros Hp s w' H. unfold safeReadJSON in H.
  destruct (read_file w p) eqn:Hr.
  - rewrite <- Hr. by apply (safeReadJSON_loop_effect 5).
  - inversion H; subst. split; [done|]. split; [done|]. by left.
Qed.

Lemma tryLock_effect (self : Z) (taskId t : string) (w : World) :
  isProcessAlive (Some self) w = true →
  not_stale w (lockFile t) →
  ∀ r w', tryLock self taskId t w = (r, w') →
    procs w' = procs w
    ∧ not_stale w' (lockFile t)
    ∧ (held w (lockFile t) → held w' (lockFile t))
    ∧ match r with
      | Acquired => read_file w (lockFile t) = None ∧ held w' (lockFile t)
      | Held s => orphan s w' = false
      end.
Proof.
  intros Hself Hns r w' H. unfold tryLock in H.
  destruct (read_file w (lockFile t)) as [c|] eqn:Hr.
  - destruct (safeReadJSON (lockFile t) w) as [s w1] eqn:Hs.
    inversion H; subst. clear H.
    apply safeReadJSON_effect in Hs; [|done].
    destruct Hs as (Hp & Hd & Hf).
    split; [done|]. split; [|split].
    + intros d Hd'. rewrite (isProcessAlive_procs _ w w' Hp).
      apply Hns. destruct Hf as [Hf|[Hf _]]; congruence.
    + intros [d Hd']. exists d.
      destruct Hf as [Hf|(_ & _ & Hf)]; [congruence|].
      by destruct (Hf d).
    + rewrite (orphan_procs _ w w' Hp). unfold orphan.
      destruct s as [d|]; [|done].
      rewrite Hns; [by rewrite andb_false_r|]. by apply Hd.
  - inversion H; subst. clear H.
    assert (procs (write_file w (lockFile t)
              (Text (DLock (lockData self taskId w)))) = procs w) as Hp
      by apply write_file_frame.
    split; [done|]. split; [|split; [|split]].
    + intros d. rewrite read_write_eq. intros [= <-].
      by rewrite (isProcessAlive_procs _ _ _ Hp).
    + intros _. eexists. apply read_write_eq.
    + done.
    + eexists. apply read_write_eq.
Qed.

Lemma turn_effect (c : Call) (w : World) :
  isProcessAlive (Some (call_pid c)) w = true →
  not_stale w (lockFile (call_target c)) →
  harmless c w →
  (won c → held w (lockFile (call_target c))) →
  ∀ c' w', turn c w = (c', w') →
    call_pid c' = call_pid c ∧ call_target c' = call_target c
    ∧ procs w' = procs w
    ∧ not_stale w' (lockFile (call_target c))
    ∧ harmless c' w'
    ∧ (held w (lockFile (call_target c)) → held w' (lockFile (call_target c)))
    ∧ (won c' → held w' (lockFile (call_target c)))
    ∧ (won c' → won c ∨ read_file w (lockFile (call_target c)) = None).
Proof.
  intros Hself Hns Hh Hw c' w' H. unfold turn in H.
  destruct (call_at c) as [|s|b] eqn:Hat.
  - unfold enter in H.
    destruct (tryLock (call_pid c) (call_taskId c) (call_target c) w)
      as [r w1] eqn:Ht.
    apply tryLock_effect in Ht; [|done..].
    destruct Ht as (Hp & Hns' & Hheld & Hr).
    destruct r as [|s]; inversion H; subst; clear H; simpl.
    + destruct Hr as [Hnone Hh']. unfold harmless, won. simpl.
      repeat split; auto; try done.
    + unfold harmless, won. simpl.
      repeat split; auto; try done. by intros ? [= <-].
  - rewrite (Hh s Hat) in H. inversion H; subst; clear H.
    unfold harmless, won. simpl. repeat split; auto; done.
  - inversion H; subst; clear H.
    repeat split; auto.
Qed.

(** One retry is always enough: the recursive call finds the file gone. *)
Lemma acquireLock_total (self : Z) (taskId t : string) (w : World) :
  is_Some (acquireLock 1 self taskId t w).
Proof.
  cbn [acquireLock].
  destruct (tryLock self taskId t w) as [[|s] w1]; [done|].
  destruct (orphan s w1); [|done].
  unfold tryLock. by rewrite read_remove_eq.
Qed.

(** While a live process holds the lock, every attempt answers [false]
    and leaves the lock in place. *)
Lemma acquireLock_excluded (retries : nat) (other : Z) (taskId t : string)
    (w : World) (d : doc) :
  read_file w (lockFile t) = Some (Text d) →
  isProcessAlive (doc_pid d) w = true →
  ∃ w', acquireLock retries other taskId t w = Some (false, w')
        ∧ read_file w' (lockFile t) = Some (Text d).
Proof.
  intros Hr Ha.
  assert (∃ s w', tryLock other taskId t w = (Held s, w')
                  ∧ orphan s w' = false
                  ∧ read_file w' (lockFile t) = Some (Text d))
    as (s & w' & Ht & Ho & Hr').
  { unfold tryLock. rewrite Hr. unfold safeReadJSON. rewrite Hr.
    destruct (safeReadJSON_loop_text 5 w (lockFile t) d Hr)
      as (w' & [Hres|Hres] & Hr' & Hp); rewrite Hres.
    - exists (Some d), w'. split; [done|]. split; [|done].
      simpl. by rewrite (isProcessAlive_procs _ w w' Hp), Ha, andb_false_r.
    - exists None, w'. done. }
  exists w'. destruct retries; cbn [acquireLock]; rewrite Ht, Ho; done.
Qed.

(** Under every schedule, two calls for the same lock do not both win,
    as long as no orphaned lock record is around: on disk, or read by a
    call that is suspended. *)
Lemma interleave_exclusive (schedule : list bool) :
  ∀ (a b : Call) (w : World),
    lockFile (call_target b) = lockFile (call_target a) →
    isProcessAlive (Some (call_pid a)) w = true →
    isProcessAlive (Some (call_pid b)) w = true →
    not_stale w (lockFile (call_target a)) →
    harmless a w → harmless b w →
    (won a ∨ won b → held w (lockFile (call_target a))) →
    ¬ (won a ∧ won b) →
    ∀ a' b' w', interleave schedule a b w = (a', b', w') →
      ¬ (won a' ∧ won b').
Proof.
  induction schedule as [|[] more IH];
    intros a b w Hlf Ha Hb Hns Hha Hhb Hheld Hex a' b' w' H; simpl in H.
  - by inversion H; subst.
  - destruct (turn a w) as [a1 w1] eqn:Ht.
    destruct (turn_effect a w Ha Hns Hha (λ H, Hheld (or_introl H)) a1 w1 Ht)
      as (Hpid & Htgt & Hp & Hns1 & Hh1 & Hkeep & Hwon & Hnew).
    refine (IH a1 b w1 _ _ _ _ _ _ _ _ a' b' w' H); try done.
    + by rewrite Htgt.
    + by rewrite Hpid, (isProcessAlive_procs _ w w1 Hp).
    + by rewrite (isProcessAlive_procs _ w w1 Hp).
    + by rewrite Htgt.
    + intros s Hs. rewrite (orphan_procs _ w w1 Hp). by apply Hhb.
    + rewrite Htgt. intros [Hw|Hw]; auto.
    + intros [Hwa Hwb]. destruct (Hnew Hwa) as [Hw|Hnone]; [by apply Hex|].
      destruct (Hheld (or_intror Hwb)) as [d Hd]. congruence.
  - destruct (turn b w) as [b1 w1] eqn:Ht.
    assert (not_stale w (lockFile (call_target b))) as Hnsb by by rewrite Hlf.
    assert (won b → held w (lockFile (call_target b))) as Hheldb
      by (rewrite Hlf; auto).
    destruct (turn_effect b w Hb Hnsb Hhb Hheldb b1 w1 Ht)
      as (Hpid & Htgt & Hp & Hns1 & Hh1 & Hkeep & Hwon & Hnew).
    rewrite Hlf in *.
    refine (IH a b1 w1 _ _ _ _ _ _ _ _ a' b' w' H); try done.
    + by rewrite Htgt.
    + by rewrite (isProcessAlive_procs _ w w1 Hp).
    + by rewrite Hpid, (isProcessAlive_procs _ w w1 Hp).
    + intros s Hs. rewrite (orphan_procs _ w w1 Hp). by apply Hha.
    + intros [Hw|Hw]; auto.
    + intros [Hwa Hwb]. destruct (Hnew Hwb) as [Hw|Hnone]; [by apply Hex|].
      destruct (Hheld (or_introl Hwa)) as [d Hd]. congruence.
Qed.

(** A call run alone is [acquireLock]: its turns, taken one after the
    other, end where the function says. *)
Lemma acquireLock_turns (retries : nat) (c other : Call) :
  ∀ (w : World) (b : bool) (w' : World),
    call_at c = AtCall →
    acquireLock retries (call_pid c) (call_taskId c) (call_target c) w
    = Some (b, w') →
    ∃ n, interleave (replicate n true) c other w
         = (at_place c (Returned b), other, w').
Proof.
  induction retries as [|r IH]; intros w b w' Hat H; cbn [acquireLock] in H;
    destruct (tryLock (call_pid c) (call_taskId c) (call_target c) w)
      as [[|s] w1] eqn:Ht.
  - inversion H; subst. exists 1%nat. simpl. unfold turn, enter.
    by rewrite Hat, Ht.
  - destruct (orphan s w1) eqn:Ho; [done|]. inversion H; subst.
    exists 2%nat. simpl. unfold turn at 1, enter. rewrite Hat, Ht.
    unfold turn. simpl. by rewrite Ho.
  - inversion H; subst. exists 1%nat. simpl. unfold turn, enter.
    by rewrite Hat, Ht.
  - destruct (orphan s w1) eqn:Ho.
    + destruct (IH _ _ _ Hat H) as [n Hn].
      destruct n as [|n]; simpl in Hn.
      { inversion Hn as [[Hc Hw]]. apply (f_equal call_at) in Hc.
        simpl in Hc. congruence. }
      exists (S (S n)). simpl. unfold turn at 1, enter. rewrite Hat, Ht.
      unfold turn at 1. cbn [call_at at_place call_target]. rewrite Ho.
      unfold turn at 1 in Hn. rewrite Hat in Hn.
      unfold enter in *. cbn [call_pid call_taskId call_target at_place] in *.
      destruct (tryLock (call_pid c) (call_taskId c) (call_target c)
                  (remove_file w1 (lockFile (call_target c)))) as [[|s'] w2];
        exact Hn.
    + inversion H; subst.
      exists 2%nat. simpl. unfold turn at 1, enter. rewrite Hat, Ht.
      unfold turn. simpl. by rewrite Ho.
Qed.

(** On ASCII targets every engine does what the engine of the examples
    does. *)
Lemma lockFile_plain (t : string) :
  is_ascii t = true → lockFile t = @lockFile plain_runtime t.
Proof. intros H. unfold lockFile. by rewrite (toLowerCase_ascii t H). Qed.

Lemma turn_plain (c : Call) (w : World) :
  is_ascii (call_target c) = true → turn c w = @turn plain_runtime c w.
Proof.
  intros H. unfold turn, enter, tryLock. by rewrite (lockFile_plain _ H).
Qed.

Lemma turn_target (c : Call) (w : World) :
  call_target (turn c w).1 = call_target c.
Proof.
  unfold turn, enter. destruct (call_at c) as [|s|b]; [| |done].
  - by destruct (tryLock _ _ _ w) as [[|s] w1].
  - destruct (orphan s w); [|done].
    by destruct (tryLock _ _ _ _) as [[|s'] w1].
Qed.

Lemma interleave_plain (schedule : list bool) :
  ∀ (a b : Call) (w : World),
    is_ascii (call_target a) = true → is_ascii (call_target b) = true →
    interleave schedule a b w = @interleave plain_runtime schedule a b w.
Proof.
  induction schedule as [|[] more IH]; intros a b w Ha Hb; [done|..];
    cbn [interleave].
  - rewrite <- (turn_plain a w Ha).
    pose proof (turn_target a w) as Ht. destruct (turn a w) as [a' w'].
    cbn [fst] in Ht. apply IH; [|done]. by rewrite Ht.
  - rewrite <- (turn_plain b w Hb).
    pose proof (turn_target b w) as Ht. destruct (turn b w) as [b' w'].
    cbn [fst] in Ht. apply IH; [done|]. by rewrite Ht.
Qed.

(** C1 (the code departs from the claim).  Process 77 died holding the
    lock of target "chatgpt".  Engines 101 and 102, both alive, call
    [acquireLock] for that target, and each reaches its [await] before the
    other resumes.  Both calls answer [true]: the second removes the lock
    the first has just created, because it acts on the record it read
    before.  At the end the lock file names 102 only, while 101 also
    believes it holds the lock. *)
Theorem C1_orphan_lock_race :
  isProcessAlive (Some (call_pid engine_A)) crashed_world = true
  ∧ isProcessAlive (Some (call_pid engine_B)) crashed_world = true
  ∧ lockFile (call_target engine_A) = lockFile (call_target engine_B)
  ∧ ∃ a b w,
      interleave [true; false; true; false] engine_A engine_B crashed_world
      = (a, b, w)
      ∧ call_at a = Returned true
      ∧ call_at b = Returned true
      ∧ read_file w (lockFile "chatgpt")
        = Some (Text (DLock {| lock_taskId := "T2"; lock_pid := 102;
                               lock_ts := Iso 1700000000000 |})).
Proof.
  rewrite (interleave_plain _ engine_A engine_B) by reflexivity.
  rewrite (lockFile_plain (call_target engine_A) eq_refl),
    (lockFile_plain (call_target engine_B) eq_refl),
    (lockFile_plain "chatgpt" eq_refl).
  split; [by vm_compute|]. split; [by vm_compute|]. split; [by vm_compute|].
  eexists _, _, _. split; [vm_compute; reflexivity|].
  split; [reflexivity|]. split; [reflexivity|]. by vm_compute.
Qed.

(** A call that answers [true] leaves the caller's record in the lock file. *)
Lemma acquireLock_won (retries : nat) (self : Z) (taskId t : string) :
  ∀ (w w1 : World),
    acquireLock retries self taskId t w = Some (true, w1) →
    procs w1 = procs w
    ∧ ∃ l, read_file w1 (lockFile t) = Some (Text (DLock l))
           ∧ lock_pid l = self ∧ lock_taskId l = taskId.
Proof.
  assert (∀ w r w', tryLock self taskId t w = (r, w') →
            procs w' = procs w
            ∧ (r = Acquired →
               read_file w' (lockFile t)
               = Some (Text (DLock (lockData self taskId w))))) as Htry.
  { intros w r w' H. unfold tryLock in H.
    destruct (read_file w (lockFile t)) eqn:Hr.
    - destruct (safeReadJSON (lockFile t) w) as [s w2] eqn:Hs.
      inversion H; subst.
      apply safeReadJSON_effect in Hs; [|done]. by destruct Hs as [-> _].
    - inversion H; subst. split; [apply write_file_frame|].
      intros _. apply read_write_eq. }
  induction retries as [|r IH]; intros w w1 H; cbn [acquireLock] in H;
    destruct (tryLock self taskId t w) as [[|s] w0] eqn:Ht;
    destruct (Htry _ _ _ Ht) as [Hp Hacq].
  - inversion H; subst. split; [done|]. eexists. split; [by apply Hacq|done].
  - by destruct (orphan s w0).
  - inversion H; subst. split; [done|]. eexists. split; [by apply Hacq|done].
  - destruct (orphan s w0); [|done].
    apply IH in H. destruct H as [Hp' Hl]. split; [|done].
    rewrite Hp', <- Hp. apply remove_file_frame.
Qed.

(** Calls made one after the other exclude each other: after a call that
    answered [true] to a live process, the next call answers [false]. *)
Lemma acquireLock_serial (retries retries' : nat) (self other : Z)
    (taskId taskId' t : string) (w w1 : World) :
  acquireLock retries self taskId t w = Some (true, w1) →
  isProcessAlive (Some self) w = true →
  ∃ w2, acquireLock retries' other taskId' t w1 = Some (false, w2).
Proof.
  intros Hacq Halive.
  apply acquireLock_won in Hacq. destruct Hacq as (Hp & l & Hl & Hpid & _).
  destruct (acquireLock_excluded retries' other taskId' t w1 (DLock l))
    as (w2 & H2 & _); [done| |by exists w2].
  change (isProcessAlive (Some (lock_pid l)) w1 = true).
  by rewrite Hpid, (isProcessAlive_procs _ w w1 Hp).
Qed.

(** What is fixed for [toLowerCase] settles the file of an ASCII target. *)
Lemma lockFile_ascii (t : string) :
  is_ascii t = true →
  lockFile t = (ROOT, "RUNNING_" +:+ ascii_lower t +:+ ".lock")
  ∧ lockFile (toLowerCase t) = lockFile t.
Proof.
  intros Ha. rewrite !lockFile_name, (toLowerCase_ascii t Ha).
  split; [done|].
  by rewrite (toLowerCase_ascii _ (is_ascii_lower t Ha)), ascii_lower_idem.
Qed.

(** C10.  The lock file of a target is named by the target's lower-case
    form: [RUNNING_<lower-case form>.lock] in the root directory, which
    for the target "ChatGPT" is [RUNNING_chatgpt.lock] and for every ASCII
    target the name with the letters A-Z lowered.  [releaseLock] removes
    that file, and a call of [acquireLock] that answers [true] leaves the
    caller's record in it.  So for two targets with the same lower-case
    form: they have one lock file, acquiring is the same operation,
    releasing is the same operation, a release under one spelling removes
    the lock taken under the other, and while the process that took the
    lock under one spelling is alive every attempt under the other
    spelling answers [false].  All of this holds on every engine,
    whatever its [toLowerCase] does to letters that are not ASCII. *)
Theorem C10_lock_target_case_insensitive :
  lockFile "ChatGPT" = (ROOT, "RUNNING_chatgpt.lock")
  ∧ (∀ t : string,
       lockFile t = (ROOT, "RUNNING_" +:+ toLowerCase t +:+ ".lock")
       ∧ (is_ascii t = true →
          lockFile t = (ROOT, "RUNNING_" +:+ ascii_lower t +:+ ".lock")
          ∧ lockFile (toLowerCase t) = lockFile t))
  ∧ (∀ (t : string) (w : World),
       releaseLock t w
       = remove_file w (ROOT, "RUNNING_" +:+ toLowerCase t +:+ ".lock"))
  ∧ (∀ (t : string) (retries : nat) (self : Z) (taskId : string) (w w1 : World),
       acquireLock retries self taskId t w = Some (true, w1) →
       ∃ l, read_file w1 (ROOT, "RUNNING_" +:+ toLowerCase t +:+ ".lock")
            = Some (Text (DLock l))
            ∧ lock_pid l = self ∧ lock_taskId l = taskId)
  ∧ ∀ (t t' : string) (retries : nat) (self : Z) (taskId : string) (w : World),
      toLowerCase t = toLowerCase t' →
      lockFile t = lockFile t'
      ∧ acquireLock retries self taskId t w = acquireLock retries self taskId t' w
      ∧ releaseLock t w = releaseLock t' w
      ∧ read_file (releaseLock t' w) (lockFile t) = None
      ∧ ∀ w1, acquireLock retries self taskId t w = Some (true, w1) →
          isProcessAlive (Some self) w = true →
          ∀ (r : nat) (other : Z) (taskId' : string),
            ∃ w2, acquireLock r other taskId' t' w1 = Some (false, w2).
Proof.
  split; [exact (proj1 (lockFile_ascii "ChatGPT" eq_refl))|].
  split; [intros t; split; [apply lockFile_name|apply lockFile_ascii]|].
  split; [done|].
  split.
  { intros t retries self taskId w w1 H.
    by destruct (acquireLock_won _ _ _ _ _ _ H) as [_ Hl]. }
  intros t t' retries self taskId w Hcase.
  split; [by apply lockFile_same_case|].
  split; [by apply acquireLock_same_case|].
  split; [unfold releaseLock; by rewrite (lockFile_same_case t t' Hcase)|].
  split.
  { unfold releaseLock. rewrite (lockFile_same_case t t' Hcase).
    apply read_remove_eq. }
  intros w1 Hacq Halive r other taskId'.
  rewrite (acquireLock_same_case t t' _ _ _ _ Hcase) in Hacq.
  by apply (acquireLock_serial retries r self other taskId taskId' t' w w1).
Qed.

End Locks.

(** On the engine of the examples: the three spellings of "chatgpt" name
    the file [RUNNING_chatgpt.lock], engine 101 takes the lock as
    "ChatGPT" exactly as it would as "chatgpt" and its record is in that
    file, engine 102 is then refused the lock as "CHATGPT", and a release
    as "CHATGPT" frees it. *)
Lemma C10_witness :
  lockFile "ChatGPT" = (ROOT, "RUNNING_chatgpt.lock")
  ∧ lockFile "CHATGPT" = (ROOT, "RUNNING_chatgpt.lock")
  ∧ lockFile "chatgpt" = (ROOT, "RUNNING_chatgpt.lock")
  ∧ acquireLock 1 101 "T1" "ChatGPT" idle_world
    = acquireLock 1 101 "T1" "chatgpt" idle_world
  ∧ (∃ w1 l,
       acquireLock 1 101 "T1" "ChatGPT" idle_world = Some (true, w1)
       ∧ read_file w1 (ROOT, "RUNNING_chatgpt.lock") = Some (Text (DLock l))
       ∧ lock_pid l = 101
       ∧ (∃ w2, acquireLock 1 102 "T2" "CHATGPT" w1 = Some (false, w2))
       ∧ read_file (releaseLock "CHATGPT" w1) (lockFile "chatgpt") = None).
Proof.
  pose proof (@C10_lock_target_case_insensitive plain_runtime)
    as (Hpin & Hname & Hrel & Hwon & Hcase).
  split; [exact Hpin|].
  split; [exact (proj1 (proj2 (Hname "CHATGPT") eq_refl))|].
  split; [exact (proj1 (proj2 (Hname "chatgpt") eq_refl))|].
  split.
  { exact (proj1 (proj2 (Hcase "ChatGPT" "chatgpt" 1%nat 101 "T1" idle_world
                           eq_refl))). }
  assert (acquireLock 1 101 "T1" "ChatGPT" idle_world
          = Some (true, write_file idle_world (ROOT, "RUNNING_chatgpt.lock")
                          (Text (DLock (lockData 101 "T1" idle_world)))))
    as Hacq by reflexivity.
  eexists _, _. split; [exact Hacq|].
  split; [reflexivity|]. split; [reflexivity|].
  destruct (Hcase "ChatGPT" "CHATGPT" 1%nat 101 "T1" idle_world eq_refl)
    as (_ & _ & _ & _ & Hexcl).
  split; [exact (Hexcl _ Hacq eq_refl 1%nat 102 "T2")|].
  exact (proj1 (proj2 (proj2 (proj2
           (Hcase "chatgpt" "CHATGPT" 1%nat 101 "T1" _ eq_refl))))).
Defined.

(** ** The atomic write *)

(** The temporary file is never the target. *)
Lemma tmp_of_ne (self : Z) (uuid : string) (p : path) : tmp_of self uuid p ≠ p.
Proof.
  destruct p as [d nm]. unfold tmp_of. simpl. intros [= H].
  apply (f_equal String.length) in H.
  rewrite String_length_app in H. simpl in H. lia.
Qed.

Lemma pop_fault_files (w : World) (p : path) :
  read_file (pop_fault w).2 p = read_file w p.
Proof. unfold pop_fault. by destruct (faults w). Qed.

Lemma pop_entropy_files (w : World) (p : path) :
  read_file (pop_entropy w).2 p = read_file w p.
Proof. unfold pop_entropy. by destruct (entropy w). Qed.

(** Every world the rename loop goes through has, at the target, what was
    there before or the complete new text. *)
Lemma rename_loop_states (budget : nat) (tmp p : path) (c : content) :
  tmp ≠ p →
  ∀ (attempts : Z) (w : World) (r : result unit) (ws : list World),
    read_file w tmp = Some c →
    rename_loop budget attempts tmp p w = (r, ws) →
    Forall (λ w', read_file w' p = read_file w p ∨ read_file w' p = Some c) ws.
Proof.
  intros Hne. induction budget as [|b IH]; intros attempts w r ws Ht H;
    simpl in H.
  - inversion H; subst. constructor.
  - pose proof (pop_fault_files w tmp) as Hft.
    pose proof (pop_fault_files w p) as Hfp.
    destruct (pop_fault w) as [f w1]. simpl in Hft, Hfp.
    destruct f as [e|].
    + destruct (transient e).
      * destruct (rename_loop b (attempts + 1) tmp p
                    (sleep (100 * (attempts + 1)) w1)) as [r' ws'] eqn:Hl.
        inversion H; subst. constructor.
        -- left. exact Hfp.
        -- apply IH in Hl; [|by rewrite <- Ht, <- Hft].
           eapply Forall_impl; [exact Hl|]. intros w' Hw'. simpl in Hw'.
           change (read_file (sleep (100 * (attempts + 1)) w1) p)
             with (read_file w1 p) in Hw'.
           by rewrite Hfp in Hw'.
      * inversion H; subst. constructor; [|constructor].
        left. by rewrite read_remove_ne.
    + inversion H; subst. constructor; [|constructor].
      right. unfold rename_file. rewrite Hft, Ht. apply read_write_eq.
Qed.

Lemma atomicWrite_steps_states (self : Z) (chunks : nat) (p : path) (d : doc)
    (w : World) :
  Forall (λ w', read_file w' p = read_file w p
                ∨ read_file w' p = Some (Text d))
         (atomicWrite_steps self chunks p d w).2.
Proof.
  unfold atomicWrite_steps.
  pose proof (pop_entropy_files w p) as Hep.
  destruct (pop_entropy w) as [uuid w0]. simpl in Hep.
  pose proof (tmp_of_ne self uuid p) as Hne.
  destruct (rename_loop 10 0 (tmp_of self uuid p) p
              (write_file w0 (tmp_of self uuid p) (Text d))) as [r ws] eqn:Hl.
  simpl. apply Forall_app. split; [|constructor].
  - apply Forall_fmap, Forall_forall. intros n _. simpl. left.
    by rewrite read_write_ne.
  - left. by rewrite read_write_ne.
  - apply (rename_loop_states _ _ _ (Text d) Hne) in Hl;
      [|apply read_write_eq].
    eapply Forall_impl; [exact Hl|]. intros w' Hw'. simpl in Hw'.
    by rewrite read_write_ne, Hep in Hw'.
Qed.

(** The number of partial states of the temporary file does not matter
    for where the write ends. *)
Lemma atomicWrite_steps_end (self : Z) (chunks : nat) (p : path) (d : doc)
    (w : World) :
  (atomicWrite_steps self chunks p d w).1 = (atomicWrite self p d w).1
  ∧ default w (last (atomicWrite_steps self chunks p d w).2)
    = (atomicWrite self p d w).2.
Proof.
  unfold atomicWrite, atomicWrite_steps.
  destruct (pop_entropy w) as [uuid w0].
  destruct (rename_loop 10 0 (tmp_of self uuid p) p
              (write_file w0 (tmp_of self uuid p) (Text d))) as [r ws].
  simpl. split; [done|]. by rewrite last_app_cons.
Qed.

(** With no fault pending the write ends with the new text at the target. *)
Lemma atomicWrite_replaces (self : Z) (p : path) (d : doc) (w : World) :
  faults w = [] →
  ∃ w', atomicWrite self p d w = (Ok tt, w')
        ∧ read_file w' p = Some (Text d)
        ∧ faults w' = [] ∧ procs w' = procs w ∧ clock w' = clock w
        ∧ ∀ q, q ≠ p → q ≠ tmp_of self (pop_entropy w).1 p →
               read_file w' q = read_file w q.
Proof.
  intros Hf. unfold atomicWrite, atomicWrite_steps.
  pose proof (pop_entropy_files w) as Hep.
  assert (faults (pop_entropy w).2 = [] ∧ procs (pop_entropy w).2 = procs w
          ∧ clock (pop_entropy w).2 = clock w) as (Hf0 & Hp0 & Hc0).
  { unfold pop_entropy. by destruct (entropy w). }
  destruct (pop_entropy w) as [uuid w0]. simpl in *.
  set (tmp := tmp_of self uuid p).
  destruct (write_file_frame w0 tmp (Text d)) as (Hp1 & Hc1 & Hf1 & _).
  rewrite (pop_fault_none (write_file w0 tmp (Text d))) by congruence.
  simpl. eexists. split; [reflexivity|].
  unfold rename_file. rewrite read_write_eq.
  destruct (write_file_frame (remove_file (write_file w0 tmp (Text d)) tmp)
              p (Text d)) as (Hp2 & Hc2 & Hf2 & _).
  destruct (remove_file_frame (write_file w0 tmp (Text d)) tmp)
    as (Hp3 & Hc3 & Hf3 & _).
  split; [apply read_write_eq|].
  split; [congruence|]. split; [congruence|]. split; [congruence|].
  intros q Hq Hq'. rewrite read_write_ne by done.
  rewrite read_remove_ne by done. rewrite read_write_ne by done. apply Hep.
Qed.

(** [saveTask] ends in the last of the worlds of [saveTask_steps]. *)
Lemma saveTask_ends_steps (pr : Proc) (chunks : nat) (t : Task) (w : World) :
  (saveTask pr t w).2
  = default w (last (saveTask_steps (pid pr) chunks t w).2).
Proof.
  unfold saveTask, saveTask_steps.
  destruct (parseTask (clock w) t) as [v|m]; [|done].
  destruct (atomicWrite_steps_end (pid pr) chunks (task_file v) (DTask v) w)
    as [_ ->].
  by destruct (atomicWrite (pid pr) (task_file v) (DTask v) w) as [[] ?].
Qed.

(** C4.  [saveTask] validates first: a record the schema refuses never
    reaches the disk.  For a record it accepts, in every world the save
    goes through (a crash of the program leaves the disk in one of them,
    or in the world the save started from; the file system keeps the
    order of the operations) the task file holds what it held before or
    the complete new text, whatever the faults and however the temporary
    file was flushed; and with no fault pending the save ends with the new
    text in place. *)
Theorem C4_saveTask_atomic_replace :
  ∀ (self : Z) (chunks : nat) (t : Task) (w : World),
    match parseTask (clock w) t with
    | Throw m => saveTask_steps self chunks t w = (Throw m, [])
    | Ok v =>
        Forall (λ w', read_file w' (task_file v) = read_file w (task_file v)
                      ∨ read_file w' (task_file v) = Some (Text (DTask v)))
               (saveTask_steps self chunks t w).2
        ∧ (faults w = [] →
           (saveTask_steps self chunks t w).1 = Ok tt
           ∧ ∃ w', last (saveTask_steps self chunks t w).2 = Some w'
                   ∧ read_file w' (task_file v) = Some (Text (DTask v)))
    end.
Proof.
  intros self chunks t w. unfold saveTask_steps.
  destruct (parseTask (clock w) t) as [v|m]; [|reflexivity].
  split; [apply atomicWrite_steps_states|].
  intros Hf.
  destruct (atomicWrite_steps_end self chunks (task_file v) (DTask v) w)
    as [Hr Hl].
  destruct (atomicWrite_replaces self (task_file v) (DTask v) w Hf)
    as (w' & Hw & Hread & _).
  rewrite Hw in Hr, Hl. simpl in Hr, Hl. split; [done|].
  exists w'. split; [|done].
  unfold atomicWrite_steps in *.
  destruct (pop_entropy w) as [uuid w0].
  destruct (rename_loop 10 0 (tmp_of self uuid (task_file v)) (task_file v)
              (write_file w0 (tmp_of self uuid (task_file v)) (Text (DTask v))))
    as [r ws].
  simpl in *. rewrite last_app_cons in *.
  destruct (last (_ :: ws)) eqn:Hlast; simpl in Hl; [by subst|].
  by apply last_None in Hlast.
Qed.

Lemma C4_witness :
  ∃ w', last (saveTask_steps 101 3 T1_running world_with_T1).2 = Some w'
        ∧ read_file w' (task_file T1)
          = Some (Text (DTask (TaskSchema_out (clock world_with_T1) T1_running))).
Proof.
  exact (proj2 (proj2 (C4_saveTask_atomic_replace 101 3 T1_running world_with_T1)
                  eq_refl)).
Defined.

Lemma default_last_cons {A : Type} (x y : A) (l : list A) :
  default x (last (y :: l)) = default y (last l).
Proof.
  destruct l as [|z l]; [done|]. rewrite last_cons_cons.
  destruct (last (z :: l)) eqn:H; [done|]. by apply last_None in H.
Qed.

(** When the operating system refuses the rename as often as the loop
    tries, the loop runs out and hands back a normal completion: no file
    has changed in any world it went through. *)
Lemma rename_loop_exhausted (budget : nat) (tmp p : path) :
  ∀ (attempts : Z) (w : World) (es : list errno) (rest : list (option errno)),
    length es = budget →
    Forall (λ e, transient e = true) es →
    faults w = (Some <$> es) ++ rest →
    ∃ ws, rename_loop budget attempts tmp p w = (Ok tt, ws)
          ∧ Forall (λ w', ∀ q, read_file w' q = read_file w q) ws
          ∧ faults (default w (last ws)) = rest.
Proof.
  induction budget as [|b IH]; intros attempts w es rest Hlen Htr Hf.
  - destruct es; [|done]. exists []. simpl. split; [done|].
    split; [constructor|]. by rewrite Hf.
  - destruct es as [|e es]; [done|]. simpl in Hlen, Hf.
    inversion Htr as [|? ? He Htr']; subst.
    simpl. unfold pop_fault. rewrite Hf, He.
    match goal with |- context [rename_loop b ?a tmp p ?w2] =>
      destruct (IH a w2 es rest) as (ws & Hl & Hall & Hlast);
        [lia | done | reflexivity | rewrite Hl] end.
    eexists. split; [reflexivity|]. split.
    + constructor; [done|].
      eapply Forall_impl; [exact Hall|]. intros w' Hw' q. by rewrite Hw'.
    + by rewrite default_last_cons.
Qed.

Lemma atomicWrite_exhausted (self : Z) (p : path) (d : doc) (w : World)
    (es : list errno) (rest : list (option errno)) :
  length es = 10%nat →
  Forall (λ e, transient e = true) es →
  faults w = (Some <$> es) ++ rest →
  ∃ w', atomicWrite self p d w = (Ok tt, w')
        ∧ read_file w' p = read_file w p
        ∧ read_file w' (tmp_of self (pop_entropy w).1 p) = Some (Text d)
        ∧ faults w' = rest.
Proof.
  intros Hlen Htr Hf. unfold atomicWrite, atomicWrite_steps.
  pose proof (pop_entropy_files w p) as Hep.
  assert (faults (pop_entropy w).2 = faults w) as Hf0
    by (unfold pop_entropy; by destruct (entropy w)).
  destruct (pop_entropy w) as [uuid w0]. cbn [fst snd] in *.
  set (tmp := tmp_of self uuid p).
  destruct (rename_loop_exhausted 10 tmp p 0 (write_file w0 tmp (Text d)) es rest)
    as (ws & Hl & Hall & Hlast); [done | done | |].
  { destruct (write_file_frame w0 tmp (Text d)) as (_ & _ & -> & _). congruence. }
  rewrite Hl. cbn [seq fmap list_fmap app]. rewrite default_last_cons.
  eexists. split; [reflexivity|].
  assert (∀ q, read_file (default (write_file w0 tmp (Text d)) (last ws)) q
               = read_file (write_file w0 tmp (Text d)) q) as Hsame.
  { intros q. destruct (last ws) as [wl|] eqn:Hlw; [|done].
    simpl. apply last_Some_elem_of in Hlw.
    by rewrite Forall_forall in Hall; apply Hall. }
  split; [rewrite Hsame, read_write_ne; [done|apply tmp_of_ne]|].
  split; [rewrite Hsame; apply read_write_eq|]. done.
Qed.

(** C9 (the code departs from the claim).  Another program keeps the task
    file of T1 open, so each of the ten renames is refused with EPERM or
    EBUSY.  [saveTask] then completes normally: no error reaches the
    caller, the file still holds the prior version of T1, and the new
    version is left in the temporary file.  The ten waits took
    100 + 200 + ... + 1000 ms. *)
Theorem C9_rename_retries_exhausted_returns_normally :
  ∃ pr' w',
    saveTask (fresh_proc 101) T1_running world_with_T1_locked = (Ok tt, pr', w')
    ∧ read_file w' (task_file T1) = Some (Text (DTask T1))
    ∧ read_file w' (tmp_of 101 "9f3a01bc" (task_file T1))
      = Some (Text (DTask (TaskSchema_out (clock world_with_T1_locked) T1_running)))
    ∧ clock w' = clock world_with_T1_locked + 5500
    ∧ faults w' = [].
Proof.
  eexists _, _. split; [vm_compute; reflexivity|].
  split; [by vm_compute|]. split; [by vm_compute|]. split; by vm_compute.
Qed.

(** ** The queue scan *)

Lemma badFile_inj (f g : string) (now : Z) : badFile f now = badFile g now → f = g.
Proof. unfold badFile. intros [= H]. by apply String_app_inj_r in H. Qed.

(** One read of the scan, when no fault is pending. *)
Lemma safeReadJSON_queue (g : string) (w : World) :
  faults w = [] →
  safeReadJSON (QUEUE_DIR, g) w
  = match queue w !! g with
    | None => (None, w)
    | Some (Text d) => (Some d, w)
    | Some _ => (None, quarantine (QUEUE_DIR, g) w)
    end.
Proof.
  intros Hf. unfold safeReadJSON.
  change (read_file w (QUEUE_DIR, g)) with (queue w !! g).
  destruct (queue w !! g) as [c|] eqn:Hq; [|done].
  simpl. rewrite (pop_fault_none w Hf).
  change (read_file w (QUEUE_DIR, g)) with (queue w !! g). rewrite Hq.
  by destruct c.
Qed.

Lemma quarantine_queue (g : string) (w : World) (c : content) :
  queue w !! g = Some c →
  queue (quarantine (QUEUE_DIR, g) w) = delete g (queue w)
  ∧ corrupted (quarantine (QUEUE_DIR, g) w)
    = <[(badFile g (clock w)).2 := c]> (corrupted w)
  ∧ faults (quarantine (QUEUE_DIR, g) w) = faults w
  ∧ clock (quarantine (QUEUE_DIR, g) w) = clock w.
Proof.
  intros Hq. unfold quarantine, rename_file.
  change (read_file w (QUEUE_DIR, g)) with (queue w !! g). by rewrite Hq.
Qed.

(** The scan, seen from one file [f] that does not parse. *)
Lemma read_all_quarantines (f : string) (c : content) (now : Z) :
  (∀ d, c ≠ Text d) →
  ∀ (names : list string) (w : World) (rs : list (option doc)) (w' : World),
    faults w = [] → clock w = now → NoDup names →
    read_all names w = (rs, w') →
    faults w' = [] ∧ clock w' = now
    ∧ (∀ g, g ∉ names → queue w' !! g = queue w !! g)
    ∧ (∀ d, Some d ∈ rs → ∃ g, g ∈ names ∧ queue w !! g = Some (Text d))
    ∧ (f ∈ names → queue w !! f = Some c →
       queue w' !! f = None ∧ corrupted w' !! (badFile f now).2 = Some c)
    ∧ (f ∉ names →
       corrupted w !! (badFile f now).2 = Some c →
       corrupted w' !! (badFile f now).2 = Some c).
Proof.
  intros Hbad. induction names as [|g names IH]; intros w rs w' Hf Hc Hnd H.
  - simpl in H. inversion H; subst.
    split; [done|]. split; [done|]. split; [done|].
    split; [by intros d ?%elem_of_nil|]. split; [by intros ?%elem_of_nil|done].
  - simpl in H. rewrite (safeReadJSON_queue g w Hf) in H.
    apply NoDup_cons in Hnd as [Hg Hnd].
    destruct (queue w !! g) as [cg|] eqn:Hq.
    + destruct cg as [d|d k|j].
      * (* a complete file: nothing moves *)
        destruct (read_all names w) as [rs' w2] eqn:Hra.
        inversion H; subst.
        destruct (IH w rs' w' Hf eq_refl Hnd Hra)
          as (Hf' & Hc' & Hout & Hin & Hq1 & Hq2).
        split; [done|]. split; [done|].
        split; [intros h Hh; apply Hout; set_solver|].
        split.
        { intros d' [[= <-]|Hd']%elem_of_cons.
          - exists g. split; [set_solver|done].
          - destruct (Hin d' Hd') as (h & Hh & Hqh). exists h. set_solver. }
        split.
        { intros [->|Hfn]%elem_of_cons Hqf.
          - rewrite Hq in Hqf. inversion Hqf; subst. by destruct (Hbad d).
          - by apply Hq1. }
        intros Hfn. apply Hq2. set_solver.
      * (* a torn file: it is moved *)
        destruct (quarantine_queue g w _ Hq) as (Hqq & Hqc & Hqfl & Hqk).
        destruct (read_all names (quarantine (QUEUE_DIR, g) w)) as [rs' w2] eqn:Hra.
        inversion H; subst.
        assert (faults (quarantine (QUEUE_DIR, g) w) = []) as Hfq by congruence.
        destruct (IH _ rs' w' Hfq Hqk Hnd Hra)
          as (Hf' & Hc' & Hout & Hin & Hq1 & Hq2).
        split; [done|]. split; [done|].
        split.
        { intros h Hh. rewrite Hout by set_solver. rewrite Hqq.
          apply lookup_delete_ne. set_solver. }
        split.
        { intros d' [[=]|Hd']%elem_of_cons.
          destruct (Hin d' Hd') as (h & Hh & Hqh). exists h.
          split; [set_solver|]. rewrite Hqq in Hqh.
          by apply lookup_delete_Some in Hqh as [_ ?]. }
        split.
        { intros [->|Hfn]%elem_of_cons Hqf.
          - rewrite Hq in Hqf. inversion Hqf; subst.
            split; [rewrite Hout by done; rewrite Hqq; apply lookup_delete_eq|].
            apply Hq2; [done|]. rewrite Hqc. apply lookup_insert_eq.
          - apply Hq1; [done|]. rewrite Hqq. rewrite lookup_delete_ne; [done|].
            intros ->. done. }
        intros Hfn Hcf. apply Hq2; [set_solver|]. rewrite Hqc.
        rewrite lookup_insert_ne; [done|].
        intros Heq. apply Hfn. apply elem_of_cons. left.
        symmetry. apply (badFile_inj g f (clock w)). unfold badFile. by f_equal.
      * (* any other text that does not parse: it is moved *)
        destruct (quarantine_queue g w _ Hq) as (Hqq & Hqc & Hqfl & Hqk).
        destruct (read_all names (quarantine (QUEUE_DIR, g) w)) as [rs' w2] eqn:Hra.
        inversion H; subst.
        assert (faults (quarantine (QUEUE_DIR, g) w) = []) as Hfq by congruence.
        destruct (IH _ rs' w' Hfq Hqk Hnd Hra)
          as (Hf' & Hc' & Hout & Hin & Hq1 & Hq2).
        split; [done|]. split; [done|].
        split.
        { intros h Hh. rewrite Hout by set_solver. rewrite Hqq.
          apply lookup_delete_ne. set_solver. }
        split.
        { intros d' [[=]|Hd']%elem_of_cons.
          destruct (Hin d' Hd') as (h & Hh & Hqh). exists h.
          split; [set_solver|]. rewrite Hqq in Hqh.
          by apply lookup_delete_Some in Hqh as [_ ?]. }
        split.
        { intros [->|Hfn]%elem_of_cons Hqf.
          - rewrite Hq in Hqf. inversion Hqf; subst.
            split; [rewrite Hout by done; rewrite Hqq; apply lookup_delete_eq|].
            apply Hq2; [done|]. rewrite Hqc. apply lookup_insert_eq.
          - apply Hq1; [done|]. rewrite Hqq. rewrite lookup_delete_ne; [done|].
            intros ->. done. }
        intros Hfn Hcf. apply Hq2; [set_solver|]. rewrite Hqc.
        rewrite lookup_insert_ne; [done|].
        intros Heq. apply Hfn. apply elem_of_cons. left.
        symmetry. apply (badFile_inj g f (clock w)). unfold badFile. by f_equal.
    + (* the file is not there any more *)
      destruct (read_all names w) as [rs' w2] eqn:Hra.
      inversion H; subst.
      destruct (IH w rs' w' Hf eq_refl Hnd Hra)
        as (Hf' & Hc' & Hout & Hin & Hq1 & Hq2).
      split; [done|]. split; [done|].
      split; [intros h Hh; apply Hout; set_solver|].
      split.
      { intros d' [[=]|Hd']%elem_of_cons.
        destruct (Hin d' Hd') as (h & Hh & Hqh). exists h. set_solver. }
      split.
      { intros [->|Hfn]%elem_of_cons Hqf; [congruence|by apply Hq1]. }
      intros Hfn. apply Hq2. set_solver.
Qed.

Lemma parsed_quarantine (g h : string) (w : World) :
  parsed w g = None →
  parsed (quarantine (QUEUE_DIR, g) w) h = parsed w h.
Proof.
  intros Hg. unfold parsed in *.
  destruct (queue w !! g) as [c|] eqn:Hq.
  - destruct (quarantine_queue g w c Hq) as (-> & _).
    destruct (decide (h = g)) as [->|Hne].
    + rewrite lookup_delete_eq, Hq. by destruct c.
    + by rewrite lookup_delete_ne.
  - unfold quarantine, rename_file.
    change (read_file w (QUEUE_DIR, g)) with (queue w !! g). by rewrite Hq.
Qed.

(** A scan with no fault pending reads every name it is given as the file
    stands when the scan starts. *)
Lemma read_all_parsed (names : list string) :
  ∀ (w : World) (rs : list (option doc)) (w' : World),
    faults w = [] →
    read_all names w = (rs, w') →
    rs = parsed w <$> names
    ∧ faults w' = [] ∧ clock w' = clock w
    ∧ ∀ h, parsed w' h = parsed w h.
Proof.
  induction names as [|g names IH]; intros w rs w' Hf H.
  - cbn in H. by inversion H; subst.
  - cbn [read_all] in H. rewrite (safeReadJSON_queue g w Hf) in H.
    assert (∃ w1, (match queue w !! g with
                   | None => (None, w)
                   | Some (Text d) => (Some d, w)
                   | Some _ => (None, quarantine (QUEUE_DIR, g) w)
                   end) = (parsed w g, w1)
                  ∧ faults w1 = [] ∧ clock w1 = clock w
                  ∧ ∀ h, parsed w1 h = parsed w h)
      as (w1 & He & Hf1 & Hc1 & Hp1).
    { unfold parsed at 1.
      destruct (queue w !! g) as [[d|d k|j]|] eqn:Hq;
        try (by eexists);
        (eexists; split; [reflexivity|];
         destruct (quarantine_queue g w _ Hq) as (_ & _ & Hfq & Hcq);
         split; [congruence|]; split; [done|];
         intros h; apply parsed_quarantine; unfold parsed; by rewrite Hq). }
    rewrite He in H.
    destruct (read_all names w1) as [rs' w2] eqn:Hra.
    inversion H; subst.
    destruct (IH w1 rs' w' Hf1 Hra) as (-> & Hf2 & Hc2 & Hp2).
    split.
    { cbn. f_equal. apply list_fmap_ext. intros _ h _. apply Hp1. }
    split; [done|]. split; [congruence|].
    intros h. by rewrite Hp2.
Qed.

Lemma kept_Some (r : option doc) (d : doc) :
  kept r = Some d ↔ r = Some d ∧ Boolean d = true.
Proof.
  unfold kept. destruct r as [d'|].
  - destruct (Boolean d') eqn:Hb; split.
    + by intros [= <-].
    + by intros [[= <-] _].
    + done.
    + intros [[= <-] H]. congruence.
  - split; [done|]. by intros [? _].
Qed.

(** C8.  A scan of the queue (when the reads themselves are not failing:
    no fault is pending) moves every [.json] file whose text is empty, cut
    short or otherwise not JSON into [corrupted/], under its own name
    followed by the time of the scan and [.bad]; the file is no longer in
    the queue directory, and every task of the list the scan returns (and
    caches) comes from another file, one that parses.  A file whose text
    is JSON, whatever the value, is left where it is; its value is listed
    when it is truthy, and nothing that is not truthy ([null], [false],
    [0], the empty string) is ever listed. *)
Theorem C8_unparseable_file_quarantined :
  ∀ (pr : Proc) (w : World) (f : string) (c : content),
    faults w = [] →
    queue w !! f = Some c →
    endsWith f ".json" = true →
    ∃ tasks pr' w',
      getQueue true pr w = (tasks, pr', w')
      ∧ globalQueueCache pr' = Some tasks
      ∧ ((∀ d, c ≠ Text d) →
         read_file w' (QUEUE_DIR, f) = None
         ∧ read_file w' (CORRUPT_DIR, f +:+ "." +:+ pretty (clock w) +:+ ".bad")
           = Some c
         ∧ ∀ d, d ∈ tasks → ∃ g, g ≠ f ∧ queue w !! g = Some (Text d))
      ∧ (∀ d, c = Text d →
         read_file w' (QUEUE_DIR, f) = Some c
         ∧ (Boolean d = true → d ∈ tasks))
      ∧ ∀ d, d ∈ tasks → Boolean d = true.
Proof.
  intros pr w f c Hf Hq Hjson.
  assert (getQueue true pr w = scanQueue pr w) as ->
    by (unfold getQueue; by destruct (globalQueueCache pr)).
  unfold scanQueue.
  set (names := filter (λ g, endsWith g ".json" = true) (readdirSync w QUEUE_DIR)).
  assert (NoDup names) as Hnd
    by (apply NoDup_filter, NoDup_fst_map_to_list).
  assert (f ∈ names) as Hin.
  { apply list_elem_of_filter. split; [done|].
    unfold readdirSync. apply list_elem_of_fmap. exists (f, c).
    split; [done|]. by apply elem_of_map_to_list. }
  destruct (read_all names w) as [rs w'] eqn:Hra.
  destruct (read_all_parsed names w rs w' Hf Hra) as (Hrs & _ & _ & Hsame).
  eexists _, _, _. split; [reflexivity|]. split; [done|].
  split; [|split].
  - intros Hbad.
    destruct (read_all_quarantines f c (clock w) Hbad names w rs w' Hf eq_refl
                Hnd Hra) as (_ & _ & _ & Hdocs & Hmoved & _).
    destruct (Hmoved Hin Hq) as [Hgone Hthere].
    split; [done|]. split; [done|].
    intros d Hd. apply list_elem_of_omap in Hd as (r & Hr & Hk).
    apply kept_Some in Hk as [-> _].
    destruct (Hdocs d Hr) as (g & _ & Hg). exists g. split; [|done].
    intros ->. rewrite Hq in Hg. inversion Hg; subst. by destruct (Hbad d).
  - intros d ->. split.
    + change (queue w' !! f = Some (Text d)).
      specialize (Hsame f). unfold parsed in Hsame. rewrite Hq in Hsame.
      by destruct (queue w' !! f) as [[]|]; simplify_eq.
    + intros Hb. apply list_elem_of_omap. exists (Some d).
      split; [|by apply kept_Some].
      rewrite Hrs. apply list_elem_of_fmap. exists f. split; [|done].
      unfold parsed. by rewrite Hq.
  - intros d (r & Hr & Hk)%list_elem_of_omap.
    by apply kept_Some in Hk as [_ ?].
Qed.

Lemma C8_witness :
  (∃ tasks pr' w',
     getQueue true (fresh_proc 101) world_with_truncated_file = (tasks, pr', w')
     ∧ read_file w' (QUEUE_DIR, "T9.json") = None
     ∧ read_file w' (CORRUPT_DIR, "T9.json.1700000000000.bad")
       = Some (Torn (DTask T9) 28)
     ∧ ∀ d, d ∈ tasks →
         ∃ g, g ≠ "T9.json" ∧ queue world_with_truncated_file !! g = Some (Text d))
  ∧ (∃ tasks pr' w',
       getQueue true (fresh_proc 101) world_with_null_file = (tasks, pr', w')
       ∧ read_file w' (QUEUE_DIR, "T7.json") = Some (Text (DOther JNull))
       ∧ DOther JNull ∉ tasks)
  ∧ ∃ tasks pr' w',
      getQueue true (fresh_proc 101) world_with_null_file = (tasks, pr', w')
      ∧ read_file w' (QUEUE_DIR, "T8.json") = Some (Text (DOther JObject))
      ∧ DOther JObject ∈ tasks.
Proof.
  split; [|split].
  - destruct (C8_unparseable_file_quarantined (fresh_proc 101)
                world_with_truncated_file "T9.json" (Torn (DTask T9) 28)
                eq_refl eq_refl eq_refl)
      as (tasks & pr' & w' & Hq & _ & Hbad & _).
    exists tasks, pr', w'. split; [exact Hq|].
    apply Hbad. intros d H. discriminate H.
  - destruct (C8_unparseable_file_quarantined (fresh_proc 101)
                world_with_null_file "T7.json" (Text (DOther JNull))
                eq_refl eq_refl eq_refl)
      as (tasks & pr' & w' & Hq & _ & _ & Htext & Htruthy).
    exists tasks, pr', w'. split; [exact Hq|].
    split; [exact (proj1 (Htext _ eq_refl))|].
    intros Hin. apply Htruthy in Hin. discriminate Hin.
  - destruct (C8_unparseable_file_quarantined (fresh_proc 101)
                world_with_null_file "T8.json" (Text (DOther JObject))
                eq_refl eq_refl eq_refl)
      as (tasks & pr' & w' & Hq & _ & _ & Htext & _).
    exists tasks, pr', w'. split; [exact Hq|].
    split; [exact (proj1 (Htext _ eq_refl))|].
    exact (proj2 (Htext _ eq_refl) eq_refl).
Defined.

(** ** The zombie sweep *)

Lemma parseTask_ok (now : Z) (t : Task) :
  TaskSchema_issues t = [] → parseTask now t = Ok (TaskSchema_out now t).
Proof. intros H. unfold parseTask. by rewrite H. Qed.

Lemma parseTask_refuses (now : Z) (t : Task) :
  TaskSchema_issues t ≠ [] →
  parseTask now t = Throw (ZodError (TaskSchema_issues t)).
Proof. intros H. unfold parseTask. by destruct (TaskSchema_issues t). Qed.

Lemma recovered_issues (now : Z) (t : Task) :
  TaskSchema_issues t = [] → TaskSchema_issues (recovered now t) = [].
Proof.
  unfold TaskSchema_issues. intros H.
  apply app_eq_nil in H as [Hm H]. apply app_eq_nil in H as [Hs H].
  apply app_eq_nil in H as [Hp _]. simpl. by rewrite Hm, Hs, Hp.
Qed.

(** A record refused for its [meta], [spec] or [policy] stays refused
    whatever is put in its [state]. *)
Lemma parseTask_state_irrelevant (now : Z) (t : Task) (s : State) :
  outer_issues t ≠ [] →
  ∃ m, parseTask now (with_state t s) = Throw m.
Proof.
  intros H. eexists. apply parseTask_refuses.
  unfold TaskSchema_issues, outer_issues in *. simpl.
  intros Hnil. apply H.
  apply app_eq_nil in Hnil as [Hm Hnil]. apply app_eq_nil in Hnil as [Hs Hnil].
  apply app_eq_nil in Hnil as [Hp _]. by rewrite Hm, Hs, Hp.
Qed.

(** A zombie whose record the schema accepts is marked FAILED, gets the
    recovery event appended to its history, and is on disk in that form
    as soon as its turn in the loop is over. *)
Lemma sweep_one_persists (cfg : Config) (now : Z) (pr : Proc) (t : Task)
    (w : World) (h : list HistoryEvent) :
  faults w = [] →
  is_zombie cfg now t = true →
  state_history (state t) = Some h →
  TaskSchema_issues t = [] →
  ∃ w', sweep_one cfg now pr (DTask t) w
        = (Ok tt, DTask (recovered (clock w) t), setCacheDirty pr, w')
        ∧ read_file w' (task_file t)
          = Some (Text (DTask (TaskSchema_out (clock w) (recovered (clock w) t))))
        ∧ faults w' = [] ∧ clock w' = clock w.
Proof.
  intros Hf Hz Hh Hv. unfold sweep_one. rewrite Hz. simpl. rewrite Hh.
  assert (with_state t
            (with_history (h ++ [SYSTEM_RECOVERY (clock w)])
               (mark "FAILED" "Timeout de Recuperação (Zumbi)" (state t)))
          = recovered (clock w) t) as ->
    by (unfold recovered; by rewrite Hh).
  unfold saveTask.
  rewrite (parseTask_ok _ _ (recovered_issues (clock w) t Hv)).
  destruct (atomicWrite_replaces (pid pr)
              (task_file (TaskSchema_out (clock w) (recovered (clock w) t)))
              (DTask (TaskSchema_out (clock w) (recovered (clock w) t))) w Hf)
    as (w' & Hw & Hr & Hf' & _ & Hc & _).
  rewrite Hw. exists w'. done.
Qed.

(** A zombie whose record the schema refuses is changed in memory only:
    [saveTask] throws, nothing is written and the loop stops there. *)
Lemma sweep_one_refused (cfg : Config) (now : Z) (pr : Proc) (t : Task)
    (w : World) (h : list HistoryEvent) :
  is_zombie cfg now t = true →
  state_history (state t) = Some h →
  outer_issues t ≠ [] →
  ∃ m, sweep_one cfg now pr (DTask t) w
       = (Throw m, DTask (recovered (clock w) t), pr, w).
Proof.
  intros Hz Hh Hv. unfold sweep_one. rewrite Hz. simpl. rewrite Hh.
  assert (with_state t
            (with_history (h ++ [SYSTEM_RECOVERY (clock w)])
               (mark "FAILED" "Timeout de Recuperação (Zumbi)" (state t)))
          = recovered (clock w) t) as ->
    by (unfold recovered; by rewrite Hh).
  unfold saveTask.
  destruct (parseTask_state_irrelevant (clock w) t
              (state (recovered (clock w) t)) Hv) as [m Hm].
  change (with_state t (state (recovered (clock w) t)))
    with (recovered (clock w) t) in Hm.
  rewrite Hm. by exists m.
Qed.

(** C2 (the code departs from the claim).  The queue holds the record
    that the repository's own recovery test writes: RUNNING, started two
    hours ago, threshold 40 minutes.  The pass marks it FAILED in memory
    and appends the recovery event, but [saveTask] validates the record
    first and refuses its [meta.source]; [loadNextTask] throws, and the
    file on disk still says RUNNING. *)
Theorem C2_zombie_of_recovery_test_not_persisted {runtime : Runtime} :
  is_zombie DEFAULTS (clock world_with_zombie) zombie_fixture = true
  ∧ ∃ pr' w',
      loadNextTask DEFAULTS (fresh_proc 101) world_with_zombie
      = (Throw "ZodError: meta.source", pr', w')
      ∧ globalQueueCache pr'
        = Some [DTask (recovered (clock world_with_zombie) zombie_fixture)]
      ∧ read_file w' (task_file zombie_fixture) = Some (Text (DTask zombie_fixture))
      ∧ queue w' = queue world_with_zombie.
Proof.
  split; [by vm_compute|].
  eexists _, _. split; [vm_compute; reflexivity|].
  split; [reflexivity|]. split; [by vm_compute|]. reflexivity.
Qed.

(** ** Schema violations in the engine loop *)

(** When the record that [loadNextTask] selects is refused for its [meta],
    [spec] or [policy], the handler's own [saveTask] refuses it again:
    the iteration ends in the outer handler, and the world is the one
    [loadNextTask] left, ten seconds later. *)
Lemma acquireTask_refused_record {runtime : Runtime}
    (cfg : Config) (pr pr1 : Proc) (w w1 : World)
    (i : nat) (t : Task) :
  loadNextTask cfg pr w = (Ok (Some (i, t)), pr1, w1) →
  outer_issues t ≠ [] →
  ∃ m pr2, acquireTask cfg pr w = (Collapsed m, pr2, sleep 10000 w1).
Proof.
  intros Hl Ho. unfold acquireTask. rewrite Hl.
  destruct (parseTask_state_irrelevant (clock w1) t (state t) Ho) as [m Hm].
  assert (with_state t (state t) = t) as Ht by by destruct t.
  rewrite Ht in Hm. rewrite Hm.
  destruct (parseTask_state_irrelevant (clock w1) t (violation_state m) Ho)
    as [m' Hm'].
  unfold saveTask. rewrite Hm'. by eexists _, _.
Qed.

(** C5 (the code departs from the claim).  The queue holds a task as the
    repository's command-line generator writes it; the schema refuses its
    [meta.source].  The engine selects it, the handler sets FAILED on the
    object in memory and calls [saveTask], which validates the same record
    and throws: the iteration ends in the outer handler, and on disk the
    task is still PENDING with no error recorded.  While the cache lives
    the task looks FAILED to the scheduler; after the next full scan it is
    selected again and the iteration ends the same way. *)
Theorem C5_schema_violation_not_recorded {runtime : Runtime} :
  TaskSchema_issues cli_task = ["meta.source"]
  ∧ ∃ pr1 w1,
      acquireTask DEFAULTS (fresh_proc 101) world_with_cli_task
      = (Collapsed "ZodError: meta.source", pr1, w1)
      ∧ read_file w1 (task_file cli_task) = Some (Text (DTask cli_task))
      ∧ queue w1 = queue world_with_cli_task
      ∧ corrupted w1 = ∅
      ∧ globalQueueCache pr1
        = Some [DTask (with_state cli_task
                         (violation_state "ZodError: meta.source"))]
      ∧ (∃ pr2 w2, acquireTask DEFAULTS pr1 w1 = (NoTask, pr2, w2)
                   ∧ queue w2 = queue world_with_cli_task)
      ∧ ∃ pr3 w3,
          acquireTask DEFAULTS pr1 (sleep 5001 w1)
          = (Collapsed "ZodError: meta.source", pr3, w3)
          ∧ queue w3 = queue world_with_cli_task.
Proof.
  split; [by vm_compute|].
  eexists _, _. split; [vm_compute; reflexivity|].
  split; [by vm_compute|]. split; [reflexivity|]. split; [reflexivity|].
  split; [reflexivity|]. split.
  - eexists _, _. split; [vm_compute; reflexivity|]. reflexivity.
  - eexists _, _. split; [vm_compute; reflexivity|]. reflexivity.
Qed.

(** ** Dependencies *)

Lemma eqb_false (s r : string) : s ≠ r → String.eqb s r = false.
Proof. by intros ?%String.eqb_neq. Qed.

(** The scan of the dependency list goes past the dependencies that have a
    task which has not failed. *)
Lemma check_deps_missing_first (allTasks : list doc) (before : list string)
    (dep : string) (after : list string) :
  Forall (dep_alive allTasks) before →
  dep_missing allTasks dep →
  ∀ b, check_deps allTasks (before ++ dep :: after) b = Ok Blocked.
Proof.
  intros Hb Hm. induction Hb as [|x before (p & Hp & Hf & Hs) _ IH]; intros b;
    simpl.
  - unfold dep_missing in Hm. by rewrite Hm.
  - rewrite Hp. rewrite (eqb_false _ _ Hf), (eqb_false _ _ Hs). simpl. apply IH.
Qed.

Lemma check_deps_failed_first (allTasks : list doc) (before : list string)
    (dep : string) (after : list string) :
  Forall (dep_alive allTasks) before →
  dep_failed allTasks dep →
  ∀ b, check_deps allTasks (before ++ dep :: after) b = Ok ParentFailed.
Proof.
  intros Hb Hfail. induction Hb as [|x before (p & Hp & Hf & Hs) _ IH]; intros b;
    simpl.
  - destruct Hfail as [(p & Hp & Hst)|(p & Hp & Hst)]; rewrite Hp, Hst; done.
  - rewrite Hp. rewrite (eqb_false _ _ Hf), (eqb_false _ _ Hs). simpl. apply IH.
Qed.

Lemma check_deps_held (allTasks : list doc) (deps : list string) :
  Forall (dep_alive allTasks) deps →
  ∀ b, (b = true ∨ ∃ dep, dep ∈ deps ∧ ¬ dep_done allTasks dep) →
       check_deps allTasks deps b = Ok Blocked.
Proof.
  intros Hd. induction Hd as [|x deps (p & Hp & Hf & Hs) _ IH]; intros b Hb;
    simpl.
  - destruct Hb as [->|(dep & Hin & _)]; [done|]. by apply elem_of_nil in Hin.
  - rewrite Hp. rewrite (eqb_false _ _ Hf), (eqb_false _ _ Hs). simpl.
    apply IH. destruct Hb as [->|(dep & Hin & Hnd)]; [by left|].
    apply elem_of_cons in Hin as [->|Hin]; [|right; by exists dep].
    left. destruct (String.eqb (state_status (state p)) "DONE") eqn:He.
    + apply String.eqb_eq in He. destruct Hnd. by exists p.
    + by destruct b.
Qed.

Lemma check_deps_clear (allTasks : list doc) (deps : list string) :
  Forall (dep_done allTasks) deps →
  check_deps allTasks deps false = Ok Clear.
Proof.
  intros Hd. induction Hd as [|x deps (p & Hp & Hst) _ IH]; simpl; [done|].
  rewrite Hp, Hst. simpl. apply IH.
Qed.

(** What a verdict says about the dependencies. *)
Lemma check_deps_clear_inv (allTasks : list doc) (deps : list string) :
  ∀ b, check_deps allTasks deps b = Ok Clear →
       b = false ∧ Forall (dep_done allTasks) deps.
Proof.
  induction deps as [|x deps IH]; intros b H; simpl in H.
  - destruct b; [done|]. by split.
  - destruct (find_task allTasks x) as [[p|]|] eqn:Hp; [|done..].
    destruct (String.eqb (state_status (state p)) "FAILED"
              || String.eqb (state_status (state p)) "SKIPPED"); [done|].
    apply IH in H as [Hb Hd].
    apply orb_false_iff in Hb as [-> Hdone].
    apply negb_false_iff, String.eqb_eq in Hdone.
    split; [done|]. constructor; [by exists p|done].
Qed.

Lemma skip_issues (t : Task) :
  TaskSchema_issues t = [] → TaskSchema_issues (skip t) = [].
Proof.
  unfold TaskSchema_issues. intros H.
  apply app_eq_nil in H as [Hm H]. apply app_eq_nil in H as [Hs H].
  apply app_eq_nil in H as [Hp _]. simpl. by rewrite Hm, Hs, Hp.
Qed.

(** The callback on a PENDING task that is not held back by its
    not-before time and has dependencies: the verdict of the scan decides. *)
Lemma eligible_one_deps (pr : Proc) (pre rest : list doc) (t : Task) (w : World) :
  state_status (state t) = "PENDING" →
  time_locked (clock w) t = false →
  policy_dependencies (policy t) ≠ [] →
  eligible_one pr pre (DTask t) rest w
  = match check_deps (pre ++ DTask t :: rest) (policy_dependencies (policy t)) false with
    | Throw m => (Throw m, DTask t, pr, w)
    | Ok ParentFailed =>
        let '(_, pr', w') := saveTask pr (skip t) w in
        (Ok false, DTask (skip t), pr', w')
    | Ok Blocked => (Ok false, DTask t, pr, w)
    | Ok Clear => (Ok true, DTask t, pr, w)
    end.
Proof.
  intros Hs Ht Hd. unfold eligible_one. rewrite Hs, Ht. simpl.
  by destruct (policy_dependencies (policy t)).
Qed.

(** *** Selection *)

Section Selection.
Context {runtime : Runtime}.

Lemma insert_sorted_elem (x y : nat * Task) (l : list (nat * Task)) :
  y ∈ insert_sorted x l ↔ y = x ∨ y ∈ l.
Proof.
  induction l as [|z l IH]; simpl.
  - rewrite list_elem_of_singleton. split; [auto|]. intros [?|?%elem_of_nil]; done.
  - destruct (by_priority x.2 z.2 <=? 0).
    + by rewrite elem_of_cons.
    + rewrite !elem_of_cons, IH. tauto.
Qed.

Lemma sort_elem (y : nat * Task) (l : list (nat * Task)) : y ∈ sort l ↔ y ∈ l.
Proof.
  induction l as [|x l IH]; simpl; [done|].
  by rewrite insert_sorted_elem, elem_of_cons, IH.
Qed.

Lemma head_sort_elem (y : nat * Task) (l : list (nat * Task)) :
  head (sort l) = Some y → y ∈ l.
Proof. intros H. apply sort_elem. by apply head_Some_elem_of. Qed.

Lemma skipped_or_same_refl (l : list doc) : Forall2 skipped_or_same l l.
Proof. induction l; constructor; [by left|done]. Qed.

Lemma find_task_evolves (l l' : list doc) (dep : string) (p : Task) :
  Forall2 skipped_or_same l l' →
  find_task l dep = Ok (Some p) →
  ∃ p', find_task l' dep = Ok (Some p')
        ∧ (p' = p ∨ (state_status (state p) = "PENDING" ∧ p' = skip p)).
Proof.
  intros H. induction H as [|d d' l l' Hd _ IH]; intros Hf; simpl in Hf; [done|].
  destruct d as [x|lk|v]; [|done..].
  destruct Hd as [->|(t & [= <-] & Hst & ->)]; simpl.
  - destruct (String.eqb (meta_id (meta x)) dep); [|by apply IH].
    inversion Hf; subst. exists p. auto.
  - destruct (String.eqb (meta_id (meta x)) dep); [|by apply IH].
    inversion Hf; subst. exists (skip p). auto.
Qed.

Lemma dep_done_evolves (l l' : list doc) (dep : string) :
  Forall2 skipped_or_same l l' → dep_done l dep → dep_done l' dep.
Proof.
  intros H (p & Hp & Hst).
  destruct (find_task_evolves l l' dep p H Hp) as (p' & Hp' & [->|[Hpen _]]).
  - by exists p.
  - congruence.
Qed.

(** The callback changes its element by marking it SKIPPED, or not at all;
    and it keeps only PENDING tasks whose dependencies are all DONE. *)
Lemma eligible_one_effect (pr : Proc) (pre : list doc) (d : doc)
    (rest : list doc) (w : World) :
  ∀ r d' pr' w', eligible_one pr pre d rest w = (r, d', pr', w') →
    skipped_or_same d d'
    ∧ (r = Ok true →
       ∃ t, d = DTask t ∧ d' = d
            ∧ state_status (state t) = "PENDING"
            ∧ Forall (dep_done (pre ++ d :: rest)) (policy_dependencies (policy t))).
Proof.
  intros r d' pr' w' H.
  destruct d as [t|lk|v]; [|inversion H; subst; split; [by left|done]..].
  destruct (String.eqb (state_status (state t)) "PENDING") eqn:Hst.
  2:{ unfold eligible_one in H. rewrite Hst in H. simpl in H.
      inversion H; subst; split; [by left|done]. }
  destruct (time_locked (clock w) t) eqn:Htl.
  { unfold eligible_one in H. rewrite Hst, Htl in H. simpl in H.
    inversion H; subst; split; [by left|done]. }
  apply String.eqb_eq in Hst.
  destruct (policy_dependencies (policy t)) as [|dep deps] eqn:Hdeps.
  { unfold eligible_one in H. rewrite Hst, Htl, Hdeps in H. simpl in H.
    inversion H; subst. split; [by left|]. intros _. exists t. by rewrite Hdeps. }
  rewrite eligible_one_deps in H by (done || by rewrite Hdeps).
  rewrite Hdeps in H.
  destruct (check_deps (pre ++ DTask t :: rest) (dep :: deps) false)
    as [[| |]|m] eqn:Hc.
  - inversion H; subst. split; [by left|]. intros _. exists t.
    rewrite Hdeps. split; [done|]. split; [done|]. split; [done|].
    by apply check_deps_clear_inv in Hc as [_ ?].
  - inversion H; subst. split; [by left|done].
  - destruct (saveTask pr (skip t) w) as [[? ?] ?].
    inversion H; subst. split; [right; by exists t|done].
  - inversion H; subst. split; [by left|done].
Qed.

Lemma eligibility_effect (rest : list doc) :
  ∀ (pr : Proc) (pre : list doc) (w : World) r all pr' w',
    eligibility pr pre rest w = (r, all, pr', w') →
    (∃ rest', all = pre ++ rest' ∧ Forall2 skipped_or_same rest rest')
    ∧ ∀ kept, r = Ok kept →
        ∀ i t, (i, t) ∈ kept →
          all !! i = Some (DTask t)
          ∧ state_status (state t) = "PENDING"
          ∧ Forall (dep_done all) (policy_dependencies (policy t)).
Proof.
  induction rest as [|d more IH]; intros pr pre w r all pr' w' H; simpl in H.
  - inversion H; subst. split.
    + exists []. split; [by rewrite app_nil_r|constructor].
    + intros kept [= <-] i t Hin. by apply elem_of_nil in Hin.
  - destruct (eligible_one pr pre d more w) as [[[r1 d1] pr1] w1] eqn:H1.
    destruct (eligible_one_effect _ _ _ _ _ _ _ _ _ H1) as [Hstep Htrue].
    destruct r1 as [keep|m].
    2:{ inversion H; subst. split; [|done].
        exists (d1 :: more). split; [done|].
        constructor; [done|apply skipped_or_same_refl]. }
    destruct (eligibility pr1 (pre ++ [d1]) more w1) as [[[r2 all2] pr2] w2] eqn:H2.
    destruct (IH _ _ _ _ _ _ _ H2) as [(rest' & Hall & Hev) Hkept].
    assert (all2 = pre ++ d1 :: rest') as Hall'
      by (by rewrite Hall, <- app_assoc).
    destruct r2 as [kept'|m].
    2:{ inversion H; subst. split; [|done].
        exists (d1 :: rest'). split; [done|]. by constructor. }
    inversion H; subst r all pr' w'. clear H. split.
    { exists (d1 :: rest'). split; [done|]. by constructor. }
    intros kept [= <-] i t Hin.
    assert ((i, t) ∈ kept' ∨ (keep = true ∧ d1 = DTask t ∧ i = length pre))
      as [Hin'|(-> & -> & ->)].
    { destruct keep; [|by left]. destruct d1 as [t1| |]; [|by left..].
      apply elem_of_cons in Hin as [[= -> ->]|Hin]; [by right|by left]. }
    + by apply (Hkept kept' eq_refl).
    + destruct (Htrue eq_refl) as (t0 & -> & [= <-] & Hst & Hdone).
      split; [|split; [done|]].
      * rewrite Hall'. by rewrite list_lookup_middle.
      * eapply Forall_impl; [exact Hdone|]. intros dep Hd.
        apply (dep_done_evolves (pre ++ DTask t :: more)); [|done].
        rewrite Hall'. apply Forall2_app; [apply skipped_or_same_refl|].
        constructor; [by left|done].
Qed.

(** A task that [loadNextTask] selects is PENDING, sits in the cached
    queue at the index returned, and each of its dependencies is there
    with status DONE. *)
Lemma loadNextTask_selected (cfg : Config) (pr pr' : Proc) (w w' : World)
    (i : nat) (t : Task) :
  loadNextTask cfg pr w = (Ok (Some (i, t)), pr', w') →
  ∃ allTasks, globalQueueCache pr' = Some allTasks
              ∧ allTasks !! i = Some (DTask t)
              ∧ state_status (state t) = "PENDING"
              ∧ Forall (dep_done allTasks) (policy_dependencies (policy t)).
Proof.
  unfold loadNextTask. intros H.
  destruct (getQueue false pr w) as [[all0 pr0] w0].
  destruct (sweep cfg (clock w0) pr0 all0 w0) as [[[r1 all1] pr1] w1].
  destruct r1 as [[]|m]; [|done].
  destruct (eligibility pr1 [] all1 w1) as [[[r2 all2] pr2] w2] eqn:He.
  destruct r2 as [eligible|m]; [|done].
  inversion H as [[Hh Hp Hw]]. exists all2. split; [done|].
  apply head_sort_elem in Hh.
  destruct (eligibility_effect _ _ _ _ _ _ _ _ He) as [_ Hkept].
  by apply (Hkept eligible eq_refl).
Qed.

End Selection.

(** C3, as stated, does not hold.  T2 is PENDING and depends, in this
    order, on a task that is not in the queue and on T0, which has FAILED.
    The scan of the dependencies stops at the missing one: T2 is held back
    and left PENDING, although one of its dependencies has FAILED. *)
Lemma C3_counterexample : ¬ dependency_rule_as_stated.
Proof.
  intros H.
  destruct (H (fresh_proc 101) [DTask T0_failed] [] T2_waiting idle_world
              eq_refl eq_refl eq_refl eq_refl ltac:(discriminate)
              (Ok false) (DTask T2_waiting) (fresh_proc 101) idle_world eq_refl)
    as (_ & Hfailed & _).
  destruct Hfailed as (_ & Hskipped & _).
  - exists "T0". split.
    + apply elem_of_cons. right. apply elem_of_cons. by left.
    + left. exists T0_failed. by split.
  - discriminate Hskipped.
Qed.

(** C3, amended.  For a PENDING task with dependencies whose not-before
    time is unset or has passed, the dependency ids are looked up in
    order, each among the queued tasks, and the first one that has no
    task or whose task is FAILED or SKIPPED decides.  If it has no task,
    the task is not selected and stays as it is.  If its task is FAILED or
    SKIPPED, the task is set to SKIPPED and not selected, and when its
    record passes the schema (and no fault is pending) the SKIPPED record
    is on disk when the callback returns.  If every dependency has a task
    that is neither FAILED nor SKIPPED and one of them is not DONE, the
    task is not selected.  If all are DONE the callback keeps the task.
    And whatever [loadNextTask] selects is a PENDING task of the cached
    queue whose dependencies are all there with status DONE. *)
Theorem C3_dependency_resolution_in_order {runtime : Runtime} :
  (∀ (pr : Proc) (pre rest : list doc) (t : Task) (w : World),
     let allTasks := pre ++ DTask t :: rest in
     let deps := policy_dependencies (policy t) in
     state_status (state t) = "PENDING" →
     time_locked (clock w) t = false →
     deps ≠ [] →
     (∀ before dep after,
        deps = before ++ dep :: after →
        Forall (dep_alive allTasks) before →
        dep_missing allTasks dep →
        eligible_one pr pre (DTask t) rest w = (Ok false, DTask t, pr, w))
     ∧ (∀ before dep after,
          deps = before ++ dep :: after →
          Forall (dep_alive allTasks) before →
          dep_failed allTasks dep →
          ∃ pr' w',
            eligible_one pr pre (DTask t) rest w
            = (Ok false, DTask (skip t), pr', w')
            ∧ (faults w = [] → TaskSchema_issues t = [] →
               read_file w' (task_file t)
               = Some (Text (DTask (TaskSchema_out (clock w) (skip t))))))
     ∧ (Forall (dep_alive allTasks) deps →
        (∃ dep, dep ∈ deps ∧ ¬ dep_done allTasks dep) →
        eligible_one pr pre (DTask t) rest w = (Ok false, DTask t, pr, w))
     ∧ (Forall (dep_done allTasks) deps →
        eligible_one pr pre (DTask t) rest w = (Ok true, DTask t, pr, w)))
  ∧ (∀ (cfg : Config) (pr pr' : Proc) (w w' : World) (i : nat) (t : Task),
       loadNextTask cfg pr w = (Ok (Some (i, t)), pr', w') →
       ∃ allTasks,
         globalQueueCache pr' = Some allTasks
         ∧ allTasks !! i = Some (DTask t)
         ∧ state_status (state t) = "PENDING"
         ∧ Forall (dep_done allTasks) (policy_dependencies (policy t))).
Proof.
  split; [|apply loadNextTask_selected].
  intros pr pre rest t w allTasks deps Hst Htl Hdeps.
  pose proof (eligible_one_deps pr pre rest t w Hst Htl Hdeps) as He.
  fold allTasks deps in He.
  split; [|split; [|split]].
  - intros before dep after Heq Hb Hm. rewrite He, Heq.
    by rewrite (check_deps_missing_first allTasks before dep after Hb Hm).
  - intros before dep after Heq Hb Hf. rewrite He, Heq.
    rewrite (check_deps_failed_first allTasks before dep after Hb Hf).
    destruct (saveTask pr (skip t) w) as [[r pr'] w'] eqn:Hs.
    exists pr', w'. split; [done|]. intros Hfl Hv.
    unfold saveTask in Hs.
    rewrite (parseTask_ok _ _ (skip_issues t Hv)) in Hs.
    destruct (atomicWrite_replaces (pid pr)
                (task_file (TaskSchema_out (clock w) (skip t)))
                (DTask (TaskSchema_out (clock w) (skip t))) w Hfl)
      as (w1 & Hw & Hr & _).
    rewrite Hw in Hs. by inversion Hs; subst.
  - intros Ha Hn. rewrite He.
    by rewrite (check_deps_held allTasks deps Ha false (or_intror Hn)).
  - intros Hd. rewrite He. by rewrite (check_deps_clear allTasks deps Hd).
Qed.

Lemma C3_witness :
  ∃ pr' w',
    eligible_one (fresh_proc 101) [DTask T0_failed] (DTask T3_dependent) []
      idle_world
    = (Ok false, DTask (skip T3_dependent), pr', w')
    ∧ read_file w' (task_file T3_dependent)
      = Some (Text (DTask (TaskSchema_out (clock idle_world) (skip T3_dependent)))).
Proof.
  destruct (proj1 (proj2 (proj1 C3_dependency_resolution_in_order
              (fresh_proc 101) [DTask T0_failed] [] T3_dependent idle_world
              eq_refl eq_refl ltac:(discriminate)))
            [] "T0" [] eq_refl (Forall_nil_2 _)
            (or_introl (ex_intro _ T0_failed (conj eq_refl eq_refl))))
    as (pr' & w' & He & Hp).
  exists pr', w'. split; [exact He|]. apply Hp; reflexivity.
Defined.

(** ** The completion protocol *)

(** A number is never greater than a promise. *)
Section Completion.
Context {runtime : Runtime}.

Lemma js_gt_promise (gap : Z) (p : promise Adjusted) :
  js_gt (ONum gap) (OPromise p) = false.
Proof. reflexivity. Qed.

Lemma waitForCompletion_loop_no_stall (fuel : nat) :
  ∀ self estimate page k start wd lastText stableCycles d,
    waitForCompletion_loop fuel self estimate page k start wd lastText stableCycles
    ≠ Failed ("STALL_DETECTED: " +:+ d).
Proof.
  induction fuel as [|fuel IH]; intros self estimate page k start wd lastText
    stableCycles d; cbn [waitForCompletion_loop]; [done|].
  destruct (_detectLanguage self); [|done].
  destruct (String.eqb (diagnoseStall (page k)) "LIMIT_REACHED"); [done|].
  destruct (String.eqb (diagnoseStall (page k)) "CAPTCHA"); [done|].
  destruct (String.eqb (diagnoseStall (page k)) "LOGIN_REQUIRED"); [done|].
  match goal with |- context [if ?c then Completed _ else _] => destruct c end;
    [done|].
  rewrite js_gt_promise. apply IH.
Qed.

(** The driver as the classes build it fails at its first poll. *)
Lemma waitForCompletion_not_a_function (fuel : nat) (cfg : Config)
    (estimate : string → Z → string → Z) (page : nat → Snapshot)
    (startSnapshot : nat) (wd0 : option Z) :
  waitForCompletion (S fuel) (ChatGPTDriver cfg) estimate page startSnapshot wd0
  = Failed not_a_function.
Proof. reflexivity. Qed.

Lemma frozen_page_polls_forever (fuel : nat) :
  ∀ self estimate k wd,
    is_Some (_detectLanguage self) →
    (STABLE_CYCLES (driver_config self) = None
     ∨ ∃ n, STABLE_CYCLES (driver_config self) = Some n ∧ 1 ≤ n) →
    waitForCompletion_loop fuel self estimate frozen_page k 0 wd "" 0 = Polling.
Proof.
  induction fuel as [|fuel IH]; intros self estimate k wd [detect Hm] Hc;
    cbn [waitForCompletion_loop]; [done|].
  rewrite Hm.
  change (diagnoseStall (frozen_page k)) with "UNKNOWN".
  change (assistant (frozen_page k)) with (@nil string).
  change (mutated (frozen_page k)) with (@None Z).
  cbn [String.eqb Ascii.eqb Bool.eqb drop String.concat default].
  change (trim "") with "". cbn [String.eqb negb andb].
  rewrite js_gt_promise.
  destruct Hc as [Hn|(n & Hn & Hle)]; rewrite Hn.
  - apply IH; [by exists detect|by left].
  - rewrite bool_decide_eq_false_2 by lia.
    apply IH; [by exists detect|]. right. by exists n.
Qed.

(** C6 (the code departs from the claim).  [waitForCompletion] never
    raises STALL_DETECTED, for no driver object, no page, no
    configuration and no estimate.  As the classes are, the first line of
    the loop calls [this._detectLanguage()], a method that no class of
    the driver defines: every call that reaches its first poll ends
    there with a TypeError, which is not the stall failure of the claim.
    And on a driver object to which that method has been added, the gap
    is compared with what [getAdjustedTimeout] hands back, which is a
    promise and not a number: the comparison is false whatever the gap,
    so the branch that raises STALL_DETECTED is never taken.  On a page
    where nothing happens (no mutation, no network, no spinner, no
    blocker: the diagnosis is UNKNOWN), with the watchdog timestamp five
    minutes old at the first poll and the longest adaptive timeout being
    five minutes, such a driver is still polling after any number of
    rounds. *)
Theorem C6_stall_is_never_raised :
  (∀ fuel self estimate page startSnapshot wd0 d,
     waitForCompletion fuel self estimate page startSnapshot wd0
     ≠ Failed ("STALL_DETECTED: " +:+ d))
  ∧ (∀ fuel cfg estimate page startSnapshot wd0,
       waitForCompletion (S fuel) (ChatGPTDriver cfg) estimate page
         startSnapshot wd0
       = Failed "TypeError: this._detectLanguage is not a function")
  ∧ (∀ k, diagnoseStall (frozen_page k) = "UNKNOWN"
          ∧ mutated (frozen_page k) = None
          ∧ date_now (frozen_page (S k)) - default 0 frozen_since > 300000)
  ∧ (∀ estimate target messageCount phase,
       match getAdjustedTimeout estimate target messageCount phase with
       | Resolved a => adj_timeout a ≤ 300000
       | Rejected _ => True
       end)
  ∧ (∀ fuel estimate,
       waitForCompletion fuel (patched_driver DEFAULTS) estimate frozen_page 0
         frozen_since = Polling
       ∧ waitForCompletion fuel (patched_driver configured) estimate
           frozen_page 0 frozen_since = Polling).
Proof.
  split; [intros; apply waitForCompletion_loop_no_stall|].
  split; [intros; apply waitForCompletion_not_a_function|].
  split.
  { intros k. split; [done|]. split; [done|].
    unfold frozen_page, frozen_since. cbn [date_now default id]. lia. }
  split.
  { intros estimate [t|n] mc ph; simpl; [lia|done]. }
  intros fuel estimate. split; apply frozen_page_polls_forever.
  - by eexists.
  - by left.
  - by eexists.
  - right. by exists 3.
Qed.

End Completion.

(** ** The connection orchestrator *)

Module OrchestratorProps.
Import Orchestrator OrchestratorSpec.

Lemma follows_refl (o : Orch) : follows o o.
Proof. split; [done|]. exists []. by rewrite app_nil_r. Qed.

Lemma follows_trans (o1 o2 o3 : Orch) :
  follows o1 o2 → follows o2 o3 → follows o1 o3.
Proof.
  intros [Hc1 (n1 & Hs1 & Hf1)] [Hc2 (n2 & Hs2 & Hf2)].
  split; [congruence|]. exists (n1 ++ n2).
  split; [by rewrite Hs2, Hs1, app_assoc|].
  apply Forall_app. split; [done|]. by rewrite <- Hc1.
Qed.

Lemma quiet_follows (o o' : Orch) : quiet o o' → follows o o'.
Proof.
  intros [Hc Hs]. split; [done|]. exists []. by rewrite app_nil_r.
Qed.

Lemma quiet_trans (o1 o2 o3 : Orch) : quiet o1 o2 → quiet o2 o3 → quiet o1 o3.
Proof. intros [Hc1 Hs1] [Hc2 Hs2]. split; congruence. Qed.

Lemma setState_quiet (s : STATES) (o : Orch) :
  quiet o (setState s o) ∧ browser (setState s o) = browser o
  ∧ page (setState s o) = page o ∧ tick (setState s o) = tick o
  ∧ retryCount (setState s o) = retryCount o.
Proof. unfold setState. by destruct (decide (state o = s)). Qed.

Lemma setState_state (s : STATES) (o : Orch) : state (setState s o) = s.
Proof. unfold setState. by destruct (decide (state o = s)). Qed.

(** The handlers of the browser's events take no timed wait and leave the
    options alone. *)
Lemma deliver_quiet (c : Chrome) (e : Event) (o : Orch) :
  quiet o (deliver c o e).
Proof.
  unfold deliver. destruct (browser o); [|done].
  destruct e as [|type u].
  - unfold _handleDisconnect.
    match goal with |- quiet _ (setState ?s ?o1) =>
      destruct (setState_quiet s o1) as ([Hc Hs] & _) end.
    by split.
  - unfold _handleTargetDestroyed. destruct (page o) as [p|]; [|done].
    destruct (String.eqb type "page" && String.eqb u (url c p)
              && isClosed c p); [|done].
    match goal with |- quiet _ (setState ?s ?o1) =>
      destruct (setState_quiet s o1) as ([Hc Hs] & _) end.
    by split.
Qed.

Lemma awaited_quiet (c : Chrome) (o : Orch) : quiet o (awaited c o).
Proof.
  unfold awaited.
  apply (quiet_trans o (next_tick o)); [done|].
  generalize (next_tick o). induction (events c) as [|e es IH]; intros o1.
  - done.
  - simpl. eapply quiet_trans; [apply deliver_quiet|apply IH].
Qed.




Lemma awaited_calm (c : Chrome) (o : Orch) :
  events c = [] → awaited c o = next_tick o.
Proof. unfold awaited. by intros ->. Qed.

Lemma nap_follows (c : Chrome) (k : pause) (ms : Q) (o : Orch) :
  nap_as_coded (config o)
    {| nap_pause := k; nap_retry := retryCount o; nap_ms := ms |} →
  follows o (nap c k ms o).
Proof.
  intros H. unfold nap.
  match goal with |- follows _ (awaited c ?o1) =>
    destruct (awaited_quiet c o1) as [Hc Hs] end.
  split; [done|]. eexists. split; [exact Hs|]. by constructor.
Qed.

Lemma nap_calm (c : Chrome) (k : pause) (ms : Q) (o : Orch) :
  events c = [] →
  browser (nap c k ms o) = browser o ∧ page (nap c k ms o) = page o.
Proof. intros H. unfold nap. by rewrite awaited_calm. Qed.

Section Run.
Variable env : nat → Chrome.

Lemma tryConnect_quiet (probe : Chrome → Z → option Browser) (ps : list Z) :
  ∀ o b o', tryConnect env probe ps o = (b, o') → quiet o o'.
Proof.
  induction ps as [|port ps IH]; intros o b o' H; simpl in H.
  - by inversion H; subst.
  - destruct (probe (env (tick o)) port).
    + inversion H; subst. apply awaited_quiet.
    + apply IH in H. eapply quiet_trans; [apply awaited_quiet|done].
Qed.

Lemma connect_quiet (strategies : list string) :
  ∀ o b o', connect env strategies o = (b, o') → quiet o o'.
Proof.
  induction strategies as [|s strategies IH]; intros o b o' H; simpl in H.
  - by inversion H; subst.
  - assert (∃ b1 o1,
              (if String.eqb s "BROWSER_URL" then tryConnectBrowserURL env o
               else if String.eqb s "WS_ENDPOINT" then tryConnectWSEndpoint env o
               else (None, o)) = (b1, o1)
              ∧ quiet o o1) as (b1 & o1 & He & Hq).
    { destruct (String.eqb s "BROWSER_URL");
        [|destruct (String.eqb s "WS_ENDPOINT")].
      - destruct (tryConnectBrowserURL env o) as [b1 o1] eqn:Ht.
        exists b1, o1. split; [done|]. by apply tryConnect_quiet in Ht.
      - destruct (tryConnectWSEndpoint env o) as [b1 o1] eqn:Ht.
        exists b1, o1. split; [done|]. by apply tryConnect_quiet in Ht.
      - by exists None, o. }
    rewrite He in H. destruct b1.
    + by inversion H; subst.
    + apply IH in H. by eapply quiet_trans.
Qed.





(** [ensureBrowser] never throws; when it answers, the browser it answers
    is the one it holds, and every wait it took was a connection retry
    with the delay of the formula. *)
Lemma ensureBrowser_loop_effect (fuel : nat) :
  ∀ o, match ensureBrowser_loop env fuel o with
       | Done b o' => follows o o' ∧ browser o' = Some b
       | Raised _ _ => False
       | Looping => True
       end.
Proof.
  induction fuel as [|fuel IH]; intros o; simpl; [done|].
  destruct (setState_quiet CONNECTING_BROWSER o) as (Hq0 & _).
  destruct (connect env (connectionStrategies (config (setState CONNECTING_BROWSER o)))
              (setState CONNECTING_BROWSER o)) as [[b|] o2] eqn:Hcon;
    apply connect_quiet in Hcon.
  - destruct (setState_quiet BROWSER_READY
                (set_retryCount 0 (set_browser (Some b) o2)))
      as (Hq1 & Hb1 & _).
    split; [|by rewrite Hb1].
    apply quiet_follows.
    eapply quiet_trans; [exact Hq0|]. eapply quiet_trans; [exact Hcon|].
    eapply quiet_trans; [|exact Hq1]. done.
  - set (o5 := setState RETRY_BROWSER
                 (classifyIssue "BROWSER_NOT_STARTED"
                    "Chrome não encontrado (Porta fechada)"
                    (set_retryCount (retryCount o2 + 1) o2))).
    destruct (setState_quiet RETRY_BROWSER
                (classifyIssue "BROWSER_NOT_STARTED"
                   "Chrome não encontrado (Porta fechada)"
                   (set_retryCount (retryCount o2 + 1) o2)))
      as (Hq5 & _).
    fold o5 in Hq5.
    match goal with |- context [ensureBrowser_loop env fuel ?o6] =>
      specialize (IH o6);
      assert (follows o o6) as Hf6;
      [|destruct (ensureBrowser_loop env fuel o6) as [b o'| |]; [|done..]]
    end.
    + apply (follows_trans o o5); [|by apply nap_follows].
      apply quiet_follows.
      eapply quiet_trans; [exact Hq0|]. eapply quiet_trans; [exact Hcon|].
      eapply quiet_trans; [|exact Hq5]. done.
    + destruct IH as (Hf & Hb'). split; [by eapply follows_trans|done].
Qed.

Lemma ensureBrowser_effect (fuel : nat) (o : Orch) :
  match ensureBrowser env fuel o with
  | Done b o' => follows o o' ∧ browser o' = Some b
  | Raised _ _ => False
  | Looping => True
  end.
Proof.
  unfold ensureBrowser.
  destruct (setState_quiet WAITING_FOR_BROWSER o) as (Hq0 & Hb0 & _).
  set (o1 := setState WAITING_FOR_BROWSER o) in *.
  assert (match ensureBrowser_loop env fuel (cleanup o1) with
          | Done b o' => follows o o' ∧ browser o' = Some b
          | Raised _ _ => False
          | Looping => True
          end) as Hloop.
  { pose proof (ensureBrowser_loop_effect fuel (cleanup o1)) as H.
    destruct (ensureBrowser_loop env fuel (cleanup o1)) as [b o'| |]; [|done..].
    destruct H as (Hf & Hb). split; [|done].
    apply (follows_trans o (cleanup o1)); [|done].
    apply quiet_follows. eapply quiet_trans; [exact Hq0|]. done. }
  destruct (browser o1) as [b|] eqn:Hbo1; [|done].
  destruct (isConnected (env (tick o1)) b); [|done].
  destruct (setState_quiet BROWSER_READY o1) as (Hq1 & Hb1 & _).
  split; [apply quiet_follows; by eapply quiet_trans|]. congruence.
Qed.

(** [ensurePage] answers the page it holds.  With no event in between it
    still holds the browser it started with. *)
Lemma ensurePage_loop_effect (fuel : nat) :
  ∀ o, match ensurePage_loop env fuel o with
       | Done p o' =>
           follows o o' ∧ page o' = Some p
           ∧ (uneventful env → browser o' = browser o)
       | Raised _ o' => follows o o'
       | Looping => True
       end.
Proof.
  induction fuel as [|fuel IH]; intros o; simpl; [done|].
  destruct (browser o) as [b|] eqn:Hb; [|apply follows_refl].
  destruct (isConnected (env (tick o)) b); simpl; [|apply follows_refl].
  unfold scanForTargetPage.
  pose proof (awaited_quiet (env (tick o)) o) as Hqa.
  destruct (pages (env (tick o)) b) as [ps|m].
  - match goal with |- context [if ?c then last ?l else head ?l] =>
      destruct (if c then last l else head l) as [p|] end.
    + destruct (setState_quiet PAGE_SELECTED
                  (set_page (Some p) (awaited (env (tick o)) o)))
        as (Hq1 & Hb1 & Hp1 & _).
      split; [apply quiet_follows; eapply quiet_trans; [exact Hqa|];
              eapply quiet_trans; [|exact Hq1]; done|].
      split; [by rewrite Hp1|].
      intros Hcalm. rewrite Hb1. simpl. by rewrite awaited_calm.
    + match goal with |- context [ensurePage_loop env fuel (nap ?c ?k ?ms ?o1)] =>
        specialize (IH (nap c k ms o1));
        assert (follows o (nap c k ms o1)) as Hfo
          by (apply (follows_trans o o1);
              [by apply quiet_follows|by apply nap_follows]);
        assert (uneventful env → browser (nap c k ms o1) = browser o) as Hbo
          by (intros Hcalm; destruct (nap_calm c k ms o1 (Hcalm _)) as [-> _];
              simpl; by rewrite awaited_calm);
        destruct (ensurePage_loop env fuel (nap c k ms o1)) as [p o'|m o'|];
        [| |done]
      end.
      * destruct IH as (Hf & Hp & Hb'). split; [by eapply follows_trans|].
        split; [done|]. intros Hcalm. by rewrite (Hb' Hcalm), (Hbo Hcalm).
      * by eapply follows_trans.
  - destruct (includes m "Browser lost").
    + by apply quiet_follows.
    + match goal with |- context [ensurePage_loop env fuel (nap ?c ?k ?ms ?o1)] =>
        specialize (IH (nap c k ms o1));
        assert (follows o (nap c k ms o1)) as Hfo
          by (apply (follows_trans o o1);
              [by apply quiet_follows|by apply nap_follows]);
        assert (uneventful env → browser (nap c k ms o1) = browser o) as Hbo
          by (intros Hcalm; destruct (nap_calm c k ms o1 (Hcalm _)) as [-> _];
              by rewrite awaited_calm);
        destruct (ensurePage_loop env fuel (nap c k ms o1)) as [p o'|m' o'|];
        [| |done]
      end.
      * destruct IH as (Hf & Hp & Hb'). split; [by eapply follows_trans|].
        split; [done|]. intros Hcalm. by rewrite (Hb' Hcalm), (Hbo Hcalm).
      * by eapply follows_trans.
Qed.

Lemma ensurePage_effect (fuel : nat) (o : Orch) :
  match ensurePage env fuel o with
  | Done p o' =>
      follows o o' ∧ page o' = Some p
      ∧ (uneventful env → browser o' = browser o)
  | Raised _ o' => follows o o'
  | Looping => True
  end.
Proof.
  unfold ensurePage.
  destruct (setState_quiet WAITING_FOR_PAGE o) as (Hq0 & Hb0 & Hp0 & _).
  set (o1 := setState WAITING_FOR_PAGE o) in *.
  assert (follows o o1) as Hf1 by (by apply quiet_follows).
  assert (match ensurePage_loop env fuel o1 with
          | Done p o' =>
              follows o o' ∧ page o' = Some p
              ∧ (uneventful env → browser o' = browser o)
          | Raised _ o' => follows o o'
          | Looping => True
          end) as Hloop.
  { pose proof (ensurePage_loop_effect fuel o1) as H.
    destruct (ensurePage_loop env fuel o1) as [p o'|m o'|]; [| |done].
    - destruct H as (Hf & Hp & Hb). split; [by eapply follows_trans|].
      split; [done|]. intros Hcalm. rewrite (Hb Hcalm). done.
    - by eapply follows_trans. }
  destruct (page o1) as [p|] eqn:Hpo1; [|done].
  destruct (isClosed (env (tick o1)) p); simpl; [done|].
  destruct (setState_quiet PAGE_SELECTED o1) as (Hq1 & Hb1 & Hp1 & _).
  split; [|split; [congruence|intros _; congruence]].
  eapply follows_trans; [exact Hf1|]. by apply quiet_follows.
Qed.

(** A page passes validation only if it is found open.  With no event in
    between, the orchestrator still holds its browser and, when the page
    passes, its page. *)
Lemma validatePage_effect (p : Page) (o : Orch) :
  ∀ ok o', validatePage env p o = (ok, o') →
    follows o o'
    ∧ (ok = true →
       state o' = PAGE_VALIDATED ∧ ∃ k, isClosed (env k) p = false)
    ∧ (uneventful env →
       browser o' = browser o ∧ (ok = true → page o' = page o)).
Proof.
  intros ok o' H. unfold validatePage in H.
  destruct (setState_quiet VALIDATING_PAGE o) as (Hq0 & Hb0 & Hp0 & _).
  set (o1 := setState VALIDATING_PAGE o) in *.
  destruct (isClosed (env (tick o1)) p) eqn:Hclosed; inversion H; subst.
  - destruct (setState_quiet PAGE_INVALID (set_page None o1))
      as (Hq1 & Hb1 & _).
    split; [apply quiet_follows; eapply quiet_trans; [exact Hq0|];
            eapply quiet_trans; [|exact Hq1]; done|].
    split; [done|]. intros _. split; [|done]. rewrite Hb1. simpl. done.
  - destruct (setState_quiet PAGE_VALIDATED (awaited (env (tick o1)) o1))
      as (Hq1 & Hb1 & Hp1 & _).
    split; [apply quiet_follows; eapply quiet_trans; [exact Hq0|];
            eapply quiet_trans; [apply awaited_quiet|exact Hq1]|].
    split.
    + intros _. split; [apply setState_state|]. by exists (tick o1).
    + intros Hcalm. rewrite Hb1, Hp1, awaited_calm by apply Hcalm.
      simpl. by split.
Qed.

Lemma acquireContext_loop_effect (fuel : nat) :
  ∀ o, match acquireContext_loop env fuel o with
       | Done (b, p) o' =>
           follows o o' ∧ state o' = READY
           ∧ b = browser o' ∧ p = page o'
           ∧ (uneventful env →
              is_Some b ∧ ∃ pg k, p = Some pg ∧ isClosed (env k) pg = false)
       | Raised _ _ => False
       | Looping => True
       end.
Proof.
  induction fuel as [|fuel IH]; intros o; simpl; [done|].
  pose proof (ensureBrowser_effect fuel o) as HB.
  destruct (ensureBrowser env fuel o) as [b o1| |]; [|done..].
  destruct HB as [Hf1 Hb1].
  pose proof (ensurePage_effect fuel o1) as HP.
  destruct (ensurePage env fuel o1) as [p o2|m o2|]; [| |done].
  - destruct HP as (Hf2 & Hp2 & Hb2).
    destruct (validatePage env p o2) as [ok o3] eqn:Hv.
    apply validatePage_effect in Hv as (Hf3 & Hok & Hcalm3).
    assert (follows o o3) as Hf
      by (eapply follows_trans; [exact Hf1|]; by eapply follows_trans).
    destruct ok.
    + destruct (Hok eq_refl) as (Hst & k & Hk).
      destruct (setState_quiet READY o3) as (Hq4 & Hb4 & Hp4 & _).
      split; [eapply follows_trans; [exact Hf|]; by apply quiet_follows|].
      split; [apply setState_state|]. split; [done|]. split; [done|].
      intros Hcalm. destruct (Hcalm3 Hcalm) as [Hb3 Hp3].
      split; [rewrite Hb4, Hb3, (Hb2 Hcalm), Hb1; by eexists|].
      exists p, k. split; [|done]. rewrite Hp4, (Hp3 eq_refl). done.
    + specialize (IH o3).
      destruct (acquireContext_loop env fuel o3) as [[b' p'] o'| |]; [|done..].
      destruct IH as (Hf' & IH). split; [by eapply follows_trans|done].
  - match goal with |- context [acquireContext_loop env fuel ?o3] =>
      specialize (IH o3);
      assert (follows o o3) as Hf;
      [|destruct (acquireContext_loop env fuel o3) as [[b' p'] o'| |]; [|done..]]
    end.
    + eapply follows_trans; [exact Hf1|].
      eapply follows_trans; [exact HP|]. by apply nap_follows.
    + destruct IH as (Hf' & IH). split; [by eapply follows_trans|done].
Qed.

End Run.



(** When Chrome quits while the tab is being brought to the front, the
    [disconnected] handler clears [this.browser] and [this.page] during the
    [await] of [validatePage], which then answers true all the same: the
    call returns in state READY with neither a browser nor a page. *)
Lemma acquireContext_disconnected_while_validating :
  ∃ o', acquireContext chrome_quits_late 10 (create DEFAULTS)
        = Done (None, None) o'
        ∧ state o' = READY.
Proof. eexists. split; [vm_compute; reflexivity|reflexivity]. Qed.




End OrchestratorProps.

(** * Further properties *)

(** ** Strings *)

Lemma String_app_assoc (a b c : string) : (a +:+ b) +:+ c = a +:+ (b +:+ c).
Proof. induction a as [|x a IH]; [done|]. by rewrite !String_app_cons, IH. Qed.

Lemma String_app_nil_r (a : string) : a +:+ "" = a.
Proof. induction a as [|x a IH]; [done|]. by rewrite String_app_cons, IH. Qed.

Lemma rev_app_spec (s1 s2 : string) :
  String.rev_app s1 s2 = String.rev s1 +:+ s2.
Proof.
  unfold String.rev. revert s2.
  induction s1 as [|a s1 IH]; intros s2; [done|].
  cbn. rewrite (IH (String a s2)), (IH (String a "")).
  by rewrite String_app_assoc.
Qed.

Lemma rev_cons (a : Ascii.ascii) (s : string) :
  String.rev (String a s) = String.rev s +:+ String a "".
Proof. unfold String.rev at 1. cbn. apply rev_app_spec. Qed.

Lemma rev_app_distr (s1 s2 : string) :
  String.rev (s1 +:+ s2) = String.rev s2 +:+ String.rev s1.
Proof.
  induction s1 as [|a s1 IH].
  - change ("" +:+ s2) with s2. by rewrite String_app_nil_r.
  - by rewrite String_app_cons, !rev_cons, IH, String_app_assoc.
Qed.

Lemma rev_involutive (s : string) : String.rev (String.rev s) = s.
Proof.
  induction s as [|a s IH]; [done|].
  by rewrite rev_cons, rev_app_distr, IH.
Qed.

Lemma all_chars_app (f : Ascii.ascii → bool) (a b : string) :
  all_chars f (a +:+ b) = all_chars f a && all_chars f b.
Proof.
  induction a as [|x a IH]; [done|]. rewrite String_app_cons. cbn.
  rewrite IH. by destruct (f x).
Qed.

Lemma all_chars_rev (f : Ascii.ascii → bool) (s : string) :
  all_chars f (String.rev s) = all_chars f s.
Proof.
  induction s as [|a s IH]; [done|].
  rewrite rev_cons, all_chars_app, IH. cbn.
  destruct (f a), (all_chars f s); done.
Qed.

Lemma filter_chars_all (f : Ascii.ascii → bool) (s : string) :
  all_chars f (filter_chars f s) = true.
Proof.
  induction s as [|a s IH]; [done|]. cbn.
  destruct (f a) eqn:Hf; [|done]. cbn. by rewrite Hf.
Qed.

Lemma filter_chars_id (f : Ascii.ascii → bool) (s : string) :
  all_chars f s = true → filter_chars f s = s.
Proof.
  induction s as [|a s IH]; [done|]. cbn.
  destruct (f a); [|done]. cbn. intros H. by rewrite IH.
Qed.

(** *** trim *)

Lemma trimStart_split (s : string) :
  ∃ u, s = u +:+ trimStart s ∧ all_chars is_space u = true.
Proof.
  induction s as [|a s (u & Hs & Hu)].
  - by exists "".
  - cbn. destruct (is_space a) eqn:Ha.
    + exists (String a u). rewrite String_app_cons. cbn.
      rewrite Ha, Hu. by rewrite <- Hs.
    + by exists "".
Qed.

Lemma trimStart_clean (s : string) : starts_clean (trimStart s).
Proof.
  induction s as [|a s IH]; [done|]. cbn.
  by destruct (is_space a) eqn:Ha.
Qed.

Lemma trimStart_fixed (s : string) : starts_clean s → trimStart s = s.
Proof. destruct s as [|a s]; [done|]. cbn. by intros ->. Qed.

Lemma starts_clean_app (a b : string) :
  a ≠ "" → starts_clean (a +:+ b) → starts_clean a.
Proof. by destruct a. Qed.

Lemma trim_split (s : string) :
  ∃ u v, s = u +:+ trim s +:+ v
         ∧ all_chars is_space u = true ∧ all_chars is_space v = true.
Proof.
  destruct (trimStart_split s) as (u & Hs & Hu).
  destruct (trimStart_split (String.rev (trimStart s))) as (v & Hr & Hv).
  exists u, (String.rev v). split; [|split; [done|by rewrite all_chars_rev]].
  unfold trim. rewrite <- rev_app_distr, <- Hr, rev_involutive. done.
Qed.

Lemma trim_clean (s : string) :
  starts_clean (trim s) ∧ starts_clean (String.rev (trim s)).
Proof.
  split.
  - destruct (trimStart_split (String.rev (trimStart s))) as (v & Hr & Hv).
    destruct (decide (trim s = "")) as [->|Hne]; [done|].
    apply (starts_clean_app _ (String.rev v)); [done|].
    unfold trim. rewrite <- rev_app_distr, <- Hr, rev_involutive.
    apply trimStart_clean.
  - unfold trim. rewrite rev_involutive. apply trimStart_clean.
Qed.

Lemma trim_fixed (s : string) :
  starts_clean s → starts_clean (String.rev s) → trim s = s.
Proof.
  intros H1 H2. unfold trim.
  by rewrite (trimStart_fixed s H1), (trimStart_fixed _ H2), rev_involutive.
Qed.

Lemma trim_idem (s : string) : trim (trim s) = trim s.
Proof. destruct (trim_clean s). by apply trim_fixed. Qed.

Lemma all_chars_trim (f : Ascii.ascii → bool) (s : string) :
  all_chars f s = true → all_chars f (trim s) = true.
Proof.
  destruct (trim_split s) as (u & v & Hs & _). intros H.
  rewrite Hs, !all_chars_app in H.
  by apply andb_prop in H as [_ [H _]%andb_prop].
Qed.

(** ** The task schema *)

Lemma sanitized_all (m : string) :
  all_chars (λ c, negb (is_control c)) (sanitized m) = true.
Proof. apply filter_chars_all. Qed.

(** On a text with no control character the schema's cleaning is [trim]. *)
Lemma sanitized_trim (m : string) :
  all_chars (λ c, negb (is_control c)) m = true → sanitized m = trim m.
Proof. intros H. unfold sanitized. by rewrite filter_chars_id; [|apply all_chars_trim]. Qed.

Lemma sanitized_twice (m : string) :
  sanitized (sanitized (sanitized m)) = sanitized (sanitized m).
Proof.
  rewrite (sanitized_trim (sanitized m)) by apply sanitized_all.
  rewrite sanitized_trim by (apply all_chars_trim, sanitized_all).
  apply trim_idem.
Qed.

Lemma datetime_or_now_idem (now now' : Z) (d : datestr) :
  datetime_or_now now' (datetime_or_now now d) = datetime_or_now now d.
Proof. by destruct d. Qed.

Lemma clamp_idem (p : Z) :
  Z.max 0 (Z.min 100 (Z.max 0 (Z.min 100 p))) = Z.max 0 (Z.min 100 p).
Proof. lia. Qed.

Lemma HistorySchema_out_idem (now now' : Z) (h : list HistoryEvent) :
  HistorySchema_out now' <$> (HistorySchema_out now <$> h)
  = HistorySchema_out now <$> h.
Proof.
  induction h as [|e h IH]; [done|]. cbn. rewrite IH. f_equal.
  unfold HistorySchema_out. cbn. by rewrite datetime_or_now_idem.
Qed.

(** The normal form of a record, but for its prompt, is reached in one
    pass. *)
Lemma TaskSchema_out_again (now now' : Z) (t : Task) :
  TaskSchema_out now' (TaskSchema_out now t)
  = {| meta := meta (TaskSchema_out now t);
       spec := {| spec_target := spec_target (spec t);
                  payload_user_message :=
                    sanitized (sanitized (payload_user_message (spec t))) |};
       policy := policy t;
       state := state (TaskSchema_out now t) |}.
Proof.
  unfold TaskSchema_out, MetaSchema_out, SpecSchema_out, StateSchema_out. cbn.
  by rewrite datetime_or_now_idem, clamp_idem, HistorySchema_out_idem.
Qed.

Lemma issues_nil (ok : bool) (where_ : string) : issue ok where_ = [] ↔ ok = true.
Proof. destruct ok; cbn; split; congruence. Qed.

Lemma TaskSchema_issues_nil (t : Task) :
  TaskSchema_issues t = [] ↔
  id_ok (meta_id (meta t)) = true
  ∧ in_enum SOURCES (meta_source (meta t)) = true
  ∧ (1 ≤ String.length (payload_user_message (spec t)))%nat
  ∧ 1 ≤ policy_max_attempts (policy t)
  ∧ match policy_execute_after (policy t) with
    | Some d => is_datetime d
    | None => true
    end = true
  ∧ in_enum STATUSES (state_status (state t)) = true.
Proof.
  unfold TaskSchema_issues, MetaSchema_issues, SpecSchema_issues,
    PolicySchema_issues, StateSchema_issues.
  rewrite !app_nil, !issues_nil, !bool_decide_eq_true. tauto.
Qed.

(** The verdict on a record that has been through the schema once depends
    on its prompt alone. *)
Lemma parseTask_of_output (now now' : Z) (t : Task) :
  TaskSchema_issues t = [] →
  TaskSchema_issues (TaskSchema_out now t)
  = issue (bool_decide (1 ≤ String.length
                              (sanitized (payload_user_message (spec t))))%nat)
          "spec.payload.user_message".
Proof.
  intros (Hid & Hsrc & _ & Hmax & Hafter & Hst)%TaskSchema_issues_nil.
  unfold TaskSchema_issues, MetaSchema_issues, SpecSchema_issues,
    PolicySchema_issues, StateSchema_issues. cbn.
  rewrite Hid, Hsrc, Hafter, Hst. rewrite (bool_decide_eq_true_2 _ Hmax).
  cbn. by rewrite app_nil_r.
Qed.

Lemma length_zero_empty (s : string) : String.length s = 0%nat ↔ s = "".
Proof. by destruct s. Qed.

(** X1.  Whatever record [parseTask] accepts, the record it returns has a
    priority between 0 and 100, a prompt with no control character, an
    attempt count, a history, and ISO timestamps for its creation and for
    every history entry; the id, the source, the target, the policy and
    the status are those of the input. *)
Theorem parseTask_output_normal (now : Z) (t v : Task) :
  parseTask now t = Ok v →
  0 ≤ meta_priority (meta v) ≤ 100
  ∧ all_chars (λ c, negb (is_control c)) (payload_user_message (spec v)) = true
  ∧ is_Some (state_attempts (state v))
  ∧ (∃ h, state_history (state v) = Some h
          ∧ Forall (λ e, is_datetime (ev_ts e) = true) h)
  ∧ is_datetime (meta_created_at (meta v)) = true
  ∧ meta_id (meta v) = meta_id (meta t)
  ∧ meta_source (meta v) = meta_source (meta t)
  ∧ spec_target (spec v) = spec_target (spec t)
  ∧ policy v = policy t
  ∧ state_status (state v) = state_status (state t).
Proof.
  unfold parseTask. destruct (TaskSchema_issues t); [|done].
  intros [= <-]. cbn.
  split; [lia|]. split; [apply sanitized_all|]. split; [by eexists|].
  split.
  - eexists. split; [done|]. apply Forall_fmap, Forall_true. intros e. cbn.
    unfold datetime_or_now. by destruct (ev_ts e).
  - split; [|done]. unfold datetime_or_now.
    by destruct (meta_created_at (meta t)).
Qed.

Lemma parseTask_output_normal_witness :
  ∃ v, parseTask 1700000000000 T1 = Ok v
       ∧ 0 ≤ meta_priority (meta v) ≤ 100
       ∧ meta_id (meta v) = "T1".
Proof.
  eexists. split; [reflexivity|].
  pose proof (parseTask_output_normal 1700000000000 T1 _ eq_refl) as H.
  split; [apply H|]. apply H.
Defined.

(** X2.  [saveTask] accepts a record whose prompt is made of white space
    and control characters only (the length is checked before the
    cleaning) and writes it with an empty prompt; the record it wrote is
    refused by [parseTask] when it is read back. *)
Theorem saveTask_writes_unreadable_record (pr : Proc) (t : Task) (w : World)
    (now' : Z) :
  faults w = [] →
  TaskSchema_issues t = [] →
  sanitized (payload_user_message (spec t)) = "" →
  ∃ pr' w' v,
    saveTask pr t w = (Ok tt, pr', w')
    ∧ read_file w' (task_file t) = Some (Text (DTask v))
    ∧ payload_user_message (spec v) = ""
    ∧ parseTask now' v = Throw (ZodError ["spec.payload.user_message"]).
Proof.
  intros Hf Hi Hs. unfold saveTask, parseTask. rewrite Hi.
  destruct (atomicWrite_replaces (pid pr) (task_file (TaskSchema_out (clock w) t))
              (DTask (TaskSchema_out (clock w) t)) w Hf)
    as (w' & Hw & Hr & _).
  rewrite Hw. eexists _, w', _. split; [done|]. split; [exact Hr|].
  split; [exact Hs|].
  rewrite (parseTask_of_output _ now' t Hi), Hs. done.
Qed.

Lemma saveTask_writes_unreadable_record_witness :
  ∃ pr' w' v,
    saveTask (fresh_proc 101) blank_prompt_task idle_world = (Ok tt, pr', w')
    ∧ read_file w' (task_file blank_prompt_task) = Some (Text (DTask v))
    ∧ payload_user_message (spec v) = ""
    ∧ parseTask 1700000001000 v = Throw (ZodError ["spec.payload.user_message"]).
Proof.
  apply (saveTask_writes_unreadable_record (fresh_proc 101) blank_prompt_task
           idle_world 1700000001000); reflexivity.
Defined.

(** X3.  [parseTask] is not idempotent, but two passes settle a record.
    The prompt of [control_prompt_task] comes out of a first pass as
    [" a"] (the blank before the control character is not at an end of
    the text when the text is trimmed) and out of a second pass as ["a"],
    so the second pass changes the output of the first.  When a record has
    been through [parseTask] twice, a third pass changes nothing, and it
    accepts the record unless the second pass has left the prompt empty.
    For a prompt with no control character one pass is enough. *)
Theorem parseTask_settles_in_two :
  (∀ n1 n2 : Z, ∃ v1 v2 : Task,
     parseTask n1 control_prompt_task = Ok v1
     ∧ parseTask n2 v1 = Ok v2
     ∧ payload_user_message (spec v1) = " a"
     ∧ payload_user_message (spec v2) = "a"
     ∧ v2 ≠ v1)
  ∧ ∀ (n1 n2 n3 : Z) (t v1 v2 : Task),
      parseTask n1 t = Ok v1 →
      parseTask n2 v1 = Ok v2 →
      TaskSchema_out n3 v2 = v2
      ∧ (if String.eqb (payload_user_message (spec v2)) ""
         then parseTask n3 v2 = Throw (ZodError ["spec.payload.user_message"])
         else parseTask n3 v2 = Ok v2)
      ∧ (all_chars (λ c, negb (is_control c)) (payload_user_message (spec t)) = true →
         v2 = v1).
Proof.
  split.
  { intros n1 n2.
    exists (TaskSchema_out n1 control_prompt_task),
           (TaskSchema_out n2 (TaskSchema_out n1 control_prompt_task)).
    split; [reflexivity|]. split; [reflexivity|].
    split; [reflexivity|]. split; [reflexivity|].
    intros H. apply (f_equal (λ v, payload_user_message (spec v))) in H.
    discriminate H. }
  intros n1 n2 n3 t v1 v2.
  unfold parseTask at 1 2.
  destruct (TaskSchema_issues t) eqn:Hi; [|done]. intros [= <-].
  destruct (TaskSchema_issues (TaskSchema_out n1 t)) eqn:Hi1; [|done].
  intros [= <-].
  assert (∀ n, payload_user_message (spec (TaskSchema_out n t))
               = sanitized (payload_user_message (spec t))) as Hm1
    by reflexivity.
  assert (TaskSchema_out n3 (TaskSchema_out n2 (TaskSchema_out n1 t))
          = TaskSchema_out n2 (TaskSchema_out n1 t)) as Hfix.
  { rewrite (TaskSchema_out_again n2 n3 (TaskSchema_out n1 t)).
    rewrite (TaskSchema_out_again n1 n2 t).
    cbn [meta spec policy state payload_user_message spec_target].
    by rewrite Hm1, sanitized_twice. }
  split; [exact Hfix|]. split.
  - unfold parseTask.
    rewrite (parseTask_of_output n2 n3 (TaskSchema_out n1 t) Hi1).
    assert (payload_user_message (spec (TaskSchema_out n2 (TaskSchema_out n1 t)))
            = sanitized (sanitized (payload_user_message (spec t)))) as ->
      by reflexivity.
    rewrite Hm1.
    destruct (sanitized (sanitized (payload_user_message (spec t))))
      as [|c m] eqn:Hm; [done|].
    cbn [String.eqb String.length]. rewrite bool_decide_eq_true_2 by lia.
    cbn [issue]. by rewrite Hfix.
  - intros Hc. rewrite (TaskSchema_out_again n1 n2 t).
    assert (sanitized (sanitized (payload_user_message (spec t)))
            = sanitized (payload_user_message (spec t))) as ->.
    { rewrite (sanitized_trim (payload_user_message (spec t)) Hc).
      rewrite sanitized_trim by by apply all_chars_trim.
      apply trim_idem. }
    reflexivity.
Qed.

(** The record whose second pass differs from its first: the third pass
    accepts the output of the second and leaves it as it is. *)
Lemma parseTask_settles_in_two_witness :
  ∃ v1 v2,
    parseTask 1700000000000 control_prompt_task = Ok v1
    ∧ parseTask 1700000001000 v1 = Ok v2
    ∧ v2 ≠ v1
    ∧ TaskSchema_out 1700000002000 v2 = v2
    ∧ parseTask 1700000002000 v2 = Ok v2.
Proof.
  destruct (proj1 parseTask_settles_in_two 1700000000000 1700000001000)
    as (v1 & v2 & H1 & H2 & _ & Hm & Hne).
  exists v1, v2. split; [exact H1|]. split; [exact H2|]. split; [exact Hne|].
  destruct (proj2 parseTask_settles_in_two 1700000000000 1700000001000
              1700000002000 control_prompt_task v1 v2 H1 H2)
    as (Hfix & Hthird & _).
  split; [exact Hfix|]. by rewrite Hm in Hthird.
Defined.

(** ** index.js: sanitizePrompt *)

(** X4.  [sanitizePrompt] is a projection: its result has none of the
    control characters it removes and no white space at either end, and
    cleaning it again gives it back. *)
Theorem sanitizePrompt_projection (text : option string) :
  all_chars (λ c, negb (is_control_index c)) (sanitizePrompt text) = true
  ∧ starts_clean (sanitizePrompt text)
  ∧ starts_clean (String.rev (sanitizePrompt text))
  ∧ sanitizePrompt (Some (sanitizePrompt text)) = sanitizePrompt text.
Proof.
  assert (∀ y, all_chars (λ c, negb (is_control_index c)) y = true →
               starts_clean y → starts_clean (String.rev y) →
               sanitizePrompt (Some y) = y) as Hfix.
  { intros y Hc H1 H2. unfold sanitizePrompt.
    destruct (String.eqb_spec y ""); [done|].
    by rewrite (filter_chars_id _ y Hc), trim_fixed. }
  destruct text as [t|]; [|done].
  assert (sanitizePrompt (Some t) = ""
          ∨ sanitizePrompt (Some t)
            = trim (filter_chars (λ c, negb (is_control_index c)) t))
    as [->| ->].
  { unfold sanitizePrompt. destruct (String.eqb t ""); auto. }
  { done. }
  set (y := trim (filter_chars (λ c, negb (is_control_index c)) t)).
  assert (all_chars (λ c, negb (is_control_index c)) y = true) as Hc
    by apply all_chars_trim, filter_chars_all.
  destruct (trim_clean (filter_chars (λ c, negb (is_control_index c)) t))
    as [H1 H2].
  split; [done|]. split; [done|]. split; [done|]. by apply Hfix.
Qed.

(** ** Guarded calls *)

Lemma pop_fault_with (f : option errno) (fs : list (option errno)) (w : World) :
  pop_fault (with_faults (f :: fs) w) = (f, with_faults fs w).
Proof. reflexivity. Qed.

Lemma pop_fault_succeeds (fs : list (option errno)) (w : World) :
  succeeds_next fs →
  pop_fault (with_faults fs w) = (None, with_faults (tail fs) w).
Proof. by intros [->|[rest ->]]. Qed.

Lemma sleep_with_faults (ms : Z) (fs : list (option errno)) (w : World) :
  sleep ms (with_faults fs w) = with_faults fs (sleep ms w).
Proof. reflexivity. Qed.

Lemma sleep_sleep (a b : Z) (w : World) : sleep a (sleep b w) = sleep (b + a) w.
Proof. unfold sleep. cbn. f_equal. lia. Qed.

Lemma sleep_zero (w : World) : sleep 0 w = w.
Proof. destruct w. unfold sleep. cbn. f_equal. lia. Qed.

Lemma read_with_faults (fs : list (option errno)) (w : World) (p : path) :
  read_file (with_faults fs w) p = read_file w p.
Proof. by destruct p as [[] n]. Qed.

Lemma read_sleep (ms : Z) (w : World) (p : path) :
  read_file (sleep ms w) p = read_file w p.
Proof. by destruct p as [[] n]. Qed.

(** ** safeReadJSON *)

Lemma safeReadJSON_loop_busy (es : list errno) :
  ∀ (budget : nat) (p : path) (w : World) (rest : list (option errno)),
    Forall (λ e, transient e = true) es →
    safeReadJSON_loop (length es + budget) p
      (with_faults ((Some <$> es) ++ rest) w)
    = safeReadJSON_loop budget p
        (with_faults rest (sleep (200 * Z.of_nat (length es)) w)).
Proof.
  induction es as [|e es IH]; intros budget p w rest Hes.
  - cbn. by rewrite sleep_zero.
  - apply Forall_cons in Hes as [He Hes].
    cbn [length fmap list_fmap app Nat.add safeReadJSON_loop].
    change (Some e :: (Some <$> es) ++ rest)
      with (Some e :: ((Some <$> es) ++ rest)).
    rewrite pop_fault_with, He, sleep_with_faults, (IH _ _ _ _ Hes), sleep_sleep.
    do 3 f_equal. lia.
Qed.

(** X5.  A file that is there and complete, but busy: [safeReadJSON]
    reads it again after 200 ms, up to four times, and answers its content
    as soon as a read goes through; the files are left as they are. *)
Theorem safeReadJSON_retries_busy_file (p : path) (w : World) (d : doc)
    (es : list errno) (rest : list (option errno)) :
  read_file w p = Some (Text d) →
  Forall (λ e, transient e = true) es →
  (length es < 5)%nat →
  succeeds_next rest →
  safeReadJSON p (with_faults ((Some <$> es) ++ rest) w)
  = (Some d, with_faults (tail rest) (sleep (200 * Z.of_nat (length es)) w)).
Proof.
  intros Hr Hes Hlen Hnext. unfold safeReadJSON.
  rewrite read_with_faults, Hr.
  replace 5%nat with (length es + S (4 - length es))%nat by lia.
  rewrite (safeReadJSON_loop_busy es _ _ _ _ Hes).
  cbn [safeReadJSON_loop]. rewrite (pop_fault_succeeds _ _ Hnext).
  by rewrite read_with_faults, read_sleep, Hr.
Qed.

Lemma safeReadJSON_retries_busy_file_witness :
  safeReadJSON (task_file T1)
    (with_faults [Some EBUSY; Some EPERM; None] world_with_T1)
  = (Some (DTask T1), with_faults [] (sleep 400 world_with_T1)).
Proof.
  apply (safeReadJSON_retries_busy_file (task_file T1) world_with_T1 (DTask T1)
           [EBUSY; EPERM] [None]).
  - reflexivity.
  - by repeat constructor.
  - cbn. lia.
  - right. by eexists.
Defined.

(** X6.  [safeReadJSON] gives up without moving the file: after five busy
    reads in a row (one second in all) it answers null, and on any other
    read error it answers null at once, whatever the file holds.  Only a
    read that goes through can send a file to quarantine. *)
Theorem safeReadJSON_gives_up_in_place (p : path) (w : World) (c : content)
    (es : list errno) (rest : list (option errno)) :
  read_file w p = Some c →
  Forall (λ e, transient e = true) es →
  (length es = 5%nat →
   safeReadJSON p (with_faults ((Some <$> es) ++ rest) w)
   = (None, with_faults rest (sleep 1000 w)))
  ∧ (∀ e, (length es < 5)%nat → transient e = false →
       safeReadJSON p (with_faults ((Some <$> es) ++ Some e :: rest) w)
       = (None, with_faults rest (sleep (200 * Z.of_nat (length es)) w))).
Proof.
  intros Hr Hes. split.
  - intros Hlen. unfold safeReadJSON. rewrite read_with_faults, Hr.
    replace 5%nat with (length es + 0)%nat by lia.
    rewrite (safeReadJSON_loop_busy es _ _ _ _ Hes), Hlen. reflexivity.
  - intros e Hlen He. unfold safeReadJSON. rewrite read_with_faults, Hr.
    replace 5%nat with (length es + S (4 - length es))%nat by lia.
    rewrite (safeReadJSON_loop_busy es _ _ _ _ Hes).
    cbn [safeReadJSON_loop]. by rewrite pop_fault_with, He.
Qed.

Lemma safeReadJSON_gives_up_in_place_witness :
  safeReadJSON (QUEUE_DIR, "T9.json")
    (with_faults [Some EBUSY; Some EBUSY; Some EBUSY; Some EBUSY; Some EBUSY]
       world_with_truncated_file)
  = (None, with_faults [] (sleep 1000 world_with_truncated_file)).
Proof.
  apply (proj1 (safeReadJSON_gives_up_in_place (QUEUE_DIR, "T9.json")
                  world_with_truncated_file
                  (Torn (DTask T9) 28)
                  [EBUSY; EBUSY; EBUSY; EBUSY; EBUSY] []
                  ltac:(vm_compute; reflexivity)
                  ltac:(by repeat constructor))).
  reflexivity.
Defined.

(** ** atomicWrite *)

Lemma pop_entropy_with (fs : list (option errno)) (w : World) :
  pop_entropy (with_faults fs w)
  = ((pop_entropy w).1, with_faults fs (pop_entropy w).2).
Proof. unfold pop_entropy. cbn. by destruct (entropy w). Qed.

Lemma write_with_faults (fs : list (option errno)) (w : World) (p : path)
    (c : content) :
  write_file (with_faults fs w) p c = with_faults fs (write_file w p c).
Proof. by destruct p as [[] n]. Qed.

(** The rename loop while the target is busy: each refusal is followed by
    a wait 100 ms longer than the one before. *)
Lemma rename_loop_busy (es : list errno) :
  ∀ (budget : nat) (attempts : Z) (tmp p : path) (w : World)
    (rest : list (option errno)) (r : result unit) (ws : list World),
    Forall (λ e, transient e = true) es →
    rename_loop budget (attempts + Z.of_nat (length es)) tmp p
      (with_faults rest
         (sleep (100 * Z.of_nat (length es) * attempts
                 + rename_backoff (length es)) w))
    = (r, ws) →
    ∃ ws0, rename_loop (length es + budget) attempts tmp p
             (with_faults ((Some <$> es) ++ rest) w)
           = (r, ws0 ++ ws).
Proof.
  induction es as [|e es IH]; intros budget attempts tmp p w rest r ws Hes H.
  - exists []. cbn in *. unfold rename_backoff in H. cbn in H.
    rewrite Z.add_0_r in H. replace (attempts * 0 + 0) with 0 in H by lia.
    rewrite sleep_zero in H. exact H.
  - apply Forall_cons in Hes as [He Hes].
    cbn [length fmap list_fmap app Nat.add rename_loop].
    change (Some e :: (Some <$> es) ++ rest)
      with (Some e :: ((Some <$> es) ++ rest)).
    rewrite pop_fault_with, He, sleep_with_faults.
    destruct (IH budget (attempts + 1) tmp p (sleep (100 * (attempts + 1)) w)
                rest r ws Hes) as (ws0 & Hws0).
    { rewrite sleep_sleep.
      replace (attempts + 1 + Z.of_nat (length es))
        with (attempts + Z.of_nat (length (e :: es))) by (cbn [length]; lia).
      replace (100 * (attempts + 1)
               + (100 * Z.of_nat (length es) * (attempts + 1)
                  + rename_backoff (length es)))
        with (100 * Z.of_nat (length (e :: es)) * attempts
              + rename_backoff (length (e :: es)))
        by (unfold rename_backoff; cbn [length]; lia).
      exact H. }
    rewrite Hws0. by eexists (_ :: ws0).
Qed.

Lemma last_app_one {A : Type} (x : A) (l : list A) : last (l ++ [x]) = Some x.
Proof. apply last_snoc. Qed.

(** X7.  The rename over a busy target is retried: when fewer than ten
    renames in a row are refused with EPERM or EBUSY and the next one goes
    through, [atomicWrite] completes normally with the new text in the
    target and no temporary file left, after waits of 100, 200, ...
    milliseconds; no other file is touched. *)
Theorem atomicWrite_retries_rename (self : Z) (p : path) (d : doc) (w : World)
    (es : list errno) (rest : list (option errno)) :
  Forall (λ e, transient e = true) es →
  (length es < 10)%nat →
  succeeds_next rest →
  ∃ w', atomicWrite self p d (with_faults ((Some <$> es) ++ rest) w) = (Ok tt, w')
        ∧ read_file w' p = Some (Text d)
        ∧ read_file w' (tmp_of self (pop_entropy w).1 p) = None
        ∧ clock w' = clock w + rename_backoff (length es)
        ∧ faults w' = tail rest
        ∧ ∀ q, q ≠ p → q ≠ tmp_of self (pop_entropy w).1 p →
               read_file w' q = read_file w q.
Proof.
  intros Hes Hlen Hnext.
  unfold atomicWrite, atomicWrite_steps. rewrite pop_entropy_with.
  destruct (pop_entropy w) as [uuid w0] eqn:Hpe. cbn [fst snd seq fmap list_fmap app].
  set (tmp := tmp_of self uuid p).
  assert (tmp ≠ p) as Hne by apply tmp_of_ne.
  rewrite write_with_faults.
  set (w1 := write_file w0 tmp (Text d)).
  set (w2 := with_faults rest (sleep (100 * Z.of_nat (length es) * 0
                                       + rename_backoff (length es)) w1)).
  destruct (rename_loop_busy es (S (9 - length es)) 0 tmp p w1 rest (Ok tt)
              [rename_file (with_faults (tail rest)
                              (sleep (100 * Z.of_nat (length es) * 0
                                      + rename_backoff (length es)) w1)) tmp p]
              Hes) as (ws0 & Hws0).
  { cbn [rename_loop]. by rewrite (pop_fault_succeeds _ _ Hnext). }
  replace (length es + S (9 - length es))%nat with 10%nat in Hws0 by lia.
  rewrite Hws0. lazy beta iota. rewrite app_comm_cons, last_app_one.
  eexists. split; [reflexivity|]. cbn [default from_option id].
  assert (∀ q, read_file w0 q = read_file w q) as Hw0.
  { apply (f_equal snd) in Hpe. cbn in Hpe. subst w0.
    intros q. apply pop_entropy_files. }
  assert (clock w0 = clock w) as Hc0.
  { apply (f_equal snd) in Hpe. cbn in Hpe. subst w0.
    unfold pop_entropy. by destruct (entropy w). }
  set (W := with_faults (tail rest)
              (sleep (100 * Z.of_nat (length es) * 0
                      + rename_backoff (length es)) w1)).
  assert (rename_file W tmp p = write_file (remove_file W tmp) p (Text d)) as ->.
  { unfold rename_file, W. rewrite read_with_faults, read_sleep. unfold w1.
    by rewrite read_write_eq. }
  split; [apply read_write_eq|].
  split.
  { rewrite read_write_ne by (intros Heq; by symmetry in Heq).
    apply read_remove_eq. }
  destruct (write_file_frame (remove_file W tmp) p (Text d))
    as (_ & Hc1 & Hf1 & _).
  destruct (remove_file_frame W tmp) as (_ & Hc2 & Hf2 & _).
  split.
  { rewrite Hc1, Hc2. unfold W. cbn [clock with_faults sleep].
    destruct (write_file_frame w0 tmp (Text d)) as (_ & Hc3 & _).
    fold w1 in Hc3. rewrite Hc3. lia. }
  split; [by rewrite Hf1, Hf2|].
  intros q Hqp Hqt.
  rewrite read_write_ne by done. rewrite read_remove_ne by done.
  unfold W. rewrite read_with_faults, read_sleep. unfold w1.
  rewrite read_write_ne by done. by rewrite Hw0.
Qed.

Lemma atomicWrite_retries_rename_witness :
  ∃ w', atomicWrite 101 (task_file T1) (DTask T1_running)
          (with_faults [Some EPERM; Some EBUSY; Some EPERM] world_with_T1)
        = (Ok tt, w')
        ∧ read_file w' (task_file T1) = Some (Text (DTask T1_running))
        ∧ clock w' = clock world_with_T1 + 600.
Proof.
  destruct (atomicWrite_retries_rename 101 (task_file T1) (DTask T1_running)
              world_with_T1 [EPERM; EBUSY; EPERM] [])
    as (w' & H1 & H2 & _ & H4 & _).
  - by repeat constructor.
  - cbn. lia.
  - by left.
  - exists w'. split; [exact H1|]. split; [exact H2|exact H4].
Defined.

(** X8.  A rename refused for another reason is not retried: [atomicWrite]
    removes its temporary file and throws that error; the target keeps
    what it held, and no other file is touched. *)
Theorem atomicWrite_fails_clean (self : Z) (p : path) (d : doc) (w : World)
    (es : list errno) (e : errno) (rest : list (option errno)) :
  Forall (λ e, transient e = true) es →
  (length es < 10)%nat →
  transient e = false →
  ∃ w', atomicWrite self p d (with_faults ((Some <$> es) ++ Some e :: rest) w)
        = (Throw (errno_message e), w')
        ∧ read_file w' (tmp_of self (pop_entropy w).1 p) = None
        ∧ faults w' = rest
        ∧ ∀ q, q ≠ tmp_of self (pop_entropy w).1 p →
               read_file w' q = read_file w q.
Proof.
  intros Hes Hlen He.
  unfold atomicWrite, atomicWrite_steps. rewrite pop_entropy_with.
  destruct (pop_entropy w) as [uuid w0] eqn:Hpe. cbn [fst snd seq fmap list_fmap app].
  set (tmp := tmp_of self uuid p).
  rewrite write_with_faults.
  set (w1 := write_file w0 tmp (Text d)).
  destruct (rename_loop_busy es (S (9 - length es)) 0 tmp p w1 (Some e :: rest)
              (Throw (errno_message e))
              [remove_file (with_faults rest
                              (sleep (100 * Z.of_nat (length es) * 0
                                      + rename_backoff (length es)) w1)) tmp]
              Hes) as (ws0 & Hws0).
  { cbn [rename_loop]. by rewrite pop_fault_with, He. }
  replace (length es + S (9 - length es))%nat with 10%nat in Hws0 by lia.
  rewrite Hws0. lazy beta iota. rewrite app_comm_cons, last_app_one.
  eexists. split; [reflexivity|]. cbn [default from_option id].
  assert (∀ q, read_file w0 q = read_file w q) as Hw0.
  { apply (f_equal snd) in Hpe. cbn in Hpe. subst w0.
    intros q. apply pop_entropy_files. }
  split; [apply read_remove_eq|].
  split.
  { by destruct (remove_file_frame
                   (with_faults rest
                      (sleep (100 * Z.of_nat (length es) * 0
                              + rename_backoff (length es)) w1)) tmp)
      as (_ & _ & -> & _). }
  intros q Hqt. rewrite read_remove_ne by done.
  rewrite read_with_faults, read_sleep. unfold w1.
  rewrite read_write_ne by done. by rewrite Hw0.
Qed.

Lemma atomicWrite_fails_clean_witness :
  ∃ w', atomicWrite 101 (task_file T1) (DTask T1_running)
          (with_faults [Some EBUSY; Some EACCES] world_with_T1)
        = (Throw "EACCES: permission denied", w')
        ∧ read_file w' (task_file T1) = Some (Text (DTask T1)).
Proof.
  destruct (atomicWrite_fails_clean 101 (task_file T1) (DTask T1_running)
              world_with_T1 [EBUSY] EACCES [])
    as (w' & H1 & _ & _ & H4).
  - by repeat constructor.
  - cbn. lia.
  - reflexivity.
  - exists w'. split; [exact H1|]. rewrite H4; [reflexivity|].
    intros H. discriminate H.
Defined.

(** ** The queue: scan, save, delete *)

Lemma prefix_app (a b : string) : String.prefix a (a +:+ b) = true.
Proof.
  induction a as [|x a IH]; [by destruct b|]. rewrite String_app_cons. cbn.
  by destruct (Ascii.ascii_dec x x).
Qed.

Lemma endsWith_app (s suffix : string) : endsWith (s +:+ suffix) suffix = true.
Proof. unfold endsWith. rewrite rev_app_distr. apply prefix_app. Qed.

Lemma scanQueue_lists (pr : Proc) (w : World) (g : string) (d : doc) :
  faults w = [] →
  queue w !! g = Some (Text d) →
  Boolean d = true →
  endsWith g ".json" = true →
  ∃ tasks pr' w',
    scanQueue pr w = (tasks, pr', w')
    ∧ d ∈ tasks
    ∧ globalQueueCache pr' = Some tasks
    ∧ isCacheDirty pr' = false.
Proof.
  intros Hf Hq Hb Hjson. unfold scanQueue.
  set (names := filter (λ g, endsWith g ".json" = true) (readdirSync w QUEUE_DIR)).
  assert (g ∈ names) as Hin.
  { apply list_elem_of_filter. split; [done|].
    unfold readdirSync. apply list_elem_of_fmap. exists (g, Text d).
    split; [done|]. by apply elem_of_map_to_list. }
  destruct (read_all names w) as [rs w'] eqn:Hra.
  destruct (read_all_parsed names w rs w' Hf Hra) as (-> & _).
  eexists _, _, _. split; [reflexivity|]. split; [|done].
  apply list_elem_of_omap. exists (Some d). split; [|by apply kept_Some].
  apply list_elem_of_fmap. exists g. split; [|done].
  unfold parsed. by rewrite Hq.
Qed.

Lemma scanQueue_sources (pr : Proc) (w : World) :
  faults w = [] →
  ∃ tasks pr' w',
    scanQueue pr w = (tasks, pr', w')
    ∧ globalQueueCache pr' = Some tasks
    ∧ ∀ d, d ∈ tasks →
        ∃ g, endsWith g ".json" = true ∧ queue w !! g = Some (Text d).
Proof.
  intros Hf. unfold scanQueue.
  set (names := filter (λ g, endsWith g ".json" = true) (readdirSync w QUEUE_DIR)).
  destruct (read_all names w) as [rs w'] eqn:Hra.
  destruct (read_all_parsed names w rs w' Hf Hra) as (-> & _).
  eexists _, _, _. split; [reflexivity|]. split; [done|].
  intros d (r & Hr & [-> _]%kept_Some)%list_elem_of_omap.
  apply list_elem_of_fmap in Hr as (g & Hg & Hin).
  apply list_elem_of_filter in Hin as [Hjson _].
  exists g. split; [done|]. unfold parsed in Hg.
  by destruct (queue w !! g) as [[]|]; simplify_eq.
Qed.

Lemma getQueue_dirty (force : bool) (pr : Proc) (w : World) :
  isCacheDirty pr = true → getQueue force pr w = scanQueue pr w.
Proof.
  intros Hd. unfold getQueue. rewrite Hd.
  destruct (globalQueueCache pr); [|done]. by destruct force.
Qed.

(** X9.  What [saveTask] has written is listed by the next [getQueue] of
    the same process, forced or not and whatever the cache held: the save
    marks the cache dirty, so the next call scans the directory again. *)
Theorem saveTask_then_getQueue (pr : Proc) (t v : Task) (w : World)
    (force : bool) :
  faults w = [] →
  parseTask (clock w) t = Ok v →
  ∃ pr' w' tasks pr'' w'',
    saveTask pr t w = (Ok tt, pr', w')
    ∧ getQueue force pr' w' = (tasks, pr'', w'')
    ∧ DTask v ∈ tasks
    ∧ globalQueueCache pr'' = Some tasks.
Proof.
  intros Hf Hp. unfold saveTask. rewrite Hp.
  destruct (atomicWrite_replaces (pid pr) (task_file v) (DTask v) w Hf)
    as (w' & Hw & Hr & Hf' & _).
  rewrite Hw.
  destruct (scanQueue_lists (setCacheDirty pr) w'
              (meta_id (meta v) +:+ ".json") (DTask v) Hf' Hr eq_refl
              (endsWith_app _ _))
    as (tasks & pr'' & w'' & Hs & Hin & Hc & _).
  exists (setCacheDirty pr), w', tasks, pr'', w''.
  split; [done|]. rewrite getQueue_dirty by done. done.
Qed.

Lemma saveTask_then_getQueue_witness :
  ∃ pr' w' tasks pr'' w'',
    saveTask (fresh_proc 101) T1_running world_with_T1 = (Ok tt, pr', w')
    ∧ getQueue false pr' w' = (tasks, pr'', w'')
    ∧ DTask (TaskSchema_out (clock world_with_T1) T1_running) ∈ tasks
    ∧ globalQueueCache pr'' = Some tasks.
Proof.
  apply (saveTask_then_getQueue (fresh_proc 101) T1_running _ world_with_T1 false);
    reflexivity.
Defined.

(** X10.  [deleteTask] never throws.  When the file is not there it does
    nothing; when the removal is refused the file stays and the cache is
    not invalidated; otherwise the file is gone, no other file is touched,
    and no task of the next [getQueue] comes from it. *)
Theorem deleteTask_effect (pr : Proc) (id : string) (w : World) :
  (read_file w (QUEUE_DIR, id +:+ ".json") = None →
   deleteTask pr id w = (pr, w))
  ∧ (∀ c e rest,
       read_file w (QUEUE_DIR, id +:+ ".json") = Some c →
       deleteTask pr id (with_faults (Some e :: rest) w)
       = (pr, with_faults rest w))
  ∧ (∀ c, read_file w (QUEUE_DIR, id +:+ ".json") = Some c →
       faults w = [] →
       ∃ pr' w' tasks pr'' w'',
         deleteTask pr id w = (pr', w')
         ∧ read_file w' (QUEUE_DIR, id +:+ ".json") = None
         ∧ (∀ q, q ≠ (QUEUE_DIR, id +:+ ".json") → read_file w' q = read_file w q)
         ∧ getQueue false pr' w' = (tasks, pr'', w'')
         ∧ ∀ d, d ∈ tasks →
             ∃ g, g ≠ id +:+ ".json" ∧ queue w !! g = Some (Text d)).
Proof.
  split; [|split].
  - intros H. unfold deleteTask. by rewrite H.
  - intros c e rest H. unfold deleteTask.
    by rewrite read_with_faults, H, pop_fault_with.
  - intros c H Hf. unfold deleteTask. rewrite H, (pop_fault_none w Hf).
    set (w' := remove_file w (QUEUE_DIR, id +:+ ".json")).
    assert (faults w' = []) as Hf'
      by (destruct (remove_file_frame w (QUEUE_DIR, id +:+ ".json"))
            as (_ & _ & Hfr & _); unfold w'; congruence).
    destruct (scanQueue_sources (setCacheDirty pr) w' Hf')
      as (tasks & pr'' & w'' & Hs & _ & Hsrc).
    exists (setCacheDirty pr), w', tasks, pr'', w''.
    split; [done|]. split; [apply read_remove_eq|].
    split; [intros q Hq; by apply read_remove_ne|].
    split; [by rewrite getQueue_dirty|].
    intros d Hd. destruct (Hsrc d Hd) as (g & _ & Hg). exists g.
    change (queue w' !! g) with (read_file w' (QUEUE_DIR, g)) in Hg.
    destruct (decide (g = id +:+ ".json")) as [->|Hne].
    + unfold w' in Hg. by rewrite read_remove_eq in Hg.
    + split; [done|]. unfold w' in Hg.
      rewrite read_remove_ne in Hg by congruence. exact Hg.
Qed.

Lemma deleteTask_effect_witness :
  ∃ pr' w' tasks pr'' w'',
    deleteTask (fresh_proc 101) "T1" world_with_T1 = (pr', w')
    ∧ read_file w' (task_file T1) = None
    ∧ getQueue false pr' w' = (tasks, pr'', w'')
    ∧ tasks = [].
Proof.
  destruct (proj2 (proj2 (deleteTask_effect (fresh_proc 101) "T1" world_with_T1))
              (Text (DTask T1)) eq_refl eq_refl)
    as (pr' & w' & tasks & pr'' & w'' & H1 & H2 & _ & H4 & _).
  exists pr', w', tasks, pr'', w''.
  split; [exact H1|]. split; [exact H2|]. split; [exact H4|].
  vm_compute in H1. injection H1 as <- <-. vm_compute in H4.
  by injection H4 as <- _ _.
Defined.

(** ** sanitizeFilename *)

Lemma all_chars_substring (f : Ascii.ascii → bool) (n : nat) :
  ∀ s, all_chars f s = true → all_chars f (String.substring 0 n s) = true.
Proof.
  induction n as [|n IH]; intros [|c s] H; try done.
  cbn in *. apply andb_prop in H as [-> H]. by apply IH.
Qed.

Lemma length_substring (n : nat) :
  ∀ s, String.length (String.substring 0 n s) = (n `min` String.length s)%nat.
Proof. induction n as [|n IH]; intros [|c s]; try done. cbn. by rewrite IH. Qed.

Lemma substring_all (n : nat) :
  ∀ s, (String.length s ≤ n)%nat → String.substring 0 n s = s.
Proof.
  induction n as [|n IH]; intros [|c s] H; try done.
  - cbn in H. lia.
  - cbn in *. rewrite IH; [done|lia].
Qed.

Lemma map_chars_safe (s : string) :
  all_chars id_char (map_chars (λ c, if id_char c then c else underscore) s)
  = true.
Proof.
  induction s as [|c s IH]; [done|]. cbn [map_chars all_chars]. rewrite IH.
  by destruct (id_char c) eqn:Hc; rewrite ?Hc.
Qed.

Lemma map_chars_length (f : Ascii.ascii → Ascii.ascii) (s : string) :
  String.length (map_chars f s) = String.length s.
Proof. induction s as [|c s IH]; [done|]. cbn. by rewrite IH. Qed.

Lemma map_chars_id (s : string) :
  all_chars id_char s = true →
  map_chars (λ c, if id_char c then c else underscore) s = s.
Proof.
  induction s as [|c s IH]; [done|]. cbn [map_chars all_chars].
  intros [Hc H]%andb_prop. rewrite Hc. f_equal. by apply IH.
Qed.

(** X11.  Whatever the name, [sanitizeFilename] answers a text of 1 to 50
    characters that matches the pattern of task ids; a name that is such a
    text already is answered unchanged, so the function is a projection. *)
Theorem sanitizeFilename_safe (name : string) :
  id_ok (sanitizeFilename name) = true
  ∧ (String.length (sanitizeFilename name) ≤ 50)%nat
  ∧ (id_ok name = true → (String.length name ≤ 50)%nat →
     sanitizeFilename name = name)
  ∧ sanitizeFilename (sanitizeFilename name) = sanitizeFilename name.
Proof.
  assert (∀ s, id_ok s = true → (String.length s ≤ 50)%nat →
               sanitizeFilename s = s) as Hfix.
  { intros s [Hc Hl%bool_decide_eq_true]%andb_prop Hlen. unfold sanitizeFilename.
    destruct (String.eqb_spec s "") as [->|_]; [cbn in Hl; lia|].
    by rewrite map_chars_id, substring_all. }
  assert (id_ok (sanitizeFilename name) = true
          ∧ (String.length (sanitizeFilename name) ≤ 50)%nat) as [Hok Hlen].
  { unfold sanitizeFilename.
    destruct (String.eqb_spec name "") as [->|Hne]; [split; [done|cbn; lia]|].
    split; [|rewrite length_substring; lia].
    unfold id_ok. rewrite all_chars_substring by apply map_chars_safe.
    apply bool_decide_eq_true. rewrite length_substring, map_chars_length.
    destruct name; [done|cbn; lia]. }
  split; [done|]. split; [done|]. split; [apply Hfix|by apply Hfix].
Qed.

Lemma sanitizeFilename_safe_witness :
  sanitizeFilename "TASK-CLI-1699999990000-a1b2c3" = "TASK-CLI-1699999990000-a1b2c3".
Proof.
  apply (proj1 (proj2 (proj2 (sanitizeFilename_safe
                                "TASK-CLI-1699999990000-a1b2c3")))).
  - reflexivity.
  - cbn. lia.
Defined.

(** ** The lock manager, continued *)

Lemma with_files_same (w : World) (d : dir) : with_files w d (files w d) = w.
Proof. by destruct w, d. Qed.

Lemma remove_write_absent (w : World) (p : path) (c : content) :
  read_file w p = None → remove_file (write_file w p c) p = w.
Proof.
  destruct p as [d n]. unfold read_file, remove_file, write_file. cbn.
  intros H. destruct w, d; cbn in *; by rewrite delete_insert_id.
Qed.

Lemma remove_absent (w : World) (p : path) :
  read_file w p = None → remove_file w p = w.
Proof.
  destruct p as [d n]. unfold read_file, remove_file. cbn.
  intros H. destruct w, d; cbn in *; by rewrite delete_id.
Qed.

(** X12.  On a free target, [acquireLock] followed by [releaseLock] leaves
    the world exactly as it was, and [releaseLock] on a target that is not
    locked does nothing. *)
Theorem lock_round_trip {runtime : Runtime}
    (retries : nat) (self : Z) (taskId t : string)
    (w : World) :
  read_file w (lockFile t) = None →
  ∃ w1, acquireLock retries self taskId t w = Some (true, w1)
        ∧ releaseLock t w1 = w
        ∧ releaseLock t w = w.
Proof.
  intros H. eexists. split; [by apply acquireLock_free|].
  unfold releaseLock. split; [by apply remove_write_absent|by apply remove_absent].
Qed.

Lemma lock_round_trip_witness :
  ∃ w1, acquireLock 1 101 "T1" "chatgpt" idle_world = Some (true, w1)
        ∧ releaseLock "chatgpt" w1 = idle_world.
Proof.
  destruct (lock_round_trip 1 101 "T1" "chatgpt" idle_world eq_refl)
    as (w1 & H1 & H2 & _).
  by exists w1.
Defined.

(** X13.  What a lock file that is not a lock record does to
    [acquireLock].  A text that is not JSON holds one attempt back and no
    more: the call answers false, and its read has moved the file to the
    quarantine directory, so the next attempt finds the target free.  A
    JSON value that is not truthy ([null], [false], [0], the empty
    string) holds every attempt back: the call answers false and changes
    nothing, so the file stays until somebody else removes it.  A truthy
    JSON value without a [pid] (such as [{}]) is taken for the lock of a
    dead process: the file is removed and the retry takes the lock. *)
Theorem acquireLock_corrupt_lock {runtime : Runtime}
    (retries retries' : nat) (self other : Z)
    (taskId taskId' t : string) (w : World) (c : content) :
  faults w = [] →
  read_file w (lockFile t) = Some c →
  ((∀ d, c ≠ Text d) →
   ∃ w1 w2,
     acquireLock retries self taskId t w = Some (false, w1)
     ∧ read_file w1 (lockFile t) = None
     ∧ read_file w1 (badFile (lockFile t).2 (clock w)) = Some c
     ∧ acquireLock retries' other taskId' t w1 = Some (true, w2))
  ∧ (∀ d, c = Text d → Boolean d = false →
       acquireLock retries self taskId t w = Some (false, w))
  ∧ (∀ d, c = Text d → Boolean d = true → doc_pid d = None →
       acquireLock (S retries) self taskId t w
       = Some (true, write_file (remove_file w (lockFile t)) (lockFile t)
                       (Text (DLock (lockData self taskId w))))).
Proof.
  intros Hf Hr. split; [|split].
  - intros Hbad.
    assert (tryLock self taskId t w = (Held None, quarantine (lockFile t) w))
      as Ht.
    { unfold tryLock, safeReadJSON. rewrite Hr. cbn [safeReadJSON_loop].
      rewrite (pop_fault_none w Hf), Hr.
      destruct c as [d| |]; [by destruct (Hbad d)|done..]. }
    destruct (quarantine_removes (lockFile t) w c) as [Hgone Hthere]; [done..|].
    exists (quarantine (lockFile t) w). eexists.
    split.
    { destruct retries; cbn [acquireLock]; by rewrite Ht. }
    split; [done|]. split; [done|]. by apply acquireLock_free.
  - intros d -> Hb.
    assert (tryLock self taskId t w = (Held (Some d), w)) as Ht.
    { unfold tryLock. rewrite Hr. by rewrite (safeReadJSON_text w _ d Hf Hr). }
    destruct retries; cbn [acquireLock]; rewrite Ht; cbn [orphan];
      by rewrite Hb.
  - intros d -> Hb Hpid.
    apply (acquireLock_orphan retries self taskId t w d Hf Hr Hb).
    by rewrite Hpid.
Qed.

Lemma acquireLock_corrupt_lock_witness :
  (∃ w1 w2,
     acquireLock 1 101 "T1" "chatgpt"
       (write_file idle_world (lockFile "chatgpt") (NotJSON 0)) = Some (false, w1)
     ∧ read_file w1 (lockFile "chatgpt") = None
     ∧ acquireLock 1 101 "T1" "chatgpt" w1 = Some (true, w2))
  ∧ acquireLock 1 101 "T1" "chatgpt"
      (write_file idle_world (lockFile "chatgpt") (Text (DOther JNull)))
    = Some (false, write_file idle_world (lockFile "chatgpt")
                     (Text (DOther JNull)))
  ∧ ∃ w1, acquireLock 1 101 "T1" "chatgpt"
            (write_file idle_world (lockFile "chatgpt") (Text (DOther JObject)))
          = Some (true, w1).
Proof.
  pose proof (acquireLock_corrupt_lock 1 1 101 101 "T1" "T1" "chatgpt"
                (write_file idle_world (lockFile "chatgpt") (NotJSON 0))
                (NotJSON 0)) as Hbad.
  pose proof (acquireLock_corrupt_lock 1 1 101 101 "T1" "T1" "chatgpt"
                (write_file idle_world (lockFile "chatgpt") (Text (DOther JNull)))
                (Text (DOther JNull))) as Hnull.
  pose proof (acquireLock_corrupt_lock 0 1 101 101 "T1" "T1" "chatgpt"
                (write_file idle_world (lockFile "chatgpt") (Text (DOther JObject)))
                (Text (DOther JObject))) as Hobj.
  split; [|split].
  - destruct (proj1 (Hbad eq_refl eq_refl))
      as (w1 & w2 & H1 & H2 & _ & H4).
    + intros d H. discriminate H.
    + by exists w1, w2.
  - exact (proj1 (proj2 (Hnull eq_refl eq_refl)) _ eq_refl eq_refl).
  - eexists.
    exact (proj2 (proj2 (Hobj eq_refl eq_refl)) _ eq_refl eq_refl eq_refl).
Defined.

(** ** The start of an execution *)

Lemma rename_loop_frame (budget : nat) (tmp p : path) :
  tmp.1 = p.1 →
  ∀ (attempts : Z) (w : World) (r : result unit) (ws : list World),
    rename_loop budget attempts tmp p w = (r, ws) →
    Forall (λ w', procs w' = procs w
                  ∧ ∀ q, q.1 ≠ p.1 → read_file w' q = read_file w q) ws.
Proof.
  intros Hd. induction budget as [|b IH]; intros attempts w r ws H.
  - cbn in H. inversion H; subst. constructor.
  - cbn [rename_loop] in H.
    assert (procs (pop_fault w).2 = procs w
            ∧ ∀ q, read_file (pop_fault w).2 q = read_file w q) as [Hp Hq].
    { split; [|intros q; apply pop_fault_files].
      unfold pop_fault. by destruct (faults w). }
    destruct (pop_fault w) as [f w1]. cbn [snd] in Hp, Hq.
    destruct f as [e|].
    + destruct (transient e).
      * destruct (rename_loop b (attempts + 1) tmp p
                    (sleep (100 * (attempts + 1)) w1)) as [r' ws'] eqn:Hl.
        inversion H; subst. apply IH in Hl.
        constructor.
        { split; [done|]. intros q _. by rewrite read_sleep. }
        eapply Forall_impl; [exact Hl|]. intros w' [Hp' Hq'].
        split; [by rewrite Hp'|]. intros q Hqd.
        by rewrite (Hq' q Hqd), read_sleep.
      * inversion H; subst. constructor; [|constructor].
        destruct (remove_file_frame w1 tmp) as (-> & _).
        split; [done|]. intros q Hqd.
        rewrite read_remove_ne; [done|]. intros ->. by rewrite Hd in Hqd.
    + inversion H; subst. constructor; [|constructor].
      destruct (rename_file_frame w1 tmp p) as (-> & _).
      split; [done|]. intros q Hqd. unfold rename_file.
      destruct (read_file w1 tmp); [|done].
      rewrite read_write_ne by (intros ->; done).
      rewrite read_remove_ne; [done|]. intros ->. by rewrite Hd in Hqd.
Qed.

Lemma atomicWrite_frame (self : Z) (p : path) (d : doc) (w : World)
    (r : result unit) (w' : World) :
  atomicWrite self p d w = (r, w') →
  procs w' = procs w ∧ ∀ q, q.1 ≠ p.1 → read_file w' q = read_file w q.
Proof.
  unfold atomicWrite, atomicWrite_steps.
  assert (procs (pop_entropy w).2 = procs w
          ∧ ∀ q, read_file (pop_entropy w).2 q = read_file w q) as [Hp Hq].
  { split; [|intros q; apply pop_entropy_files].
    unfold pop_entropy. by destruct (entropy w). }
  destruct (pop_entropy w) as [uuid w0]. cbn [fst snd seq fmap list_fmap app] in *.
  set (tmp := tmp_of self uuid p).
  set (w1 := write_file w0 tmp (Text d)).
  assert (procs w1 = procs w ∧ ∀ q, q.1 ≠ p.1 → read_file w1 q = read_file w q)
    as [Hp1 Hq1].
  { unfold w1. destruct (write_file_frame w0 tmp (Text d)) as (-> & _).
    split; [done|]. intros q Hqd.
    rewrite read_write_ne; [done|]. intros <-. by apply Hqd. }
  destruct (rename_loop 10 0 tmp p w1) as [r' ws] eqn:Hl.
  apply (rename_loop_frame 10 tmp p eq_refl) in Hl.
  intros [= <- <-].
  assert (Forall (λ w', procs w' = procs w
                        ∧ ∀ q, q.1 ≠ p.1 → read_file w' q = read_file w q)
                 (w1 :: ws)) as Hall.
  { constructor; [done|]. eapply Forall_impl; [exact Hl|].
    intros w' [Hp' Hq']. split; [congruence|].
    intros q Hqd. by rewrite (Hq' q Hqd), Hq1. }
  destruct (last (w1 :: ws)) as [wl|] eqn:Hlast.
  - apply last_Some_elem_of in Hlast.
    by apply (proj1 (Forall_forall _ _) Hall) in Hlast.
  - done.
Qed.

(** [saveTask] writes in the queue directory only. *)
Lemma saveTask_frame (pr : Proc) (t : Task) (w : World) (r : result unit)
    (pr' : Proc) (w' : World) :
  saveTask pr t w = (r, pr', w') →
  pid pr' = pid pr ∧ procs w' = procs w
  ∧ ∀ q, q.1 ≠ QUEUE_DIR → read_file w' q = read_file w q.
Proof.
  unfold saveTask. destruct (parseTask (clock w) t) as [v|m].
  - destruct (atomicWrite (pid pr) (task_file v) (DTask v) w) as [r' w1] eqn:Ha.
    apply atomicWrite_frame in Ha as [Hp Hq].
    destruct r'; intros [= <- <- <-]; done.
  - by intros [= <- <- <-].
Qed.

(** X14.  The lock is taken before the record is saved as RUNNING, and
    that save is outside the [try] whose [finally] releases the lock.
    When the save throws, the iteration ends in the outer handler and the
    lock stays behind, held by the engine itself: as long as the engine
    lives, every later attempt on that target is refused, its own
    included. *)
Theorem startTask_leaves_lock {runtime : Runtime}
    (retries : nat) (pr pr1 : Proc) (task : Task)
    (w w1 w2 : World) (m : string) :
  acquireLock retries (pid pr) (meta_id (meta task)) (spec_target (spec task)) w
  = Some (true, w1) →
  saveTask pr (with_state task (running (clock w1) (state task))) w1
  = (Throw m, pr1, w2) →
  isProcessAlive (Some (pid pr)) w = true →
  startTask retries pr task w = (StartCollapsed m, pr1, sleep 10000 w2)
  ∧ (∃ l, read_file (sleep 10000 w2) (lockFile (spec_target (spec task)))
          = Some (Text (DLock l))
          ∧ lock_pid l = pid pr)
  ∧ (∀ r other taskId',
       ∃ w3, acquireLock r other taskId' (spec_target (spec task))
               (sleep 10000 w2) = Some (false, w3))
  ∧ (∀ r task',
       toLowerCase (spec_target (spec task'))
       = toLowerCase (spec_target (spec task)) →
       ∃ pr3 w3, startTask r pr1 task' (sleep 10000 w2) = (LockBusy, pr3, w3)).
Proof.
  intros Ha Hs Halive.
  destruct (acquireLock_won _ _ _ _ _ _ Ha) as (Hp1 & l & Hl & Hpid & _).
  destruct (saveTask_frame _ _ _ _ _ _ Hs) as (Hpid1 & Hp2 & Hq2).
  assert (read_file (sleep 10000 w2) (lockFile (spec_target (spec task)))
          = Some (Text (DLock l))) as Hl2
    by (rewrite read_sleep, Hq2; done).
  assert (isProcessAlive (doc_pid (DLock l)) (sleep 10000 w2) = true) as Hal2.
  { cbn [doc_pid]. rewrite Hpid.
    rewrite <- Halive. apply isProcessAlive_procs. cbn [procs sleep].
    congruence. }
  assert (∀ r other taskId',
            ∃ w3, acquireLock r other taskId' (spec_target (spec task))
                    (sleep 10000 w2) = Some (false, w3)) as Hrefused.
  { intros r other taskId'.
    destruct (acquireLock_excluded r other taskId' _ _ _ Hl2 Hal2)
      as (w3 & H3 & _).
    by exists w3. }
  split; [unfold startTask; by rewrite Ha, Hs|].
  split; [by exists l|]. split; [exact Hrefused|].
  intros r task' Hcase.
  destruct (Hrefused r (pid pr1) (meta_id (meta task'))) as (w3 & H3).
  unfold startTask.
  rewrite (acquireLock_same_case _ _ _ _ _ _ Hcase), H3.
  destruct (getQueue false pr1 w3) as [[q pr3] w4]. by eexists _, _.
Qed.

Lemma startTask_leaves_lock_witness :
  ∃ pr1 w',
    startTask 1 (fresh_proc 101)
      (TaskSchema_out 1700000000000 blank_prompt_task) idle_world
    = (StartCollapsed "ZodError: spec.payload.user_message", pr1, w')
    ∧ (∃ l, read_file w' (lockFile "chatgpt") = Some (Text (DLock l))
            ∧ lock_pid l = 101)
    ∧ ∃ pr3 w3, startTask 1 pr1 T1 w' = (LockBusy, pr3, w3).
Proof.
  destruct (startTask_leaves_lock 1 (fresh_proc 101) (fresh_proc 101)
              (TaskSchema_out 1700000000000 blank_prompt_task)
              idle_world
              (write_file idle_world (lockFile "chatgpt")
                 (Text (DLock (lockData 101 "T1" idle_world))))
              (write_file idle_world (lockFile "chatgpt")
                 (Text (DLock (lockData 101 "T1" idle_world))))
              "ZodError: spec.payload.user_message")
    as (H1 & H2 & _ & H4).
  - reflexivity.
  - reflexivity.
  - reflexivity.
  - eexists _, _. split; [exact H1|]. split; [exact H2|].
    apply (H4 1%nat T1). reflexivity.
Defined.

(** ** The scheduler *)

Lemma saveTask_calm (pr : Proc) (t : Task) (w : World) (r : result unit)
    (pr' : Proc) (w' : World) :
  faults w = [] →
  saveTask pr t w = (r, pr', w') →
  faults w' = [] ∧ clock w' = clock w.
Proof.
  intros Hf. unfold saveTask. destruct (parseTask (clock w) t) as [v|m].
  - destruct (atomicWrite_replaces (pid pr) (task_file v) (DTask v) w Hf)
      as (w1 & -> & _ & Hf1 & _ & Hc1 & _).
    by intros [= <- <- <-].
  - by intros [= <- <- <-].
Qed.

Lemma getQueue_calm (force : bool) (pr : Proc) (w : World) (q : list doc)
    (pr' : Proc) (w' : World) :
  faults w = [] →
  getQueue force pr w = (q, pr', w') →
  faults w' = [] ∧ clock w' = clock w.
Proof.
  intros Hf.
  assert (scanQueue pr w = (q, pr', w') → faults w' = [] ∧ clock w' = clock w)
    as Hscan.
  { unfold scanQueue.
    destruct (read_all _ w) as [rs w1] eqn:Hra.
    destruct (read_all_parsed _ _ _ _ Hf Hra) as (_ & Hf1 & Hc1 & _).
    by intros [= <- <- <-]. }
  unfold getQueue. destruct (globalQueueCache pr); [|done].
  destruct (negb force && negb (isCacheDirty pr)
            && negb (bool_decide (clock w - lastFullScan pr > CACHE_HEARTBEAT_MS)));
    [|done].
  by intros [= <- <- <-].
Qed.

Lemma sweep_one_calm (cfg : Config) (now : Z) (pr : Proc) (d : doc) (w : World)
    (r : result unit) (d' : doc) (pr' : Proc) (w' : World) :
  faults w = [] →
  sweep_one cfg now pr d w = (r, d', pr', w') →
  faults w' = [] ∧ clock w' = clock w.
Proof.
  intros Hf. unfold sweep_one. destruct d as [t|l|v]; [|by intros [= <- <- <- <-]..].
  destruct (is_zombie cfg now t); [|by intros [= <- <- <- <-]].
  destruct (state_history (mark "FAILED" "Timeout de Recuperação (Zumbi)" (state t)));
    [|by intros [= <- <- <- <-]].
  destruct (saveTask pr _ w) as [[r1 pr1] w1] eqn:Hs.
  apply (saveTask_calm _ _ _ _ _ _ Hf) in Hs. by intros [= <- <- <- <-].
Qed.

Lemma sweep_calm (cfg : Config) (now : Z) (l : list doc) :
  ∀ (pr : Proc) (w : World) r l' pr' w',
    faults w = [] →
    sweep cfg now pr l w = (r, l', pr', w') →
    faults w' = [] ∧ clock w' = clock w.
Proof.
  induction l as [|d l IH]; intros pr w r l' pr' w' Hf H; cbn [sweep] in H.
  - by inversion H; subst.
  - destruct (sweep_one cfg now pr d w) as [[[r1 d1] pr1] w1] eqn:H1.
    apply (sweep_one_calm _ _ _ _ _ _ _ _ _ Hf) in H1 as [Hf1 Hc1].
    destruct r1 as [[]|m].
    + destruct (sweep cfg now pr1 l w1) as [[[r2 l2] pr2] w2] eqn:H2.
      apply (IH _ _ _ _ _ _ Hf1) in H2 as [Hf2 Hc2].
      inversion H; subst. split; [done|congruence].
    + by inversion H; subst.
Qed.

Lemma eligible_one_calm (pr : Proc) (pre : list doc) (d : doc) (rest : list doc)
    (w : World) r d' pr' w' :
  faults w = [] →
  eligible_one pr pre d rest w = (r, d', pr', w') →
  faults w' = [] ∧ clock w' = clock w.
Proof.
  intros Hf. unfold eligible_one. destruct d as [t|l|v]; [|by intros [= <- <- <- <-]..].
  destruct (negb (String.eqb (state_status (state t)) "PENDING"));
    [by intros [= <- <- <- <-]|].
  destruct (time_locked (clock w) t); [by intros [= <- <- <- <-]|].
  destruct (policy_dependencies (policy t)) as [|dep deps];
    [by intros [= <- <- <- <-]|].
  destruct (check_deps (pre ++ DTask t :: rest) (dep :: deps) false)
    as [[| |]|m]; try by intros [= <- <- <- <-].
  destruct (saveTask pr (skip t) w) as [[r1 pr1] w1] eqn:Hs.
  apply (saveTask_calm _ _ _ _ _ _ Hf) in Hs. by intros [= <- <- <- <-].
Qed.

(** The callback keeps a task only if its not-before time has passed. *)
Lemma eligible_one_kept (pr : Proc) (pre : list doc) (t : Task) (rest : list doc)
    (w : World) d' pr' w' :
  eligible_one pr pre (DTask t) rest w = (Ok true, d', pr', w') →
  time_locked (clock w) t = false.
Proof.
  unfold eligible_one.
  destruct (negb (String.eqb (state_status (state t)) "PENDING")); [done|].
  by destruct (time_locked (clock w) t).
Qed.

(** The callback keeps every task that could run. *)
Lemma eligible_one_keeps (pr : Proc) (pre : list doc) (t : Task) (rest : list doc)
    (w : World) :
  eligible_now (pre ++ DTask t :: rest) (clock w) t →
  eligible_one pr pre (DTask t) rest w = (Ok true, DTask t, pr, w).
Proof.
  intros (Hst & Htl & Hdone).
  destruct (policy_dependencies (policy t)) as [|dep deps] eqn:Hd.
  - unfold eligible_one. by rewrite Hst, Htl, Hd.
  - rewrite eligible_one_deps by (done || by rewrite Hd).
    by rewrite Hd, (check_deps_clear _ _ Hdone).
Qed.

Lemma skip_status (t : Task) : state_status (state (skip t)) = "SKIPPED".
Proof. reflexivity. Qed.

Lemma find_task_devolves (l l' : list doc) (dep : string) (p' : Task) :
  Forall2 skipped_or_same l l' →
  find_task l' dep = Ok (Some p') →
  ∃ p, find_task l dep = Ok (Some p)
       ∧ (p' = p ∨ (state_status (state p) = "PENDING" ∧ p' = skip p)).
Proof.
  intros H. induction H as [|d d' l l' Hd _ IH]; intros Hf; cbn in Hf; [done|].
  destruct Hd as [->|(t & -> & Hst & ->)]; cbn [find_task] in *.
  - destruct d as [x|lk|v]; [|done..].
    destruct (String.eqb (meta_id (meta x)) dep); [|by apply IH].
    inversion Hf; subst. exists p'. auto.
  - change (meta_id (meta (skip t))) with (meta_id (meta t)) in Hf.
    destruct (String.eqb (meta_id (meta t)) dep); [|by apply IH].
    inversion Hf; subst. exists t. auto.
Qed.

Lemma dep_done_devolves (l l' : list doc) (dep : string) :
  Forall2 skipped_or_same l l' → dep_done l' dep → dep_done l dep.
Proof.
  intros H (p' & Hp' & Hst).
  destruct (find_task_devolves l l' dep p' H Hp') as (p & Hp & [->|[_ ->]]).
  - by exists p.
  - by rewrite skip_status in Hst.
Qed.

(** The filter, when no fault is pending: the tasks it keeps are not held
    back by their not-before time, and it keeps every task of the queue,
    as the filter leaves it, that could run. *)
Lemma eligibility_exact (rest : list doc) :
  ∀ (pr : Proc) (pre : list doc) (w : World) kept all pr' w',
    faults w = [] →
    eligibility pr pre rest w = (Ok kept, all, pr', w') →
    faults w' = [] ∧ clock w' = clock w
    ∧ (∀ i t, (i, t) ∈ kept → time_locked (clock w) t = false)
    ∧ (∀ j u, (length pre ≤ j)%nat → all !! j = Some (DTask u) →
              eligible_now all (clock w) u → (j, u) ∈ kept).
Proof.
  induction rest as [|d more IH]; intros pr pre w kept all pr' w' Hf H;
    cbn [eligibility] in H.
  - inversion H; subst. split; [done|]. split; [done|].
    split; [by intros i t ?%elem_of_nil|].
    intros j u Hj Hl. apply lookup_lt_Some in Hl. lia.
  - destruct (eligible_one pr pre d more w) as [[[r1 d1] pr1] w1] eqn:H1.
    destruct (eligible_one_calm _ _ _ _ _ _ _ _ _ Hf H1) as [Hf1 Hc1].
    destruct (eligible_one_effect _ _ _ _ _ _ _ _ _ H1) as [Hstep Htrue].
    destruct r1 as [keep|m]; [|done].
    destruct (eligibility pr1 (pre ++ [d1]) more w1) as [[[r2 all2] pr2] w2] eqn:H2.
    destruct (eligibility_effect _ _ _ _ _ _ _ _ H2) as [(rest' & Hall & Hev) _].
    destruct r2 as [kept'|m]; [|done].
    destruct (IH _ _ _ _ _ _ _ Hf1 H2) as (Hf2 & Hc2 & Hsound & Hcomplete).
    inversion H; subst kept all pr' w'. clear H.
    assert (all2 = pre ++ d1 :: rest') as Hall'
      by (by rewrite Hall, <- app_assoc).
    split; [done|]. split; [congruence|]. split.
    + intros i t Hin.
      assert ((i, t) ∈ kept' ∨ (keep = true ∧ d1 = DTask t)) as [Hin'|[-> ->]].
      { destruct keep; [|by left]. destruct d1 as [t1| |]; [|by left..].
        apply elem_of_cons in Hin as [[= -> ->]|Hin]; [by right|by left]. }
      * rewrite <- Hc1. by apply (Hsound i t).
      * destruct (Htrue eq_refl) as (t0 & -> & [= ->] & _).
        by apply (eligible_one_kept _ _ _ _ _ _ _ _ H1).
    + intros j u Hj Hl Hel.
      destruct (decide (j = length pre)) as [->|Hne].
      * (* the element the callback has just visited *)
        rewrite Hall', list_lookup_middle in Hl by done. inversion Hl; subst d1.
        destruct Hel as (Hst & Htl & Hdone).
        assert (d = DTask u) as ->.
        { destruct Hstep as [->|(t1 & -> & _ & [= ->])]; [done|].
          by rewrite skip_status in Hst. }
        assert (eligible_now (pre ++ DTask u :: more) (clock w) u) as Hel0.
        { split; [done|]. split; [done|].
          eapply Forall_impl; [exact Hdone|]. intros dep Hd.
          apply (dep_done_devolves _ all2); [|done].
          rewrite Hall'. apply Forall2_app; [apply skipped_or_same_refl|].
          constructor; [by left|done]. }
        rewrite (eligible_one_keeps pr pre u more w Hel0) in H1.
        inversion H1; subst. apply elem_of_cons. by left.
      * assert ((j, u) ∈ kept') as Hin.
        { apply Hcomplete; [rewrite length_app; cbn; lia|done|].
          by rewrite Hc1. }
        destruct keep; [|done]. destruct d1; [|done..].
        apply elem_of_cons. by right.
Qed.

(** *** The order of selection *)

Section Order.
Context {runtime : Runtime}.

Lemma by_priority_le (a b : Task) :
  by_priority a b ≤ 0 ↔
  meta_priority (meta b) < meta_priority (meta a)
  ∨ (meta_priority (meta b) = meta_priority (meta a)
     ∧ localeCompare (meta_created_at (meta a)) (meta_created_at (meta b)) ≤ 0).
Proof.
  unfold by_priority.
  destruct (Z.eqb_spec (meta_priority (meta b)) (meta_priority (meta a)));
    cbn; lia.
Qed.

Lemma by_priority_refl (a : Task) : by_priority a a ≤ 0.
Proof. apply by_priority_le. right. by rewrite localeCompare_refl. Qed.

Lemma by_priority_total (a b : Task) : ¬ by_priority a b ≤ 0 → by_priority b a ≤ 0.
Proof.
  rewrite !by_priority_le. intros H.
  pose proof (localeCompare_antisym (meta_created_at (meta a))
                (meta_created_at (meta b))) as Ha.
  destruct (Z.sgn_spec (localeCompare (meta_created_at (meta a))
                          (meta_created_at (meta b)))) as [[? E]|[[? E]|[? E]]];
    destruct (Z.sgn_spec (localeCompare (meta_created_at (meta b))
                            (meta_created_at (meta a)))) as [[? F]|[[? F]|[? F]]];
    rewrite E, F in Ha; lia.
Qed.

Lemma by_priority_trans (a b c : Task) :
  by_priority a b ≤ 0 → by_priority b c ≤ 0 → by_priority a c ≤ 0.
Proof.
  rewrite !by_priority_le. intros [H1|[H1 L1]] [H2|[H2 L2]]; try lia.
  right. split; [lia|]. by eapply localeCompare_trans.
Qed.

(** The head of the sorted list goes before every element of it. *)
Lemma head_sort_first (l : list (nat * Task)) :
  ∀ x, head (sort l) = Some x → ∀ y, y ∈ l → by_priority x.2 y.2 ≤ 0.
Proof.
  induction l as [|z l IH]; intros x Hx y Hy; [by apply elem_of_nil in Hy|].
  cbn [sort foldr] in Hx. fold (sort l) in Hx.
  destruct (sort l) as [|h r] eqn:Hs.
  - cbn in Hx. inversion Hx; subst.
    assert (l = []) as ->.
    { destruct l as [|a l]; [done|].
      assert (a ∈ sort (a :: l)) as Ha by (apply sort_elem; left).
      rewrite Hs in Ha. by apply elem_of_nil in Ha. }
    apply list_elem_of_singleton in Hy as ->. apply by_priority_refl.
  - cbn [insert_sorted] in Hx.
    assert (∀ y, y ∈ l → by_priority h.2 y.2 ≤ 0) as Hh by by apply IH.
    destruct (Z.leb_spec (by_priority z.2 h.2) 0) as [Hle|Hgt].
    + inversion Hx; subst.
      apply elem_of_cons in Hy as [->|Hy]; [apply by_priority_refl|].
      eapply by_priority_trans; [exact Hle|by apply Hh].
    + inversion Hx; subst.
      apply elem_of_cons in Hy as [->|Hy]; [|by apply Hh].
      apply by_priority_total. lia.
Qed.

(** X15.  [loadNextTask] selects a best task among those that could run,
    on every engine: when no fault is pending and the pass selects a task,
    that task is not held back by its not-before time, and no task of the
    queue (as the pass leaves it) that could run has a higher priority;
    among those of the same priority none goes before the selected one in
    the engine's collation of the creation stamps, so that, when both
    stamps are ISO renderings with a four-digit year, the selected task
    was created no later. *)
Theorem loadNextTask_picks_best (cfg : Config) (pr pr' : Proc) (w w' : World)
    (i : nat) (t : Task) :
  faults w = [] →
  loadNextTask cfg pr w = (Ok (Some (i, t)), pr', w') →
  ∃ allTasks,
    globalQueueCache pr' = Some allTasks
    ∧ allTasks !! i = Some (DTask t)
    ∧ eligible_now allTasks (clock w) t
    ∧ ∀ j u, allTasks !! j = Some (DTask u) →
             eligible_now allTasks (clock w) u →
             meta_priority (meta u) ≤ meta_priority (meta t)
             ∧ (meta_priority (meta u) = meta_priority (meta t) →
                localeCompare (meta_created_at (meta t))
                  (meta_created_at (meta u)) ≤ 0
                ∧ ∀ x y, meta_created_at (meta t) = Iso x →
                         meta_created_at (meta u) = Iso y →
                         four_digit_year x → four_digit_year y → x ≤ y).
Proof.
  intros Hf H.
  destruct (loadNextTask_selected _ _ _ _ _ _ _ H)
    as (allTasks & Hcache & Hi & Hst & Hdone).
  unfold loadNextTask in H.
  destruct (getQueue false pr w) as [[all0 pr0] w0] eqn:Hq.
  destruct (getQueue_calm _ _ _ _ _ _ Hf Hq) as [Hf0 Hc0].
  destruct (sweep cfg (clock w0) pr0 all0 w0) as [[[r1 all1] pr1] w1] eqn:Hsw.
  destruct (sweep_calm _ _ _ _ _ _ _ _ _ Hf0 Hsw) as [Hf1 Hc1].
  destruct r1 as [[]|m]; [|done].
  destruct (eligibility pr1 [] all1 w1) as [[[r2 all2] pr2] w2] eqn:He.
  destruct r2 as [eligible|m]; [|done].
  destruct (eligibility_exact _ _ _ _ _ _ _ _ Hf1 He)
    as (_ & _ & Hsound & Hcomplete).
  inversion H as [[Hh Hp Hw]].
  assert (allTasks = all2) as -> by (rewrite <- Hp in Hcache; cbn in Hcache; congruence).
  assert (clock w1 = clock w) as Hc by congruence. rewrite Hc in *.
  exists all2. split; [done|]. split; [done|].
  split.
  { split; [done|]. split; [|done].
    apply (Hsound i t). by apply head_sort_elem. }
  intros j u Hj Hel.
  assert ((j, u) ∈ eligible) as Hin by (apply Hcomplete; [cbn; lia|done..]).
  pose proof (head_sort_first eligible _ Hh _ Hin) as Hle.
  apply by_priority_le in Hle. cbn [snd] in Hle.
  split; [lia|]. intros Heq.
  assert (localeCompare (meta_created_at (meta t)) (meta_created_at (meta u)) ≤ 0)
    as Hlc by lia.
  split; [done|]. intros x y Hx Hy Fx Fy. rewrite Hx, Hy in Hlc.
  pose proof (localeCompare_iso x y Fx Fy) as Hs.
  destruct (Z.sgn_spec (localeCompare (Iso x) (Iso y))) as [[? E]|[[? E]|[? E]]];
    rewrite E in Hs; lia.
Qed.

End Order.

(** T9 and T1 are PENDING with the same priority; T9 comes first in the
    scan and T1 was created earlier: the pass selects T1. *)
Lemma loadNextTask_picks_best_witness :
  ∃ pr' w',
    loadNextTask DEFAULTS (fresh_proc 101) world_with_two_tasks
    = (Ok (Some (1%nat, T1)), pr', w')
    ∧ globalQueueCache pr' = Some [DTask T9; DTask T1]
    ∧ eligible_now [DTask T9; DTask T1] (clock world_with_two_tasks) T9
    ∧ meta_priority (meta T9) = meta_priority (meta T1)
    ∧ localeCompare (meta_created_at (meta T1)) (meta_created_at (meta T9)) ≤ 0
    ∧ ∀ x y, meta_created_at (meta T1) = Iso x →
             meta_created_at (meta T9) = Iso y →
             four_digit_year x → four_digit_year y → x ≤ y.
Proof.
  assert (∃ pr' w',
            loadNextTask DEFAULTS (fresh_proc 101) world_with_two_tasks
            = (Ok (Some (1%nat, T1)), pr', w')
            ∧ globalQueueCache pr' = Some [DTask T9; DTask T1])
    as (pr' & w' & Hrun & Hlist)
    by (eexists _, _; split; [vm_compute; reflexivity|reflexivity]).
  exists pr', w'. split; [exact Hrun|]. split; [exact Hlist|].
  assert (eligible_now [DTask T9; DTask T1] (clock world_with_two_tasks) T9)
    as Hel.
  { split; [reflexivity|]. split; [reflexivity|]. constructor. }
  split; [exact Hel|]. split; [reflexivity|].
  destruct (loadNextTask_picks_best DEFAULTS (fresh_proc 101) pr'
              world_with_two_tasks w' 1%nat T1 eq_refl Hrun)
    as (allTasks & Hcache & _ & _ & Hbest).
  rewrite Hlist in Hcache. injection Hcache as <-.
  exact (proj2 (Hbest 0%nat T9 eq_refl Hel) eq_refl).
Defined.

(** ** The completion protocol, continued *)




(** The loop once the text has been seen: it returns it when it has met it
    [n] times more. *)
Lemma waitForCompletion_loop_stable {runtime : Runtime} (self : Driver)
    (estimate : string → Z → string → Z) (page : nat → Snapshot) (start : nat)
    (n : Z) (text : string) :
  is_Some (_detectLanguage self) →
  STABLE_CYCLES (driver_config self) = Some n →
  (∀ k, blocker (page k) = false) →
  (∀ k, answer start (page k) = text) →
  text ≠ "" →
  ∀ (fuel : nat) (c : Z) (k : nat) (wd : Z),
    0 ≤ c < n →
    waitForCompletion_loop fuel self estimate page k start wd text c
    = if bool_decide (Z.to_nat (n - c) ≤ fuel)%nat then Completed text
      else Polling.
Proof.
  intros [detect Hm] Hn Hb Ha Hne.
  induction fuel as [|fuel IH]; intros c k wd Hc; cbn [waitForCompletion_loop].
  - rewrite bool_decide_eq_false_2 by lia. done.
  - rewrite Hm. specialize (Hb k). unfold blocker in Hb.
    apply orb_false_iff in Hb as [[H1 H2]%orb_false_iff H3].
    rewrite H1, H2, H3.
    fold (answer start (page k)). rewrite (Ha k).
    rewrite (eqb_false text "" Hne), String.eqb_refl. cbn [negb andb].
    rewrite Hn, js_gt_promise.
    destruct (bool_decide_reflect (c + 1 >= n)) as [Hge|Hlt].
    + rewrite bool_decide_eq_true_2 by lia. done.
    + rewrite IH by lia.
      destruct (bool_decide_reflect (Z.to_nat (n - (c + 1)) ≤ fuel)%nat);
        [rewrite bool_decide_eq_true_2 by lia|rewrite bool_decide_eq_false_2 by lia];
        done.
Qed.

(** X17.  The stability protocol of [waitForCompletion], on a driver
    object that has a [_detectLanguage] method (the classes define none,
    so a driver they build fails before it gets here): with
    [STABLE_CYCLES] set to [n ≥ 1], on a page with no blocker that shows
    the same non-empty answer at every poll, the call returns that answer
    at poll [n + 1] and not before. *)
Theorem waitForCompletion_returns_stable_answer {runtime : Runtime} (self : Driver)
    (estimate : string → Z → string → Z) (page : nat → Snapshot)
    (startSnapshot : nat) (wd0 : option Z) (n : Z) (text : string) :
  is_Some (_detectLanguage self) →
  STABLE_CYCLES (driver_config self) = Some n →
  1 ≤ n →
  (∀ k, blocker (page k) = false) →
  (∀ k, answer startSnapshot (page k) = text) →
  text ≠ "" →
  waitForCompletion (S (Z.to_nat n)) self estimate page startSnapshot wd0
  = Completed text
  ∧ ∀ fuel, (fuel ≤ Z.to_nat n)%nat →
      waitForCompletion fuel self estimate page startSnapshot wd0 = Polling.
Proof.
  intros Hsome Hn Hle Hb Ha Hne.
  assert (∀ fuel,
            waitForCompletion (S fuel) self estimate page startSnapshot wd0
            = if bool_decide (Z.to_nat n ≤ fuel)%nat then Completed text
              else Polling) as Hrun.
  { intros fuel. unfold waitForCompletion. cbn [waitForCompletion_loop].
    destruct Hsome as [detect Hm]. rewrite Hm.
    pose proof (Hb 0%nat) as Hb0. unfold blocker in Hb0.
    apply orb_false_iff in Hb0 as [[H1 H2]%orb_false_iff H3].
    rewrite H1, H2, H3.
    fold (answer startSnapshot (page 0%nat)). rewrite (Ha 0%nat).
    rewrite (eqb_false text "" Hne). cbn [negb andb].
    rewrite Hn, bool_decide_eq_false_2 by lia. rewrite js_gt_promise.
    rewrite (waitForCompletion_loop_stable self estimate page startSnapshot n
               text (ex_intro _ detect Hm) Hn Hb Ha Hne) by lia.
    by rewrite Z.sub_0_r. }
  split.
  - rewrite Hrun. by rewrite bool_decide_eq_true_2.
  - intros [|fuel] Hf; [done|]. rewrite Hrun.
    by rewrite bool_decide_eq_false_2 by lia.
Qed.

Lemma waitForCompletion_returns_stable_answer_witness :
  waitForCompletion 4 (patched_driver configured) (λ _ _ _, 20000)
    answered_page 0 None
  = Completed "The report has three parts.".
Proof.
  apply (waitForCompletion_returns_stable_answer (patched_driver configured)
           (λ _ _ _, 20000) answered_page 0 None 3
           "The report has three parts.").
  - by eexists.
  - reflexivity.
  - lia.
  - intros k. reflexivity.
  - intros k. reflexivity.
  - intros H. discriminate H.
Defined.

(** ** The connection orchestrator, continued *)

Module OrchestratorMore.
Import Orchestrator OrchestratorSpec OrchestratorProps OrchestratorInv.

Lemma pushStateHistory_bounded (next : STATES) (h : list STATES) (size : nat) :
  (length h ≤ size)%nat → (length (_pushStateHistory next h size) ≤ size)%nat.
Proof.
  intros H. unfold _pushStateHistory.
  destruct (bool_decide_reflect (size < length (h ++ [next]))%nat) as [Hlt|Hge].
  - destruct h; cbn in *; rewrite ?length_app in *; cbn in *; lia.
  - lia.
Qed.

Lemma deliver_tick (c : Chrome) (e : Event) (o : Orch) :
  tick (deliver c o e) = tick o.
Proof.
  unfold deliver. destruct (browser o); [|done].
  destruct e as [|type u].
  - unfold _handleDisconnect.
    match goal with |- tick (setState ?s ?o1) = _ =>
      destruct (setState_quiet s o1) as (_ & _ & _ & Ht & _) end.
    by rewrite Ht.
  - unfold _handleTargetDestroyed. destruct (page o) as [p|]; [|done].
    destruct (String.eqb type "page" && String.eqb u (url c p)
              && isClosed c p); [|done].
    match goal with |- tick (setState ?s ?o1) = _ =>
      destruct (setState_quiet s o1) as (_ & _ & _ & Ht & _) end.
    by rewrite Ht.
Qed.

Lemma awaited_tick (c : Chrome) (o : Orch) : tick (awaited c o) = S (tick o).
Proof.
  unfold awaited. change (S (tick o)) with (tick (next_tick o)).
  generalize (next_tick o).
  induction (events c) as [|e es IH]; intros o1; [done|].
  cbn. by rewrite IH, deliver_tick.
Qed.

Section Run.
Variable env : nat → Chrome.

Lemma setState_sound (s : STATES) (o : Orch) :
  sound env o → sound env (setState s o).
Proof.
  intros [Hp Hh]. unfold setState. destruct (decide (state o = s)); [done|].
  split; [exact Hp|]. unfold history_bounded. cbn.
  by apply pushStateHistory_bounded.
Qed.

Lemma forget_page_sound (o o' : Orch) :
  config o' = config o → stateHistory o' = stateHistory o → page o' = None →
  sound env o → sound env o'.
Proof.
  intros Hc Hh Hp [_ Hb]. split.
  - intros p. by rewrite Hp.
  - unfold history_bounded. by rewrite Hh, Hc.
Qed.

Lemma same_page_sound (o o' : Orch) :
  config o' = config o → stateHistory o' = stateHistory o → page o' = page o →
  (tick o ≤ tick o')%nat →
  sound env o → sound env o'.
Proof.
  intros Hc Hh Hp Ht [Ha Hb]. split.
  - intros p Hpg. rewrite Hp in Hpg.
    destruct (Ha p Hpg) as (k & Hk & Hcand).
    exists k. split; [lia|]. by rewrite Hc.
  - unfold history_bounded. by rewrite Hh, Hc.
Qed.

Lemma deliver_sound (c : Chrome) (e : Event) (o : Orch) :
  sound env o → sound env (deliver c o e).
Proof.
  intros Hs. unfold deliver. destruct (browser o); [|done].
  destruct e as [|type u].
  - apply setState_sound. by apply (forget_page_sound o).
  - unfold _handleTargetDestroyed. destruct (page o) as [p|]; [|done].
    destruct (String.eqb type "page" && String.eqb u (url c p)
              && isClosed c p); [|done].
    apply setState_sound. by apply (forget_page_sound o).
Qed.

Lemma awaited_sound (c : Chrome) (o : Orch) :
  sound env o → sound env (awaited c o).
Proof.
  intros Hs. unfold awaited.
  assert (sound env (next_tick o)) as Hn
    by (apply (same_page_sound o); [done..|cbn; lia|done]).
  revert Hn. generalize (next_tick o).
  induction (events c) as [|e es IH]; intros o1 H1; [done|].
  cbn. apply IH. by apply deliver_sound.
Qed.

Lemma nap_sound (c : Chrome) (k : pause) (ms : Q) (o : Orch) :
  sound env o → sound env (nap c k ms o).
Proof.
  intros Hs. apply awaited_sound. by apply (same_page_sound o).
Qed.

Lemma tryConnect_sound (probe : Chrome → Z → option Browser) (ps : list Z) :
  ∀ o b o', tryConnect env probe ps o = (b, o') → sound env o → sound env o'.
Proof.
  induction ps as [|port ps IH]; intros o b o' H Hs; cbn in H.
  - by inversion H; subst.
  - destruct (probe (env (tick o)) port).
    + inversion H; subst. by apply awaited_sound.
    + eapply IH; [exact H|]. by apply awaited_sound.
Qed.

Lemma connect_sound (strategies : list string) :
  ∀ o b o', connect env strategies o = (b, o') → sound env o → sound env o'.
Proof.
  induction strategies as [|s strategies IH]; intros o b o' H Hs; cbn in H.
  - by inversion H; subst.
  - assert (∃ b1 o1,
              (if String.eqb s "BROWSER_URL" then tryConnectBrowserURL env o
               else if String.eqb s "WS_ENDPOINT" then tryConnectWSEndpoint env o
               else (None, o)) = (b1, o1)
              ∧ sound env o1) as (b1 & o1 & He & Hs1).
    { destruct (String.eqb s "BROWSER_URL");
        [|destruct (String.eqb s "WS_ENDPOINT")].
      - destruct (tryConnectBrowserURL env o) as [b1 o1] eqn:Ht.
        exists b1, o1. split; [done|]. by apply tryConnect_sound in Ht.
      - destruct (tryConnectWSEndpoint env o) as [b1 o1] eqn:Ht.
        exists b1, o1. split; [done|]. by apply tryConnect_sound in Ht.
      - by exists None, o. }
    rewrite He in H. destruct b1.
    + by inversion H; subst.
    + by eapply IH.
Qed.

Lemma ensureBrowser_loop_sound (fuel : nat) :
  ∀ o b o', ensureBrowser_loop env fuel o = Done b o' →
            sound env o → sound env o'.
Proof.
  induction fuel as [|fuel IH]; intros o b o' H Hs; cbn [ensureBrowser_loop] in H;
    [done|].
  destruct (connect env _ (setState CONNECTING_BROWSER o)) as [[b1|] o2] eqn:Hcon;
    apply connect_sound in Hcon; try by apply setState_sound.
  - inversion H; subst. apply setState_sound. by apply (same_page_sound o2).
  - eapply IH; [exact H|]. apply nap_sound, setState_sound.
    by apply (same_page_sound o2).
Qed.

Lemma ensureBrowser_sound (fuel : nat) (o : Orch) (b : Browser) (o' : Orch) :
  ensureBrowser env fuel o = Done b o' → sound env o → sound env o'.
Proof.
  unfold ensureBrowser. intros H Hs.
  assert (sound env (setState WAITING_FOR_BROWSER o)) as H1
    by by apply setState_sound.
  assert (sound env (cleanup (setState WAITING_FOR_BROWSER o))) as H2
    by by apply (forget_page_sound (setState WAITING_FOR_BROWSER o)).
  destruct (browser (setState WAITING_FOR_BROWSER o)) as [b1|];
    [|by eapply ensureBrowser_loop_sound].
  destruct (isConnected _ b1); [|by eapply ensureBrowser_loop_sound].
  inversion H; subst. by apply setState_sound.
Qed.

(** The tab the scan selects is one of the candidates of that instant. *)
Lemma scanForTargetPage_candidate (b : Browser) (o : Orch) (p : Page) (o1 : Orch) :
  scanForTargetPage env b o = (Ok (Some p), o1) →
  candidate (config o) (env (tick o)) p = true ∧ o1 = awaited (env (tick o)) o.
Proof.
  unfold scanForTargetPage. destruct (pages (env (tick o)) b) as [ps|m]; [|done].
  intros [= Hsel <-]. split; [|done].
  assert (p ∈ filter (λ p, candidate (config o) (env (tick o)) p = true) ps)
    as Hin.
  { destruct (String.eqb (pageSelectionPolicy (config o)) "MOST_RECENT").
    - by apply last_Some_elem_of.
    - by apply head_Some_elem_of. }
  by apply list_elem_of_filter in Hin as [? _].
Qed.

Lemma scanForTargetPage_state (b : Browser) (o : Orch) r (o1 : Orch) :
  scanForTargetPage env b o = (r, o1) → o1 = awaited (env (tick o)) o.
Proof.
  unfold scanForTargetPage. destruct (pages (env (tick o)) b); by intros [= _ <-].
Qed.

Lemma select_page_sound (p : Page) (k : nat) (o : Orch) :
  candidate (config o) (env k) p = true → (k < tick o)%nat →
  sound env o → sound env (set_page (Some p) o).
Proof.
  intros Hc Hk [_ Hb]. split; [|exact Hb].
  intros q [= <-]. by exists k.
Qed.

Lemma ensurePage_loop_sound (fuel : nat) :
  ∀ o, sound env o →
       match ensurePage_loop env fuel o with
       | Done _ o' | Raised _ o' => sound env o'
       | Looping => True
       end.
Proof.
  induction fuel as [|fuel IH]; intros o Hs; cbn [ensurePage_loop]; [done|].
  destruct (browser o) as [b|]; [|done].
  destruct (negb (isConnected (env (tick o)) b)); [done|].
  destruct (scanForTargetPage env b o) as [[[p|]|m] o1] eqn:Hscan.
  - apply scanForTargetPage_candidate in Hscan as [Hc ->].
    apply setState_sound, (select_page_sound p (tick o));
      [|by rewrite awaited_tick; lia|by apply awaited_sound].
    destruct (awaited_quiet (env (tick o)) o) as [-> _]. exact Hc.
  - apply scanForTargetPage_state in Hscan as ->.
    apply IH, nap_sound.
    by apply (same_page_sound (awaited (env (tick o)) o));
      [..|apply awaited_sound].
  - apply scanForTargetPage_state in Hscan as ->.
    destruct (includes m "Browser lost"); [by apply awaited_sound|].
    by apply IH, nap_sound, awaited_sound.
Qed.

Lemma ensurePage_sound (fuel : nat) (o : Orch) :
  sound env o →
  match ensurePage env fuel o with
  | Done _ o' | Raised _ o' => sound env o'
  | Looping => True
  end.
Proof.
  intros Hs. unfold ensurePage.
  assert (sound env (setState WAITING_FOR_PAGE o)) as H1
    by by apply setState_sound.
  destruct (page (setState WAITING_FOR_PAGE o)) as [p|];
    [|by apply ensurePage_loop_sound].
  destruct (negb (isClosed _ p)); [by apply setState_sound|].
  by apply ensurePage_loop_sound.
Qed.

Lemma validatePage_sound (p : Page) (o : Orch) (ok : bool) (o' : Orch) :
  validatePage env p o = (ok, o') → sound env o → sound env o'.
Proof.
  unfold validatePage. intros H Hs.
  assert (sound env (setState VALIDATING_PAGE o)) as H1
    by by apply setState_sound.
  destruct (isClosed _ p); inversion H; subst.
  - apply setState_sound.
    by apply (forget_page_sound (setState VALIDATING_PAGE o)).
  - by apply setState_sound, awaited_sound.
Qed.

Lemma acquireContext_loop_sound (fuel : nat) :
  ∀ o r o', acquireContext_loop env fuel o = Done r o' →
            sound env o → sound env o'.
Proof.
  induction fuel as [|fuel IH]; intros o r o' H Hs;
    cbn [acquireContext_loop] in H; [done|].
  pose proof (ensureBrowser_effect env fuel o) as HB.
  destruct (ensureBrowser env fuel o) as [b o1|m o1|] eqn:Hb; [|done..].
  apply ensureBrowser_sound in Hb; [|done].
  pose proof (ensurePage_sound fuel o1 Hb) as HP.
  destruct (ensurePage env fuel o1) as [p o2|m o2|]; [| |done].
  - destruct (validatePage env p o2) as [ok o3] eqn:Hv.
    apply validatePage_sound in Hv; [|done].
    destruct ok.
    + inversion H; subst. by apply setState_sound.
    + by eapply IH.
  - eapply IH; [exact H|]. by apply nap_sound.
Qed.

Lemma create_sound (opts : Options) : sound env (create opts).
Proof. split; [by intros p|]. unfold history_bounded. cbn. lia. Qed.

(** A call keeps the invariant, and hands out the page and the options the
    orchestrator holds when it returns. *)
Lemma acquireContext_sound (fuel : nat) (o : Orch)
    (b : option Browser) (p : option Page) (o' : Orch) :
  sound env o →
  acquireContext env fuel o = Done (b, p) o' →
  sound env o' ∧ config o' = config o ∧ p = page o'.
Proof.
  intros Hs H. split.
  - eapply acquireContext_loop_sound; [exact H|]. by apply setState_sound.
  - pose proof (acquireContext_loop_effect env fuel (detectEnvironment o)) as He.
    unfold acquireContext in H. rewrite H in He.
    destruct He as ([Hc _] & _ & _ & Hp & _).
    split; [|done]. rewrite Hc. unfold detectEnvironment.
    by destruct (setState_quiet DETECTING_ENV o) as ([-> _] & _).
Qed.

End Run.

(** X18.  The page that [acquireContext] hands out has gone through the
    filter of the scan at an instant that has passed, in this call or in
    an earlier one, whatever the browser answers and whatever events it
    raises: at that instant its address was not empty, was not
    [about:blank], and contained one of the allowed domains (as a
    substring, anywhere in the address).  The address is not read again
    afterwards: a page the orchestrator has kept is handed out as it is,
    wherever the tab has navigated since.  This holds of an orchestrator
    whose kept page, if it has one, was admitted in that way, and the call
    leaves the orchestrator so. *)
Theorem acquireContext_page_allowed (env : nat → Chrome) (fuel : nat)
    (o : Orch) (b : option Browser) (pg : Page) (o' : Orch) :
  sound env o →
  acquireContext env fuel o = Done (b, Some pg) o' →
  sound env o'
  ∧ ∃ k, (k < tick o')%nat
         ∧ url (env k) pg ≠ "" ∧ url (env k) pg ≠ "about:blank"
         ∧ ∃ d, d ∈ allowedDomains (config o)
                ∧ includes (url (env k) pg) d = true.
Proof.
  intros Hs H.
  destruct (acquireContext_sound env fuel o _ _ _ Hs H) as (Hs' & Hc & Hpage).
  split; [exact Hs'|].
  destruct Hs' as [Hp _].
  destruct (Hp pg (eq_sym Hpage)) as (k & Hk & Hcand).
  exists k. split; [exact Hk|].
  rewrite Hc in Hcand. unfold candidate in Hcand.
  apply andb_prop in Hcand as [[H1 H2]%andb_prop H3].
  split; [by apply String.eqb_neq, negb_true_iff|].
  split; [by apply String.eqb_neq, negb_true_iff|].
  apply existsb_exists in H3 as (d & Hd & Hi). exists d.
  split; [by apply list_elem_of_In|done].
Qed.

Lemma acquireContext_page_allowed_witness :
  acquireContext tab_navigates 10 (create DEFAULTS)
  = Done (Some 1%nat, Some chatgpt_tab) after_first_call
  ∧ acquireContext tab_navigates 10 after_first_call
    = Done (Some 1%nat, Some chatgpt_tab) after_second_call
  ∧ url (tab_navigates (tick after_second_call)) chatgpt_tab
    = "https://example.org/"
  ∧ ∃ k, (k < tick after_second_call)%nat
         ∧ ∃ d, d ∈ allowedDomains DEFAULTS
                ∧ includes (url (tab_navigates k) chatgpt_tab) d = true.
Proof.
  assert (acquireContext tab_navigates 10 (create DEFAULTS)
          = Done (Some 1%nat, Some chatgpt_tab) after_first_call) as H1
    by (vm_compute; reflexivity).
  assert (acquireContext tab_navigates 10 after_first_call
          = Done (Some 1%nat, Some chatgpt_tab) after_second_call) as H2
    by (vm_compute; reflexivity).
  split; [exact H1|]. split; [exact H2|]. split; [vm_compute; reflexivity|].
  assert (sound tab_navigates (create DEFAULTS)) as H0.
  { split; [intros p Hp; discriminate Hp|].
    unfold history_bounded. cbn. lia. }
  destruct (acquireContext_page_allowed tab_navigates 10 (create DEFAULTS)
              _ _ _ H0 H1) as [Hs1 _].
  destruct (acquireContext_page_allowed tab_navigates 10 after_first_call
              _ _ _ Hs1 H2) as [_ (k & Hk & _ & _ & d & Hd & Hi)].
  exists k. split; [exact Hk|]. exists d. split; [|exact Hi].
  assert (config after_first_call = DEFAULTS) as Hc by reflexivity.
  by rewrite Hc in Hd.
Defined.

(** X19.  The state history never outgrows [stateHistorySize]: when
    [acquireContext] returns, the orchestrator created with these options
    holds at most that many entries, however many states it went
    through. *)
Theorem acquireContext_history_bounded (env : nat → Chrome) (fuel : nat)
    (opts : Options) (r : option Browser * option Page) (o' : Orch) :
  acquireContext env fuel (create opts) = Done r o' →
  (length (stateHistory o') ≤ stateHistorySize opts)%nat.
Proof.
  intros H. destruct r as [b p].
  destruct (acquireContext_sound env fuel (create opts) _ _ _
              (create_sound env opts) H) as ([_ Hh] & Hc & _).
  unfold history_bounded in Hh. by rewrite Hc in Hh.
Qed.

Lemma acquireContext_history_bounded_witness :
  ∃ o', acquireContext chrome_started_late 10 (create DEFAULTS)
        = Done (Some 1%nat, Some chatgpt_tab) o'
        ∧ (length (stateHistory o') ≤ 50)%nat.
Proof.
  eexists. split; [vm_compute; reflexivity|].
  eapply (acquireContext_history_bounded chrome_started_late 10 DEFAULTS).
  vm_compute. reflexivity.
Defined.

End OrchestratorMore.

(** ** The JSON extractor of the context resolver *)

Module MemoryProps.
Import Memory.

Lemma substring_skip (a : string) :
  ∀ n s, String.substring (String.length a) n (a +:+ s) = String.substring 0 n s.
Proof. induction a as [|x a IH]; intros n s; [done|]. rewrite String_app_cons. cbn. apply IH. Qed.

Lemma substring_prefix (b c : string) :
  String.substring 0 (String.length b) (b +:+ c) = b.
Proof.
  induction b as [|x b IH]; [by destruct c|].
  rewrite String_app_cons. cbn. by rewrite IH.
Qed.

Lemma length_app_str (a b : string) :
  String.length (a +:+ b) = (String.length a + String.length b)%nat.
Proof. induction a as [|x a IH]; [done|]. rewrite String_app_cons. cbn. by rewrite IH. Qed.

(** What [content.slice(start, i + 1)] is when the index has gone through
    [pfx] and [cur] and stands on the character [c]. *)
Lemma slice_current (pfx cur : string) (c : Ascii.ascii) (rest : string) :
  String.substring (Z.to_nat (Z.of_nat (String.length pfx)))
    (S (String.length pfx + String.length cur)
       - Z.to_nat (Z.of_nat (String.length pfx)))
    (pfx +:+ cur +:+ String c rest)
  = cur +:+ String c "".
Proof.
  rewrite Nat2Z.id, substring_skip.
  replace (S (String.length pfx + String.length cur) - String.length pfx)%nat
    with (String.length (cur +:+ String c "")) by (rewrite length_app_str; cbn; lia).
  replace (cur +:+ String c rest) with ((cur +:+ String c "") +:+ rest)
    by by rewrite String_app_assoc.
  apply substring_prefix.
Qed.

Lemma step_index (pfx cur : string) (c : Ascii.ascii) :
  S (String.length pfx + String.length cur)
  = (String.length pfx + String.length (cur +:+ String c ""))%nat.
Proof. rewrite length_app_str. cbn. lia. Qed.

Lemma step_content (pfx cur : string) (c : Ascii.ascii) (rest : string) :
  pfx +:+ cur +:+ String c rest = pfx +:+ (cur +:+ String c "") +:+ rest.
Proof. by rewrite String_app_assoc. Qed.

(** Once a brace has opened at depth zero the loop answers with a block
    of the content, or runs out of text. *)
Lemma loop_started (content : string) :
  ∀ rest pfx cur (d : nat),
    content = pfx +:+ cur +:+ rest →
    (∀ tail, block (cur +:+ tail) = closes (S d) tail) →
    let r := extract_loop content rest
               (String.length pfx + String.length cur)
               (Z.of_nat (S d)) (Z.of_nat (String.length pfx)) in
    block r = true ∧ part_of content r.
Proof.
  induction rest as [|c rest IH]; intros pfx cur d Hc Hb; cbn zeta.
  { split; [reflexivity|by left]. }
  cbn [extract_loop].
  destruct (Ascii.eqb c open_brace) eqn:Ho.
  - replace (Z.of_nat (S d) =? 0) with false by (symmetry; apply Z.eqb_neq; lia).
    replace (Z.of_nat (S d) + 1) with (Z.of_nat (S (S d))) by lia.
    rewrite (step_index pfx cur c). apply IH.
    + by rewrite <- step_content.
    + intros tail. rewrite String_app_assoc, Hb. rewrite String_app_cons.
      cbn [closes]. by rewrite Ho.
  - destruct (Ascii.eqb c close_brace) eqn:Hcl.
    + cbn zeta. replace (Z.of_nat (S d) - 1) with (Z.of_nat d) by lia.
      replace (Z.of_nat (String.length pfx) =? -1) with false
        by (symmetry; apply Z.eqb_neq; lia).
      destruct d as [|d].
      * change (Z.of_nat 0 =? 0) with true. cbn [andb negb].
        rewrite Hc at 1 3. rewrite slice_current.
        split.
        -- rewrite Hb. cbn [closes]. by rewrite Ho, Hcl.
        -- right. exists pfx, rest. by rewrite Hc, String_app_assoc.
      * replace (Z.of_nat (S d) =? 0) with false by (symmetry; apply Z.eqb_neq; lia).
        cbn [andb]. rewrite (step_index pfx cur c). apply IH.
        -- by rewrite <- step_content.
        -- intros tail. rewrite String_app_assoc, Hb. rewrite String_app_cons.
           cbn [closes]. by rewrite Ho, Hcl.
    + rewrite (step_index pfx cur c). apply IH.
      * by rewrite <- step_content.
      * intros tail. rewrite String_app_assoc, Hb. rewrite String_app_cons.
        cbn [closes]. by rewrite Ho, Hcl.
Qed.

Lemma length_app_one (pfx : string) (c : Ascii.ascii) :
  S (String.length pfx) = String.length (pfx +:+ String c "").
Proof. rewrite length_app_str. cbn. lia. Qed.

Lemma loop_unstarted (content : string) :
  ∀ rest pfx depth,
    content = pfx +:+ rest →
    let r := extract_loop content rest (String.length pfx) depth (-1) in
    block r = true ∧ part_of content r.
Proof.
  induction rest as [|c rest IH]; intros pfx depth Hc; cbn zeta.
  { split; [reflexivity|by left]. }
  cbn [extract_loop].
  assert (content = (pfx +:+ String c "") +:+ rest) as Hc'
    by by rewrite String_app_assoc.
  destruct (Ascii.eqb c open_brace) eqn:Ho.
  - destruct (Z.eqb_spec depth 0) as [->|Hd].
    + replace (S (String.length pfx))
        with (String.length pfx + String.length (String c ""))%nat by (cbn; lia).
      apply (loop_started content rest pfx (String c "") 0).
      * by rewrite Hc.
      * intros tail. rewrite String_app_cons. cbn [block]. by rewrite Ho.
    + rewrite (length_app_one pfx c). by apply IH.
  - destruct (Ascii.eqb c close_brace).
    + cbn zeta. cbn [Z.eqb negb]. rewrite andb_false_r.
      rewrite (length_app_one pfx c). by apply IH.
    + rewrite (length_app_one pfx c). by apply IH.
Qed.

(** Text without braces is passed over. *)
Lemma loop_passes (content : string) (depth start : Z) (rest : string) :
  ∀ pre i, no_brace pre = true →
    extract_loop content (pre +:+ rest) i depth start
    = extract_loop content rest (i + String.length pre) depth start.
Proof.
  induction pre as [|c pre IH]; intros i H.
  - cbn. by rewrite Nat.add_0_r.
  - rewrite String_app_cons. unfold no_brace in H. cbn [all_chars] in H.
    apply andb_prop in H as [[Ho Hcl]%andb_prop H].
    apply negb_true_iff in Ho, Hcl. cbn [extract_loop]. rewrite Ho, Hcl.
    rewrite IH by done. cbn. f_equal. lia.
Qed.

(** With a brace open at [length pfx], the loop answers with the text up
    to the brace that closes it. *)
Lemma loop_finds (content post : string) :
  ∀ r pfx cur (d : nat),
    closes (S d) r = true →
    content = pfx +:+ cur +:+ r +:+ post →
    extract_loop content (r +:+ post)
      (String.length pfx + String.length cur)
      (Z.of_nat (S d)) (Z.of_nat (String.length pfx))
    = cur +:+ r.
Proof.
  induction r as [|c r IH]; intros pfx cur d Hcl Hc; [done|].
  rewrite String_app_cons. cbn [extract_loop]. cbn [closes] in Hcl.
  assert (cur +:+ String c r = (cur +:+ String c "") +:+ r) as Hcur
    by by rewrite String_app_assoc.
  assert (content = pfx +:+ (cur +:+ String c "") +:+ r +:+ post) as Hc'.
  { rewrite Hc. by rewrite (String_app_assoc cur), !String_app_cons. }
  destruct (Ascii.eqb c open_brace) eqn:Ho.
  - replace (Z.of_nat (S d) =? 0) with false by (symmetry; apply Z.eqb_neq; lia).
    replace (Z.of_nat (S d) + 1) with (Z.of_nat (S (S d))) by lia.
    rewrite (step_index pfx cur c), Hcur. by apply IH.
  - destruct (Ascii.eqb c close_brace) eqn:Hcb.
    + cbn zeta. replace (Z.of_nat (S d) - 1) with (Z.of_nat d) by lia.
      replace (Z.of_nat (String.length pfx) =? -1) with false
        by (symmetry; apply Z.eqb_neq; lia).
      destruct d as [|d].
      * apply String.eqb_eq in Hcl as ->.
        change (Z.of_nat 0 =? 0) with true. cbn [andb negb]. rewrite Hc.
        change (String c "" +:+ post) with (String c post).
        apply slice_current.
      * replace (Z.of_nat (S d) =? 0) with false by (symmetry; apply Z.eqb_neq; lia).
        cbn [andb]. rewrite (step_index pfx cur c), Hcur. by apply IH.
    + rewrite (step_index pfx cur c), Hcur. by apply IH.
Qed.

Lemma extract_first_block (pre b post : string) :
  no_brace pre = true → block b = true →
  extractJsonByStack (pre +:+ b +:+ post) = b.
Proof.
  intros Hpre Hb. unfold extractJsonByStack.
  rewrite loop_passes by done. cbn [Nat.add].
  destruct b as [|c r]; [done|]. cbn [block] in Hb.
  apply andb_prop in Hb as [Ho Hcl].
  rewrite String_app_cons. cbn [extract_loop]. rewrite Ho. cbn [Z.eqb Z.add].
  replace (S (String.length pre))
    with (String.length pre + String.length (String c ""))%nat by (cbn; lia).
  change 1 with (Z.of_nat 1).
  by apply (loop_finds _ post r pre (String c "") 0).
Qed.

(** X20.  What [extractJsonByStack] returns is always a block: it opens
    with a brace and ends at the brace that closes it, never earlier or
    later.  It is a part of the content, or the default [{}]; and
    extracting from the result gives the result again. *)
Theorem extractJsonByStack_block (content : string) :
  block (extractJsonByStack content) = true
  ∧ (extractJsonByStack content = "{}"
     ∨ ∃ pre post, content = pre +:+ extractJsonByStack content +:+ post)
  ∧ extractJsonByStack (extractJsonByStack content) = extractJsonByStack content.
Proof.
  destruct (loop_unstarted content content "" 0 eq_refl) as [Hb Hp].
  cbn zeta in Hb, Hp. change (String.length "") with 0%nat in Hb, Hp.
  fold (extractJsonByStack content) in Hb, Hp.
  split; [exact Hb|]. split; [exact Hp|].
  pose proof (extract_first_block "" (extractJsonByStack content) ""
                eq_refl Hb) as H.
  change ("" +:+ ?x) with x in H. by rewrite String_app_nil_r in H.
Qed.

(** X21.  Text around the first object does not matter as long as the
    text before it has no brace: the extractor returns exactly the first
    block, whatever follows it. *)
Theorem extractJsonByStack_first_block (pre b post : string) :
  no_brace pre = true → block b = true →
  extractJsonByStack (pre +:+ b +:+ post) = b.
Proof. apply extract_first_block. Qed.

Lemma extractJsonByStack_first_block_witness :
  no_brace "Here it is: " = true ∧ block "{a:{b:1},c:2}" = true
  ∧ extractJsonByStack ("Here it is: " +:+ "{a:{b:1},c:2}" +:+ " and so on }")
    = "{a:{b:1},c:2}".
Proof.
  split; [reflexivity|]. split; [reflexivity|].
  exact (extractJsonByStack_first_block "Here it is: " "{a:{b:1},c:2}"
           " and so on }" eq_refl eq_refl).
Defined.

End MemoryProps.

(** ** The validator of results *)

Module ValidatorProps.
Import Validator.

(** X22.  [validateTaskResult] never answers [ok: true].  The terms of
    [i18n.getTerms] are spread without being awaited, which throws, so a
    file that exists and is long enough is always refused as a crash of
    the validator; the checks of the content (forbidden terms, format,
    pattern) are never reached. *)
Theorem validateTaskResult_never_passes {runtime : Runtime}
    (existsSync : string → bool) (statSync : string → result Z)
    (getTerms : string → string → promise (list string))
    (readLines : string → result (list string))
    (readFileSync : string → result string)
    (json_match : string → option string)
    (JSON_parse : string → result unit)
    (regex_test : string → string → result bool)
    (rules : Rules) (output_format : option string) (filePath : string) :
  let v := validateTaskResult existsSync statSync getTerms readLines
             readFileSync json_match JSON_parse regex_test
             rules output_format filePath in
  ok v = false
  ∧ ∃ r, reason v = Some r
         ∧ (String.prefix "FILE_NOT_FOUND: " r = true
            ∨ String.prefix "TOO_SHORT: " r = true
            ∨ String.prefix "VALIDATOR_CRASH: " r = true).
Proof.
  cbn zeta. unfold validateTaskResult.
  destruct (existsSync filePath); cbn [negb].
  - destruct (statSync filePath) as [size|m].
    + destruct (size <? _).
      * split; [done|]. eexists. split; [reflexivity|].
        right. left. rewrite !String_app_cons. reflexivity.
      * cbn [spread]. split; [done|]. eexists. split; [reflexivity|].
        right. right. apply prefix_app.
    + split; [done|]. eexists. split; [reflexivity|].
      right. right. apply prefix_app.
  - split; [done|]. eexists. split; [reflexivity|]. by left.
Qed.

End ValidatorProps.
